(** * PFor: patched frame-of-reference coding of 32-bit integers

    A shallow embedding of [class PFor] (src/headers/pfor.h) and the
    properties of its width selection, block encoder, block decoder, header
    words and array drivers.

    Conventions of the embedding:
    - a [uint32_t] is a [Z] in [0, 2^32); a store that narrows a wider value
      is written [u32]. A [size_t] is a [Z] or a [nat] without wrap-around:
      it holds lengths and counters that are bounded by the arrays in
      memory;
    - an array handed over as pointer and length is the [list Z] of its
      elements; a cursor into the encoded stream is the list of the words
      from the cursor on;
    - in-block positions of the encoder are [nat] (they stay below
      [BlockSize]); cursors of the decoder are [Z], since they are computed
      from words of the stream;
    - the two reusable buffers of the codec are a state [PFor] that the
      encoder takes and returns;
    - what [rand()] returns is a parameter of the width selection;
    - a loop whose number of rounds is not fixed recurses on a bound of
      that number; the properties show that the bound is not met;
    - an access outside the buffer a function was given, undefined in C++,
      is the failure [out_of_bounds];
    - the capacity passed in through [nvalue] is only compared inside
      [assert]; the buffers are taken to be large enough. *)

From Stdlib Require Import ZArith Lia Floats.
From stdpp Require Import base numbers list sorting.

Local Open Scope Z_scope.

(** ** Constants *)

Definition BlockSizeInUnitsOfPackSize : Z := 4.
Definition PACKSIZE : Z := 32.
Definition BlockSize : Z := BlockSizeInUnitsOfPackSize * PACKSIZE.

(** Modelled from the spec: [constexprbits] (util.h, not among the sources)
    is "the number of bits needed to represent" its argument, so that
    [blocksizeinbits] is the 8 of the header layout. *)
Definition constexprbits (v : Z) : Z :=
  if v =? 0 then 0 else Z.log2 v + 1.

Definition blocksizeinbits : Z := constexprbits BlockSize.

(** Narrowing store into a [uint32_t]. *)
Definition u32 (z : Z) : Z := z mod 2 ^ 32.

(** A 32-bit value. *)
Definition is_u32 (v : Z) : Prop := 0 <= v < 2 ^ 32.

(** ** Failures

    [logic_error a x] is the exception of [checkifdivisibleby];
    [out_of_bounds] an access outside the given buffer; [no_progress] a
    decoding loop that has not finished after more rounds than the input
    has words. A failure keeps what had been written to the output before
    it. *)

Inductive failure : Type :=
  | logic_error (a x : Z)
  | out_of_bounds
  | no_progress.

Inductive result (A : Type) : Type :=
  | Ok (a : A)
  | Err (e : failure) (written : list Z).

Arguments Ok {A} a.
Arguments Err {A} e written.

#[global] Instance result_ret : MRet result := λ A a, Ok a.

#[global] Instance result_bind : MBind result := λ A B k m,
  match m with
  | Ok a => k a
  | Err e w => Err e w
  end.

(** What a failing computation had written is appended to what its caller
    wrote before it. *)
Definition after {A : Type} (before : list Z) (m : result A) : result A :=
  match m with
  | Ok a => Ok a
  | Err e w => Err e (before ++ w)
  end.

(** Modelled from the spec: [checkifdivisibleby] (util.h, not among the
    sources) fails fast when [a] is not a multiple of [x]. *)
Definition checkifdivisibleby (a x : Z) : result unit :=
  if a mod x =? 0 then Ok tt else Err (logic_error a x) [].

(** Bounds-checked read of the word at cursor [off]. *)
Definition read (inp : list Z) (off : Z) : result Z :=
  if (0 <=? off) && (off <? Z.of_nat (length inp))
  then Ok (inp !!! Z.to_nat off)
  else Err out_of_bounds [].

(** ** The fixed-width packing primitive

    [fastpack] and [fastunpack] (bitpacking.h) are not among the sources.
    The codec is verified against their interface: [fastpack vs bit] is the
    [bit] words written for 32 values, [fastunpack ws bit] the 32 values
    read from the first [bit] words at [ws]. The laws are what the codec
    relies on: a value that fits in [bit] bits comes back at its position
    whatever the other 31 values are, and at width 32 unpacking copies. *)

Class BitPacking : Type := {
  fastpack : list Z → Z → list Z;
  fastunpack : list Z → Z → list Z;
  fastpack_length : ∀ vs bit,
    0 <= bit <= 32 → length vs = 32%nat →
    length (fastpack vs bit) = Z.to_nat bit;
  fastunpack_length : ∀ ws bit, length (fastunpack ws bit) = 32%nat;
  fastunpack_fastpack : ∀ vs bit rest i v,
    0 <= bit <= 32 → length vs = 32%nat →
    vs !! i = Some v → 0 <= v < 2 ^ bit →
    fastunpack (fastpack vs bit ++ rest) bit !! i = Some v;
  fastunpack_32 : ∀ ws rest,
    length ws = 32%nat → Forall is_u32 ws →
    fastunpack (ws ++ rest) 32 = ws
}.

(** Modelled from the spec: a packer with the layout of bitpacking.h, which
    is not among the sources. Each value is masked to [bit] bits and the 32
    fields are laid out one after the other, lowest bits first, over [bit]
    words. *)
Fixpoint join_fields (w : Z) (vs : list Z) : Z :=
  match vs with
  | [] => 0
  | v :: vs' => Z.lor (Z.land v (Z.ones w)) (Z.shiftl (join_fields w vs') w)
  end.

Fixpoint split_fields (n : nat) (w : Z) (x : Z) : list Z :=
  match n with
  | O => []
  | S n' => Z.land x (Z.ones w) :: split_fields n' w (Z.shiftr x w)
  end.

Definition mask_fastpack (vs : list Z) (bit : Z) : list Z :=
  split_fields (Z.to_nat bit) 32 (join_fields bit vs).

Definition mask_fastunpack (ws : list Z) (bit : Z) : list Z :=
  split_fields 32 bit (join_fields 32 (take (Z.to_nat bit) ws)).

(** ** The codec object: its two reusable buffers *)

Record PFor : Type := {
  codedcopy : list Z;
  miss : list nat
}.

Definition PFor_new : PFor :=
  {| codedcopy := replicate (Z.to_nat BlockSize) 0;
     miss := replicate (Z.to_nat BlockSize) 0%nat |}.

(** ** Block encoder *)

Section Codec.
Context `{BitPacking}.

(** The [j] of [packblock] and [unpackblock]: 0, 32, 64, 96. *)
Definition pack_offsets : list nat :=
  (λ k, k * Z.to_nat PACKSIZE)%nat <$> seq 0 (Z.to_nat BlockSizeInUnitsOfPackSize).

Definition packblock (source : list Z) (bit : Z) : list Z :=
  foldl (λ out j, out ++ fastpack (take (Z.to_nat PACKSIZE) (drop j source)) bit)
        [] pack_offsets.

Definition unpackblock (source : list Z) (bit : Z) : list Z :=
  snd (foldl (λ st (_ : nat),
                (drop (Z.to_nat bit) (fst st), snd st ++ fastunpack (fst st) bit))
             (source, []) pack_offsets).

(** The scan for exceptions: [miss[exceptcounter] = k;
    exceptcounter += (in[k] >= maxgap)]. *)
Definition scan_step (inp : list Z) (maxgap : Z)
    (st : list nat * nat) (k : nat) : list nat * nat :=
  (<[snd st := k]> (fst st),
   (snd st + (if (maxgap <=? inp !!! k)%Z then 1 else 0))%nat).

Definition scan_exceptions (inp : list Z) (maxgap : Z) (miss0 : list nat)
    : list nat * nat :=
  foldl (scan_step inp maxgap) (miss0, 0%nat) (seq 0 (Z.to_nat BlockSize)).

(** The patching loops work on the scratch copy, the position of the last
    link of the chain and the exception output. *)
Record patching : Type := {
  copy : list Z;
  prev : nat;
  exceptions : list Z
}.

(** [while (cur > maxgap + prev)]: one compulsory exception per round. The
    recursion is on a bound of the number of rounds. *)
Fixpoint compulsory (rounds : nat) (maxgap : Z) (cur : nat) (st : patching)
    : patching :=
  match rounds with
  | O => st
  | S rounds' =>
      if maxgap + Z.of_nat (prev st) <? Z.of_nat cur then
        let compulcur := (prev st + Z.to_nat maxgap)%nat in
        compulsory rounds' maxgap cur
          {| exceptions := exceptions st ++ [copy st !!! compulcur];
             copy := <[prev st := u32 (maxgap - 1)]> (copy st);
             prev := compulcur |}
      else st
  end.

(** [*(exceptions++) = codedcopy[cur]; codedcopy[prev] = cur - prev - 1;
    prev = cur]. *)
Definition link (cur : nat) (st : patching) : patching :=
  {| exceptions := exceptions st ++ [copy st !!! cur];
     copy := <[prev st := u32 (Z.of_nat cur - Z.of_nat (prev st) - 1)]> (copy st);
     prev := cur |}.

(** The body of the [for] loop of the branch [maxgap < BlockSize]. *)
Definition patch_saturating (maxgap : Z) (misses : list nat)
    (st : patching) (i : nat) : patching :=
  let cur := misses !!! i in
  link cur (compulsory (Z.to_nat BlockSize) maxgap cur st).

(** The body of the [for] loop of the other branch. *)
Definition patch_plain (misses : list nat) (st : patching) (i : nat) : patching :=
  link (misses !!! i) st.

(** What [compressblockPFOR] leaves behind: the position it returns, the
    words written at [outputbegin], the exception output and the buffers of
    the codec. *)
Record compressed : Type := {
  firstexcept : nat;
  words : list Z;
  excepts : list Z;
  scratch : PFor
}.

Definition compressblockPFOR (c : PFor) (inp : list Z) (b : Z)
    (exceptions0 : list Z) : compressed :=
  if b =? 32 then
    {| firstexcept := Z.to_nat BlockSize;
       words := take (Z.to_nat BlockSize) inp;
       excepts := exceptions0;
       scratch := c |}
  else
    let maxgap := u32 (Z.shiftl 1 b) in
    let scanned := scan_exceptions inp maxgap (miss c) in
    let misses := fst scanned in
    let exceptcounter := snd scanned in
    if (exceptcounter =? 0)%nat then
      {| firstexcept := Z.to_nat BlockSize;
         words := packblock inp b;
         excepts := exceptions0;
         scratch := {| codedcopy := codedcopy c; miss := misses |} |}
    else
      let assigned := take (Z.to_nat BlockSize) inp in
      let first := misses !!! 0%nat in
      let st0 := {| exceptions := exceptions0 ++ [assigned !!! first];
                    copy := assigned;
                    prev := first |} in
      let st :=
        if maxgap <? BlockSize
        then foldl (patch_saturating maxgap misses) st0 (seq 1 (exceptcounter - 1))
        else foldl (patch_plain misses) st0 (seq 1 (exceptcounter - 1)) in
      {| firstexcept := first;
         words := packblock (copy st) b;
         excepts := exceptions st;
         scratch := {| codedcopy := copy st; miss := misses |} |}.

(** ** Block decoder *)

(** The loop of [uncompressblockPFOR], for the [n] exceptions between the
    cursor [i] and [end_exception]: [next_exception = cur + outputbegin[cur]
    + 1; outputbegin[cur] = *(i++)]. The exceptions are words of [stream];
    [out] is the block being patched. *)
Fixpoint chain_walk (n : nat) (stream : list Z) (i : Z) (out : list Z)
    (cur : Z) : result (list Z) :=
  match n with
  | O => Ok out
  | S n' =>
      gap ← read out cur;
      e ← read stream i;
      chain_walk n' stream (i + 1) (<[Z.to_nat cur := e]> out) (cur + gap + 1)
  end.

(** [inputbegin] is the stream from the first packed word on; the result is
    the block and the exception cursor, which ends on [end_exception]. A
    cursor already past [end_exception] never meets it. *)
Definition uncompressblockPFOR (inputbegin : list Z) (b : Z) (stream : list Z)
    (i end_exception next_exception : Z) : result (list Z * Z) :=
  let out := unpackblock inputbegin b in
  if end_exception <? i then Err out_of_bounds []
  else
    out' ← chain_walk (Z.to_nat (end_exception - i)) stream i out next_exception;
    Ok (out', end_exception).

(** ** Header words *)

Definition bitsforfirstexcept : Z := blocksizeinbits.
Definition firstexceptmask : Z := u32 (Z.shiftl 1 blocksizeinbits) - 1.

(** [*headerout = (firstexcept & firstexceptmask) | (exceptindex <<
    bitsforfirstexcept)], narrowed to the 32-bit word it is stored in. *)
Definition block_header (firstexcept exceptindex : Z) : Z :=
  u32 (Z.lor (Z.land firstexcept firstexceptmask)
             (Z.shiftl exceptindex bitsforfirstexcept)).

Definition header_firstexcept (header : Z) : Z := Z.land header firstexceptmask.
Definition header_exceptindex (header : Z) : Z := Z.shiftr header bitsforfirstexcept.

(** ** Width selection *)

(** Modelled from the spec: [asmbits] (util.h, not among the sources) is the
    bit length of a value, 0 for 0 and up to 32. *)
Definition asmbits (v : Z) : Z := if v =? 0 then 0 else Z.log2 v + 1.

Definition defaultsamplesize : Z := 64 * 1024.

(** Conversion of an unsigned integer to [double]. *)
Definition to_double (z : Z) : float := PrimFloat.of_uint63 (Uint63.of_Z z).

(** The sample of [determineBestBase]: [rand] is the value [rand()] returns
    when it is called. *)
Definition samplesize_of (size : Z) : Z :=
  if defaultsamplesize <? size then defaultsamplesize else size.

Definition rstart_of (rand size : Z) : Z :=
  if samplesize_of size <? size
  then u32 (rand mod (size - samplesize_of size))
  else 0.

(** [freqs[asmbits(in[k])]++] over the sample. *)
Definition count_bits (freqs : list Z) (v : Z) : list Z :=
  <[Z.to_nat (asmbits v) := u32 (freqs !!! Z.to_nat (asmbits v) + 1)]> freqs.

Record costs : Type := {
  numberofexceptions : Z;
  bestcost : float;
  bestb : Z
}.

(** The body of the cost loop at width [b]. *)
Definition cost_step (freqs : list Z) (samplesize : Z) (b : Z) (st : costs)
    : costs :=
  let n := u32 (numberofexceptions st + freqs !!! Z.to_nat (b + 1)) in
  let Erate := PrimFloat.div (PrimFloat.mul (to_double n) 1%float)
                             (to_double samplesize) in
  let Erate :=
    if 0 <? n then
      let altErate :=
        PrimFloat.div
          (PrimFloat.sub (PrimFloat.mul Erate (to_double 128)) (to_double 1))
          (PrimFloat.mul Erate (to_double (u32 (Z.shiftl 1 b)))) in
      if PrimFloat.ltb Erate altErate then altErate else Erate
    else Erate in
  let thiscost := PrimFloat.add (to_double b) (PrimFloat.mul Erate (to_double 32)) in
  if PrimFloat.leb thiscost (bestcost st)
  then {| numberofexceptions := n; bestcost := thiscost; bestb := b |}
  else {| numberofexceptions := n; bestcost := bestcost st; bestb := bestb st |}.

(** [for (b = bestb - 1; b < 32; --b)]: the widths 31 down to 0. *)
Fixpoint cost_loop (freqs : list Z) (samplesize : Z) (n : nat) (st : costs)
    : costs :=
  match n with
  | O => st
  | S b => cost_loop freqs samplesize b (cost_step freqs samplesize (Z.of_nat b) st)
  end.

Definition determineBestBase (rand : Z) (inp : list Z) : Z :=
  let size := Z.of_nat (length inp) in
  if size =? 0 then 0
  else
    let samplesize := samplesize_of size in
    let rstart := rstart_of rand size in
    let sample := take (Z.to_nat samplesize) (drop (Z.to_nat rstart) inp) in
    let freqs := foldl count_bits (replicate 33 0) sample in
    bestb (cost_loop freqs samplesize 32
             {| numberofexceptions := 0; bestcost := to_double 32; bestb := 32 |}).

(** ** Chunk encoder and decoder *)

(** The [for] loop of [__encodeArray] over the blocks; [inp] is the input
    from the current block on, [out] the words written after the two
    leading ones, [excs] the exception buffer. *)
Fixpoint encode_blocks (n : nat) (c : PFor) (inp : list Z) (b : Z)
    (out excs : list Z) : PFor * list Z * list Z :=
  match n with
  | O => (c, out, excs)
  | S n' =>
      let r := compressblockPFOR c inp b excs in
      let exceptindex := Z.of_nat (length (excepts r)) in
      let header := block_header (Z.of_nat (firstexcept r)) exceptindex in
      encode_blocks n' (scratch r) (drop (Z.to_nat BlockSize) inp) b
        (out ++ [header] ++ words r) (excepts r)
  end.

Definition __encodeArray (c : PFor) (rand : Z) (inp : list Z)
    : result (PFor * list Z) :=
  let len := Z.of_nat (length inp) in
  _ ← checkifdivisibleby len BlockSize;
  let b := determineBestBase rand inp in
  let r := encode_blocks (Z.to_nat (len / BlockSize)) c inp b [] [] in
  Ok (r.1.1, [u32 len; b] ++ r.1.2 ++ r.2).

(** The [for] loop of [__decodeArray]; [pos] is the cursor [in], [except]
    the exception cursor, all relative to the start of the chunk [inp]. *)
Fixpoint decode_blocks (n : nat) (inp : list Z) (b initexcept : Z)
    (pos : Z) (out : list Z) (except endexceptpointer : Z)
    : result (list Z * Z) :=
  match n with
  | O => Ok (out, endexceptpointer)
  | S n' =>
      header ← after out (read inp pos);
      let firstexcept := header_firstexcept header in
      let exceptindex := header_exceptindex header in
      let endexceptpointer := initexcept + exceptindex in
      r ← after out (uncompressblockPFOR (drop (Z.to_nat (pos + 1)) inp) b inp
                       except endexceptpointer firstexcept);
      decode_blocks n' inp b initexcept
        (pos + 1 + u32 (BlockSize * b) / 32) (out ++ r.1) r.2 endexceptpointer
  end.

(** The result is the values written, [nvalue] and the cursor returned. *)
Definition __decodeArray (inp : list Z) : result (list Z * Z * Z) :=
  nvalue ← read inp 0;
  _ ← checkifdivisibleby nvalue BlockSize;
  b ← read inp 1;
  let except := 2 + nvalue * b / 32 + nvalue / BlockSize in
  r ← decode_blocks (Z.to_nat (nvalue / BlockSize)) inp b except 2 [] except except;
  Ok (r.1, nvalue, r.2).

(** ** Array drivers *)

Definition maxsize : Z := u32 (Z.shiftl 1 (32 - blocksizeinbits - 1)).

(** The [for] loop of [encodeArray] over the chunks: [i] is its counter,
    [k] the number of the chunk, [rand k] what [rand()] returns if the width
    selection of that chunk calls it. The loop ends after at most [len]
    rounds, the bound of the recursion. *)
Fixpoint encode_chunks (rounds : nat) (c : PFor) (rand : nat → Z) (k : nat)
    (inp : list Z) (len i : Z) (out : list Z) : result (PFor * list Z) :=
  if i <? len then
    match rounds with
    | O => Err no_progress out
    | S rounds' =>
        let l := if len <? i + maxsize then len - i else maxsize in
        r ← after out (__encodeArray c (rand k)
                         (take (Z.to_nat l) (drop (Z.to_nat i) inp)));
        encode_chunks rounds' r.1 rand (S k) inp len (i + maxsize) (out ++ r.2)
    end
  else Ok (c, out).

(** The result is the codec and the words written; [nvalue] is their
    number. *)
Definition encodeArray (c : PFor) (rand : nat → Z) (inp : list Z)
    : result (PFor * list Z) :=
  let len := Z.of_nat (length inp) in
  encode_chunks (length inp) c rand 0 inp len 0 [u32 len].

(** The [while] loop of [decodeArray]; [pos] is the cursor [in]. Each round
    moves the cursor on, so more rounds than the input has words end in a
    failure. *)
Fixpoint decode_chunks (rounds : nat) (inp : list Z) (nvalue : Z)
    (pos : Z) (out : list Z) (totalnvalue : Z) : result (list Z * Z * Z) :=
  if totalnvalue <? nvalue then
    match rounds with
    | O => Err no_progress out
    | S rounds' =>
        r ← after out (__decodeArray (drop (Z.to_nat pos) inp));
        decode_chunks rounds' inp nvalue (pos + r.2) (out ++ r.1.1)
          (totalnvalue + r.1.2)
    end
  else Ok (out, totalnvalue, pos).

(** The result is the values written, [nvalue] and the cursor returned, as
    a number of words from the start of [inp]. *)
Definition decodeArray (inp : list Z) : result (list Z * Z * Z) :=
  nvalue ← read inp 0;
  if nvalue =? 0 then Ok ([], nvalue, 1)
  else decode_chunks (length inp) inp nvalue 1 [] 0.

End Codec.

(** ** Notions the properties are stated with *)

(** The four groups of 32 values a block is packed in. *)
Definition group (k : nat) (source : list Z) : list Z :=
  take 32 (drop (k * 32) source).

(** The positions of the values of a block that do not fit, in increasing
    order. *)
Definition exception_positions (inp : list Z) (maxgap : Z) : list nat :=
  filter (λ k, maxgap <= inp !!! k) (seq 0 (Z.to_nat BlockSize)).

(** [links orig maxgap exc0 chain st]: the state [st] of the patching loops
    holds a chain through the positions [chain] of the block [orig], after
    the exceptions [exc0] of earlier blocks. The values at these
    positions have been emitted in order; every link but the last holds the
    gap code to its successor; every other slot holds its value. *)
Record links (orig : list Z) (maxgap : Z) (exc0 : list Z)
    (chain : list nat) (st : patching) : Prop := {
  links_last : last chain = Some (prev st);
  links_sorted : StronglySorted lt chain;
  links_below : Forall (λ p, p ≤ prev st)%nat chain;
  links_bound : (prev st < length orig)%nat;
  links_exceptions : exceptions st = exc0 ++ ((orig !!!.) <$> chain);
  links_length : length (copy st) = length orig;
  links_untouched : ∀ j, j ∉ chain ∨ j = prev st → copy st !! j = orig !! j;
  links_gaps : ∀ k p q, chain !! k = Some p → chain !! S k = Some q →
    (p < q)%nat ∧ Z.of_nat q - Z.of_nat p <= maxgap ∧
    copy st !! p = Some (Z.of_nat q - Z.of_nat p - 1)
}.

(** The patching of one real exception [cur] in the words of the
    specification: while [cur - prev > maxgap], a compulsory exception at
    [mid = prev + maxgap] (emit the value stored at [mid], write the gap
    code [maxgap - 1] into slot [prev], advance [prev] to [mid]); once
    [cur - prev <= maxgap], emit the value at [cur], write the gap code
    [cur - prev - 1] at [prev], advance [prev] to [cur]. *)
Inductive spec_patch (maxgap : Z) (cur : nat) : patching → patching → Prop :=
  | spec_compulsory (st st' : patching) :
      Z.of_nat cur - Z.of_nat (prev st) > maxgap →
      spec_patch maxgap cur
        {| exceptions := exceptions st ++ [copy st !!! (prev st + Z.to_nat maxgap)%nat];
           copy := <[prev st := maxgap - 1]> (copy st);
           prev := (prev st + Z.to_nat maxgap)%nat |}
        st' →
      spec_patch maxgap cur st st'
  | spec_real (st : patching) :
      Z.of_nat cur - Z.of_nat (prev st) <= maxgap →
      spec_patch maxgap cur st
        {| exceptions := exceptions st ++ [copy st !!! cur];
           copy := <[prev st := Z.of_nat cur - Z.of_nat (prev st) - 1]> (copy st);
           prev := cur |}.

(** ** Sample blocks *)

#[global] Instance is_u32_dec (v : Z) : Decision (is_u32 v).
Proof. unfold is_u32. apply _. Defined.

(** 128 zeros but for one maximal value at position 3. *)
Definition single_outlier : list Z :=
  <[3%nat := 4294967295]> (replicate 128 0).

(** Two exceptions at width 2 that are 87 positions apart, and a third. *)
Definition sparse_block : list Z :=
  <[100%nat := 77]> (<[90%nat := 1000]> (<[3%nat := 4294967295]> (replicate 128 1))).

(** ** Notions of the further properties *)

(** The patching loops of [compressblockPFOR] as a fold over the positions
    [more] of the exceptions that follow the first one. *)
Definition patch_positions (inp : list Z) (maxgap : Z) (exc0 : list Z)
    (first : nat) (more : list nat) : patching :=
  let st0 := {| exceptions := exc0 ++ [take 128 inp !!! first];
                copy := take 128 inp;
                prev := first |} in
  if maxgap <? BlockSize
  then foldl (λ st cur, link cur (compulsory (Z.to_nat BlockSize) maxgap cur st))
             st0 more
  else foldl (λ st cur, link cur st) st0 more.

(** Two runs of an encoder agree: they fail alike, or they write the same
    words and leave buffers of the size of a block. *)
Definition same_written (r1 r2 : result (PFor * list Z)) : Prop :=
  match r1, r2 with
  | Ok (c1, o1), Ok (c2, o2) =>
      o1 = o2 ∧ length (miss c1) = 128%nat ∧ length (miss c2) = 128%nat
  | Err e1 w1, Err e2 w2 => e1 = e2 ∧ w1 = w2
  | _, _ => False
  end.

(** With no value above the width [b] in the sample the exception rate of
    the cost loop is 0 and the cost of the width is [b]. The two facts on
    [double] arithmetic are checked for every sample size and every
    width. *)
Definition zero_rate_check (samplesize : Z) : bool :=
  PrimFloat.Leibniz.eqb
    (PrimFloat.div (PrimFloat.mul (to_double 0) 1%float) (to_double samplesize))
    (to_double 0).

Definition width_cost_check (b : Z) : bool :=
  PrimFloat.Leibniz.eqb
    (PrimFloat.add (to_double b) (PrimFloat.mul (to_double 0) (to_double 32)))
    (to_double b)
  && PrimFloat.leb (to_double b) (to_double (b + 1)).

Fixpoint checked_from (check : Z → bool) (n : nat) (z : Z) : bool :=
  match n with
  | O => true
  | S n' => check z && checked_from check n' (z + 1)
  end.

(** The state of the cost loop when no width above [b] has had an
    exception: the last width is the best so far, at cost [b]. *)
Definition unbeaten (b : Z) : costs :=
  {| numberofexceptions := 0; bestcost := to_double b; bestb := b |}.

(** * The masking packer meets the interface *)

Section MaskPacker.

Lemma testbit_above (v w j : Z) :
  0 <= v < 2 ^ w → 0 <= w <= j → Z.testbit v j = false.
Proof.
  intros Hv Hj.
  rewrite <- (Z.mod_small v (2 ^ w)) by lia.
  apply Z.mod_pow2_bits_high. lia.
Qed.

Lemma split_fields_length (n : nat) (w x : Z) :
  length (split_fields n w x) = n.
Proof.
  revert x. induction n as [|n IH]; intros x; simpl; [done|].
  by rewrite IH.
Qed.

Lemma split_fields_lookup (n : nat) (w x : Z) (i : nat) :
  (i < n)%nat → 0 <= w →
  split_fields n w x !! i = Some (Z.land (Z.shiftr x (Z.of_nat i * w)) (Z.ones w)).
Proof.
  revert x i. induction n as [|n IH]; intros x i Hi Hw; [lia|].
  destruct i as [|i]; simpl.
  - by rewrite Z.shiftr_0_r.
  - rewrite IH by lia. rewrite Z.shiftr_shiftr by lia.
    do 3 f_equal. lia.
Qed.

Lemma field_testbit (x w : Z) (i : nat) (j : Z) :
  0 <= w → 0 <= j →
  Z.testbit (Z.land (Z.shiftr x (Z.of_nat i * w)) (Z.ones w)) j =
  if j <? w then Z.testbit x (Z.of_nat i * w + j) else false.
Proof.
  intros Hw Hj. rewrite Z.land_spec, Z.shiftr_spec by lia.
  destruct (Z.ltb_spec j w).
  - rewrite Z.ones_spec_low by lia. rewrite andb_true_r. f_equal. lia.
  - rewrite Z.ones_spec_high by lia. apply andb_false_r.
Qed.

Lemma join_fields_testbit (w : Z) (vs : list Z) (k : Z) :
  0 < w → 0 <= k →
  Z.testbit (join_fields w vs) k =
  match vs !! Z.to_nat (k / w) with
  | Some v => Z.testbit v (k mod w)
  | None => false
  end.
Proof.
  intros Hw. revert k. induction vs as [|v vs IH]; intros k Hk; simpl.
  - by rewrite Z.bits_0.
  - rewrite Z.lor_spec, Z.land_spec.
    destruct (Z.ltb_spec k w) as [Hlt|Hge].
    + rewrite Z.shiftl_spec_low by lia.
      rewrite Z.ones_spec_low by lia.
      rewrite Z.div_small, Z.mod_small by lia. simpl.
      by rewrite andb_true_r, orb_false_r.
    + rewrite Z.ones_spec_high by lia. rewrite andb_false_r. simpl.
      rewrite Z.shiftl_spec by lia. rewrite IH by lia.
      assert (k / w = (k - w) / w + 1) as ->.
      { rewrite <- Z.div_add by lia. f_equal. lia. }
      assert (k mod w = (k - w) mod w) as ->.
      { rewrite <- (Z.mod_add (k - w) 1 w) by lia. f_equal. lia. }
      assert (0 <= (k - w) / w) by (apply Z.div_pos; lia).
      replace (Z.to_nat ((k - w) / w + 1)) with (S (Z.to_nat ((k - w) / w))) by lia.
      done.
Qed.

Lemma join_fields_zero_width (vs : list Z) : join_fields 0 vs = 0.
Proof.
  induction vs as [|v vs IH]; simpl; [done|].
  by rewrite IH, Z.land_0_r.
Qed.

Lemma mask_fastpack_length (vs : list Z) (bit : Z) :
  length (mask_fastpack vs bit) = Z.to_nat bit.
Proof. apply split_fields_length. Qed.

Lemma mask_fastunpack_length (ws : list Z) (bit : Z) :
  length (mask_fastunpack ws bit) = 32%nat.
Proof. apply split_fields_length. Qed.

Lemma regroup_testbit (vs : list Z) (bit : Z) (i : nat) (j : Z) :
  0 < bit <= 32 → (i < 32)%nat → 0 <= j < bit →
  Z.testbit (join_fields 32 (mask_fastpack vs bit)) (Z.of_nat i * bit + j) =
  Z.testbit (join_fields bit vs) (Z.of_nat i * bit + j).
Proof.
  intros Hb Hi Hj. set (k := Z.of_nat i * bit + j).
  assert (0 <= k < 32 * bit) by (unfold k; nia).
  rewrite join_fields_testbit by lia.
  assert (0 <= k / 32 < bit) by (split; [apply Z.div_pos | apply Z.div_lt_upper_bound]; lia).
  unfold mask_fastpack. rewrite split_fields_lookup by lia.
  rewrite field_testbit by (try apply Z.mod_pos_bound; lia).
  pose proof (Z.mod_pos_bound k 32 ltac:(lia)).
  destruct (Z.ltb_spec (k mod 32) 32); [|lia].
  f_equal. rewrite Z2Nat.id by lia.
  pose proof (Z.div_mod k 32 ltac:(lia)). lia.
Qed.

Lemma mask_fastunpack_fastpack (vs : list Z) (bit : Z) (rest : list Z) (i : nat) (v : Z) :
  0 <= bit <= 32 → length vs = 32%nat →
  vs !! i = Some v → 0 <= v < 2 ^ bit →
  mask_fastunpack (mask_fastpack vs bit ++ rest) bit !! i = Some v.
Proof.
  intros Hb Hlen Hv Hrange.
  assert (i < 32)%nat as Hi by (apply lookup_lt_Some in Hv; lia).
  unfold mask_fastunpack.
  rewrite <- (mask_fastpack_length vs bit) at 1.
  rewrite take_app_length.
  rewrite split_fields_lookup by lia. f_equal.
  destruct (decide (bit = 0)) as [->|Hnz].
  - rewrite Z.land_0_r. simpl in Hrange. lia.
  - apply Z.bits_inj'. intros j Hj.
    rewrite field_testbit by lia.
    destruct (Z.ltb_spec j bit) as [Hlt|Hge].
    + rewrite regroup_testbit by lia.
      rewrite join_fields_testbit by nia.
      rewrite Z.div_add_l, Z.div_small, Z.add_0_r by lia.
      rewrite Nat2Z.id, Hv.
      rewrite Z.add_comm, Z.mod_add by lia.
      by rewrite Z.mod_small by lia.
    + symmetry. apply (testbit_above v bit); lia.
Qed.

Lemma mask_fastunpack_32 (ws rest : list Z) :
  length ws = 32%nat → Forall is_u32 ws →
  mask_fastunpack (ws ++ rest) 32 = ws.
Proof.
  intros Hlen Hws. unfold mask_fastunpack.
  replace (Z.to_nat 32) with (length ws) by lia.
  rewrite take_app_length.
  apply list_eq. intros i.
  destruct (decide (i < 32)%nat) as [Hi|Hi].
  - rewrite split_fields_lookup by lia.
    destruct (lookup_lt_is_Some_2 ws i ltac:(lia)) as [v Hv].
    rewrite Hv. f_equal.
    assert (is_u32 v) as Hu by (eapply Forall_lookup_1; eauto).
    apply Z.bits_inj'. intros j Hj.
    rewrite field_testbit by lia.
    destruct (Z.ltb_spec j 32) as [Hlt|Hge].
    + rewrite join_fields_testbit by lia.
      rewrite Z.div_add_l, Z.div_small, Z.add_0_r by lia.
      rewrite Nat2Z.id, Hv.
      rewrite Z.add_comm, Z.mod_add by lia.
      by rewrite Z.mod_small by lia.
    + symmetry. apply (testbit_above v 32); [apply Hu | lia].
  - rewrite !lookup_ge_None_2; [done | lia |].
    rewrite split_fields_length. lia.
Qed.

End MaskPacker.

(** The packer of bitpacking.h, as modelled above. *)
#[global] Instance mask_packing : BitPacking := {|
  fastpack := mask_fastpack;
  fastunpack := mask_fastunpack;
  fastpack_length := λ vs bit _ _, mask_fastpack_length vs bit;
  fastunpack_length := mask_fastunpack_length;
  fastunpack_fastpack := mask_fastunpack_fastpack;
  fastunpack_32 := mask_fastunpack_32
|}.

(** * Constants and reads *)

Lemma BlockSize_nat : Z.to_nat BlockSize = 128%nat.
Proof. reflexivity. Qed.

Lemma blocksizeinbits_eq : blocksizeinbits = 8.
Proof. reflexivity. Qed.

Lemma firstexceptmask_eq : firstexceptmask = Z.ones 8.
Proof. reflexivity. Qed.

Lemma maxsize_eq : maxsize = 2 ^ 23.
Proof. reflexivity. Qed.

Lemma u32_small (z : Z) : 0 <= z < 2 ^ 32 → u32 z = z.
Proof. intros. unfold u32. apply Z.mod_small. lia. Qed.

Lemma maxgap_eq (b : Z) : 0 <= b < 32 → u32 (Z.shiftl 1 b) = 2 ^ b.
Proof.
  intros Hb. rewrite Z.shiftl_1_l. apply u32_small.
  split; [lia|]. apply Z.pow_lt_mono_r; lia.
Qed.

Lemma read_lookup (l : list Z) (n : nat) (v : Z) :
  l !! n = Some v → read l (Z.of_nat n) = Ok v.
Proof.
  intros Hv. unfold read.
  pose proof (lookup_lt_Some _ _ _ Hv).
  destruct (Z.leb_spec 0 (Z.of_nat n)); [|lia].
  destruct (Z.ltb_spec (Z.of_nat n) (Z.of_nat (length l))); [|lia].
  simpl. rewrite Nat2Z.id. f_equal. by apply list_lookup_total_correct.
Qed.


(** * Packing and unpacking a block *)

Section Blocks.
Context `{BitPacking}.

Lemma group_length (k : nat) (source : list Z) :
  (k * 32 + 32 ≤ length source)%nat → length (group k source) = 32%nat.
Proof. intros. unfold group. rewrite length_take, length_drop. lia. Qed.

Lemma group_lookup (k r : nat) (source : list Z) :
  (r < 32)%nat → group k source !! r = source !! (k * 32 + r)%nat.
Proof.
  intros. unfold group. rewrite lookup_take.
  case_decide; [|lia]. by rewrite lookup_drop.
Qed.

Lemma packblock_groups (source : list Z) (bit : Z) :
  packblock source bit =
  fastpack (group 0 source) bit ++ fastpack (group 1 source) bit ++
  fastpack (group 2 source) bit ++ fastpack (group 3 source) bit.
Proof.
  unfold packblock, pack_offsets, group. simpl.
  rewrite <- !(assoc_L (++)). reflexivity.
Qed.

Lemma unpackblock_groups (source : list Z) (bit : Z) :
  unpackblock source bit =
  fastunpack source bit ++
  fastunpack (drop (Z.to_nat bit) source) bit ++
  fastunpack (drop (Z.to_nat bit) (drop (Z.to_nat bit) source)) bit ++
  fastunpack (drop (Z.to_nat bit) (drop (Z.to_nat bit) (drop (Z.to_nat bit) source))) bit.
Proof.
  unfold unpackblock, pack_offsets. simpl.
  rewrite <- !(assoc_L (++)). reflexivity.
Qed.

Lemma packblock_length (source : list Z) (bit : Z) :
  0 <= bit <= 32 → (128 ≤ length source)%nat →
  length (packblock source bit) = (4 * Z.to_nat bit)%nat.
Proof.
  intros Hb Hlen. rewrite packblock_groups, !length_app.
  rewrite !fastpack_length by (try apply group_length; lia). lia.
Qed.

Lemma packblock_take (source : list Z) (bit : Z) :
  packblock (take 128 source) bit = packblock source bit.
Proof.
  rewrite !packblock_groups. unfold group.
  by rewrite !take_drop_commute, !take_take.
Qed.

Lemma unpackblock_length (source : list Z) (bit : Z) :
  length (unpackblock source bit) = 128%nat.
Proof. rewrite unpackblock_groups, !length_app, !fastunpack_length. lia. Qed.

(** A value that fits in [bit] bits survives packing and unpacking the
    block, whatever the other values of the block are. *)
Lemma unpackblock_packblock (source rest : list Z) (bit : Z) (j : nat) (v : Z) :
  0 <= bit <= 32 → (128 ≤ length source)%nat → (j < 128)%nat →
  source !! j = Some v → 0 <= v < 2 ^ bit →
  unpackblock (packblock source bit ++ rest) bit !! j = Some v.
Proof.
  intros Hb Hlen Hj Hv Hrange.
  rewrite unpackblock_groups, packblock_groups.
  set (p0 := fastpack (group 0 source) bit).
  set (p1 := fastpack (group 1 source) bit).
  set (p2 := fastpack (group 2 source) bit).
  set (p3 := fastpack (group 3 source) bit).
  assert (length p0 = Z.to_nat bit) as L0 by (apply fastpack_length; [lia | apply group_length; lia]).
  assert (length p1 = Z.to_nat bit) as L1 by (apply fastpack_length; [lia | apply group_length; lia]).
  assert (length p2 = Z.to_nat bit) as L2 by (apply fastpack_length; [lia | apply group_length; lia]).
  rewrite <- !(assoc_L (++)).
  assert (∀ tail, drop (Z.to_nat bit) (p0 ++ tail) = tail) as E0
    by (intros; rewrite <- L0; apply drop_app_length).
  assert (∀ tail, drop (Z.to_nat bit) (p1 ++ tail) = tail) as E1
    by (intros; rewrite <- L1; apply drop_app_length).
  assert (∀ tail, drop (Z.to_nat bit) (p2 ++ tail) = tail) as E2
    by (intros; rewrite <- L2; apply drop_app_length).
  rewrite !E0, !E1, !E2.
  assert (∀ k r, (k < 4)%nat → (r < 32)%nat → j = (k * 32 + r)%nat →
            ∀ tail, fastunpack (fastpack (group k source) bit ++ tail) bit !! r = Some v)
    as Hgroup.
  { intros k r Hk Hr -> tail. apply fastunpack_fastpack; [lia | | | lia].
    - apply group_length. lia.
    - by rewrite group_lookup. }
  destruct (decide (j < 32)%nat).
  { rewrite lookup_app_l by (rewrite fastunpack_length; lia).
    apply (Hgroup 0%nat j); lia. }
  rewrite lookup_app_r by (rewrite fastunpack_length; lia).
  rewrite fastunpack_length.
  destruct (decide (j < 64)%nat).
  { rewrite lookup_app_l by (rewrite fastunpack_length; lia).
    apply (Hgroup 1%nat (j - 32)%nat); lia. }
  rewrite lookup_app_r by (rewrite fastunpack_length; lia).
  rewrite fastunpack_length.
  destruct (decide (j < 96)%nat).
  { rewrite lookup_app_l by (rewrite fastunpack_length; lia).
    apply (Hgroup 2%nat (j - 32 - 32)%nat); lia. }
  rewrite lookup_app_r by (rewrite fastunpack_length; lia).
  rewrite fastunpack_length.
  apply (Hgroup 3%nat (j - 32 - 32 - 32)%nat); lia.
Qed.

(** At width 32 the block is stored as it is and unpacking copies it. *)
Lemma unpackblock_raw (blk rest : list Z) :
  length blk = 128%nat → Forall is_u32 blk →
  unpackblock (blk ++ rest) 32 = blk.
Proof.
  intros Hlen Hu.
  assert (∀ k, (k < 4)%nat → length (group k blk) = 32%nat ∧ Forall is_u32 (group k blk))
    as Hg.
  { intros k Hk. split; [apply group_length; lia|].
    unfold group. by apply Forall_take, Forall_drop. }
  assert (blk = group 0 blk ++ group 1 blk ++ group 2 blk ++ group 3 blk) as Hsplit.
  { unfold group.
    rewrite <- (take_drop 32 blk) at 1. f_equal.
    rewrite <- (take_drop 32 (drop 32 blk)) at 1. rewrite drop_drop. f_equal.
    rewrite <- (take_drop 32 (drop 64 blk)) at 1. rewrite drop_drop. f_equal.
    symmetry. apply take_ge. rewrite length_drop. lia. }
  rewrite unpackblock_groups. rewrite Hsplit at 1 2 3 4.
  replace (Z.to_nat 32) with 32%nat by lia.
  rewrite <- !(assoc_L (++)).
  assert (∀ k tail, (k < 4)%nat → drop 32 (group k blk ++ tail) = tail) as E.
  { intros k tail Hk. rewrite <- (proj1 (Hg k Hk)) at 1. apply drop_app_length. }
  rewrite !E by lia.
  rewrite !fastunpack_32 by (apply Hg; lia).
  by rewrite <- Hsplit.
Qed.

End Blocks.

(** * The scan for exceptions *)

Lemma scan_prefix (inp : list Z) (maxgap : Z) (miss0 : list nat) (n : nat) :
  (n ≤ length miss0)%nat →
  ((foldl (scan_step inp maxgap) (miss0, 0%nat) (seq 0 n)).2 ≤ n)%nat ∧
  length (foldl (scan_step inp maxgap) (miss0, 0%nat) (seq 0 n)).1 = length miss0 ∧
  take (foldl (scan_step inp maxgap) (miss0, 0%nat) (seq 0 n)).2
       (foldl (scan_step inp maxgap) (miss0, 0%nat) (seq 0 n)).1 =
  filter (λ k, maxgap <= inp !!! k) (seq 0 n).
Proof.
  induction n as [|n IH]; intros Hn; [done|].
  rewrite seq_S, foldl_app, filter_app. simpl.
  destruct (IH ltac:(lia)) as (Hc & Hl & Ht).
  set (st := foldl (scan_step inp maxgap) (miss0, 0%nat) (seq 0 n)) in *.
  rewrite length_insert, filter_cons, filter_nil.
  destruct (Z.leb_spec maxgap (inp !!! n)); case_decide; try lia.
  - split; [lia|]. split; [done|].
    replace (st.2 + 1)%nat with (S st.2) by lia.
    rewrite (take_S_r _ _ n) by (apply list_lookup_insert_eq; lia).
    rewrite take_insert_ge by lia. by rewrite Ht.
  - split; [lia|]. split; [done|].
    rewrite Nat.add_0_r, take_insert_ge by lia.
    by rewrite Ht, app_nil_r.
Qed.

Lemma scan_exceptions_spec (inp : list Z) (maxgap : Z) (miss0 : list nat) :
  length miss0 = 128%nat →
  length (scan_exceptions inp maxgap miss0).1 = 128%nat ∧
  (scan_exceptions inp maxgap miss0).2 = length (exception_positions inp maxgap) ∧
  take (scan_exceptions inp maxgap miss0).2 (scan_exceptions inp maxgap miss0).1 =
    exception_positions inp maxgap.
Proof.
  intros Hlen. unfold scan_exceptions, exception_positions.
  rewrite BlockSize_nat.
  assert (128 ≤ length miss0)%nat as Hle by lia.
  revert Hle Hlen. generalize 128%nat as n. intros n Hle Hlen.
  destruct (scan_prefix inp maxgap miss0 n Hle) as (Hc & Hl & Ht).
  split; [lia|]. split; [|done].
  rewrite <- Ht, length_take. lia.
Qed.

Lemma exception_positions_sorted (inp : list Z) (maxgap : Z) :
  StronglySorted lt (exception_positions inp maxgap).
Proof.
  unfold exception_positions. generalize (Z.to_nat BlockSize) as n.
  generalize 0%nat as a. intros a n. revert a.
  induction n as [|n IH]; intros a; simpl; [constructor|].
  rewrite filter_cons. case_decide; [|apply IH].
  constructor; [apply IH|].
  apply Forall_forall. intros x [_ Hx%elem_of_seq]%list_elem_of_filter. lia.
Qed.

Lemma exception_positions_elem (inp : list Z) (maxgap : Z) (k : nat) :
  k ∈ exception_positions inp maxgap ↔ (k < 128)%nat ∧ maxgap <= inp !!! k.
Proof.
  unfold exception_positions. rewrite list_elem_of_filter, elem_of_seq.
  rewrite BlockSize_nat. lia.
Qed.

Lemma filter_ext_Forall {A : Type} (P1 P2 : A → Prop)
    `{!∀ x, Decision (P1 x), !∀ x, Decision (P2 x)} (l : list A) :
  Forall (λ x, P1 x ↔ P2 x) l → filter P1 l = filter P2 l.
Proof.
  induction 1 as [|a l Ha _ IH]; [done|].
  rewrite !filter_cons, IH. by repeat case_decide; try tauto.
Qed.

Lemma exception_positions_take (inp : list Z) (maxgap : Z) :
  exception_positions (take 128 inp) maxgap = exception_positions inp maxgap.
Proof.
  unfold exception_positions. rewrite BlockSize_nat.
  apply filter_ext_Forall. apply Forall_forall. intros k Hk%elem_of_seq.
  rewrite !list_lookup_total_alt, lookup_take. by case_decide; [|lia].
Qed.

Lemma scan_exceptions_take (inp : list Z) (maxgap : Z) (miss0 : list nat) :
  scan_exceptions (take 128 inp) maxgap miss0 = scan_exceptions inp maxgap miss0.
Proof.
  unfold scan_exceptions. rewrite BlockSize_nat.
  generalize (miss0, 0%nat) as st.
  assert (Forall (λ k, k < 128)%nat (seq 0 128)) as Hall
    by (apply Forall_forall; intros k Hk%elem_of_seq; lia).
  revert Hall. generalize (seq 0 128) as ks.
  induction ks as [|k ks IH]; intros Hall st; simpl; [done|].
  inversion Hall as [|? ? Hk Hks]; subst.
  rewrite <- IH by done. f_equal. unfold scan_step.
  rewrite !list_lookup_total_alt, lookup_take. by case_decide; [|lia].
Qed.

(** A loop over the indices of [miss] is a loop over its entries. *)
Lemma foldl_indices {A : Type} (f : A → nat → A) (m : list nat) (a : A)
    (start n : nat) :
  (start + n ≤ length m)%nat →
  foldl (λ st i, f st (m !!! i)) a (seq start n) = foldl f a (take n (drop start m)).
Proof.
  revert a start. induction n as [|n IH]; intros a start Hn; simpl; [done|].
  destruct (lookup_lt_is_Some_2 m start ltac:(lia)) as [x Hx].
  rewrite (drop_S _ _ _ Hx). simpl.
  rewrite (list_lookup_total_correct _ _ _ Hx).
  apply IH. lia.
Qed.

(** * The chain of gap codes *)

Section Patching.
Variables (orig : list Z) (maxgap : Z) (exc0 : list Z).
Hypothesis maxgap_range : 1 <= maxgap < 2 ^ 32.

Abbreviation chained := (links orig maxgap exc0).

Lemma links_start (first : nat) :
  (first < length orig)%nat →
  chained [first] {| exceptions := exc0 ++ [orig !!! first]; copy := orig; prev := first |}.
Proof.
  intros Hf.
  split; simpl; try done; try (by repeat constructor); by intros [|k] p q Hp Hq.
Qed.

Lemma links_prev_elem (chain : list nat) (st : patching) :
  chained chain st → prev st ∈ chain.
Proof.
  intros L. destruct (proj1 (last_Some _ _) (links_last _ _ _ _ _ L)) as [l' ->].
  apply elem_of_app. right. by apply list_elem_of_singleton.
Qed.

Lemma links_fresh (chain : list nat) (st : patching) (q : nat) :
  chained chain st → (prev st < q)%nat → q ∉ chain.
Proof.
  intros L Hq Hin.
  pose proof (proj1 (Forall_forall _ _) (links_below _ _ _ _ _ L) _ Hin). simpl in *. lia.
Qed.

(** Linking a later position extends the chain. *)
Lemma links_link (chain : list nat) (st : patching) (q : nat) :
  chained chain st → (prev st < q < length orig)%nat →
  Z.of_nat q - Z.of_nat (prev st) <= maxgap →
  chained (chain ++ [q]) (link q st).
Proof.
  intros L Hq Hgap.
  pose proof (links_fresh _ _ q L ltac:(lia)) as Hfresh.
  pose proof (links_prev_elem _ _ L) as Hprev.
  split; simpl.
  - apply last_snoc.
  - apply StronglySorted_app_2; [|apply L|repeat constructor].
    intros x1 x2 Hx1 ->%list_elem_of_singleton.
    pose proof (proj1 (Forall_forall _ _) (links_below _ _ _ _ _ L) _ Hx1). simpl in *. lia.
  - apply Forall_app. split; [|repeat constructor].
    eapply Forall_impl; [apply L|]. simpl. lia.
  - lia.
  - rewrite (links_exceptions _ _ _ _ _ L), fmap_app, (assoc_L (++)). simpl.
    do 2 f_equal. rewrite !list_lookup_total_alt.
    by rewrite (links_untouched _ _ _ _ _ L q) by (by left).
  - rewrite length_insert. apply L.
  - intros j Hj.
    assert (j ≠ prev st ∧ j ∉ chain) as [Hne Hnot].
    { destruct Hj as [Hj| ->].
      - apply not_elem_of_app in Hj as [Hj _]. split; [|done]. by intros ->.
      - split; [lia|done]. }
    rewrite list_lookup_insert_ne by done.
    apply (links_untouched _ _ _ _ _ L). by left.
  - intros k p q' Hp Hq'.
    destruct (decide (S k < length chain)%nat) as [Hk|Hk].
    + rewrite lookup_app_l in Hp by lia. rewrite lookup_app_l in Hq' by lia.
      destruct (links_gaps _ _ _ _ _ L k p q' Hp Hq') as (Hlt & Hle & Hcode).
      split; [done|]. split; [done|].
      pose proof (proj1 (Forall_forall _ _) (links_below _ _ _ _ _ L) q'
                    (list_elem_of_lookup_2 _ _ _ Hq')). simpl in *.
      rewrite list_lookup_insert_ne by lia. done.
    + pose proof (lookup_lt_Some _ _ _ Hq') as Hlen.
      rewrite length_app in Hlen. simpl in Hlen.
      assert (S k = length chain) as Hk' by lia.
      rewrite lookup_app_l in Hp by lia.
      rewrite lookup_app_r in Hq' by lia.
      replace (S k - length chain)%nat with 0%nat in Hq' by lia.
      injection Hq' as <-.
      pose proof (links_last _ _ _ _ _ L) as Hlast. rewrite last_lookup in Hlast.
      replace (Init.Nat.pred (length chain)) with k in Hlast by lia.
      rewrite Hlast in Hp. injection Hp as <-.
      split; [lia|]. split; [lia|].
      rewrite list_lookup_insert_eq by (rewrite (links_length _ _ _ _ _ L); apply L).
      f_equal. apply u32_small. lia.
Qed.

(** One round of the [while] loop links the compulsory position. *)
Lemma compulsory_round (rounds : nat) (cur : nat) (st : patching) :
  maxgap + Z.of_nat (prev st) < Z.of_nat cur →
  compulsory (S rounds) maxgap cur st =
  compulsory rounds maxgap cur (link (prev st + Z.to_nat maxgap)%nat st).
Proof.
  intros Hc. simpl.
  destruct (Z.ltb_spec (maxgap + Z.of_nat (prev st)) (Z.of_nat cur)); [|lia].
  unfold link. do 4 f_equal. lia.
Qed.

Lemma compulsory_exit (rounds : nat) (cur : nat) (st : patching) :
  Z.of_nat cur <= maxgap + Z.of_nat (prev st) →
  compulsory rounds maxgap cur st = st.
Proof.
  intros Hc. destruct rounds; simpl; [done|].
  by destruct (Z.ltb_spec (maxgap + Z.of_nat (prev st)) (Z.of_nat cur)); [lia|].
Qed.

(** The [while] loop ends within the rounds given to it, on a chain whose
    last link is at most [maxgap] before [cur]. *)
Lemma compulsory_links (rounds : nat) (cur : nat) (chain : list nat) (st : patching) :
  chained chain st → (prev st < cur < length orig)%nat →
  (cur - prev st ≤ rounds)%nat →
  ∃ extra,
    chained (chain ++ extra) (compulsory rounds maxgap cur st) ∧
    (prev (compulsory rounds maxgap cur st) < cur)%nat ∧
    Z.of_nat cur <= maxgap + Z.of_nat (prev (compulsory rounds maxgap cur st)).
Proof.
  revert chain st. induction rounds as [|rounds IH]; intros chain st L Hcur Hr; [lia|].
  destruct (Z.lt_ge_cases (maxgap + Z.of_nat (prev st)) (Z.of_nat cur)) as [Hc|Hc].
  - rewrite compulsory_round by done.
    set (q := (prev st + Z.to_nat maxgap)%nat).
    assert (chained (chain ++ [q]) (link q st)) as L'
      by (apply links_link; [done | lia | lia]).
    destruct (IH _ _ L') as (extra & L'' & Hp & Hq); simpl; [lia | lia |].
    exists (q :: extra). rewrite (cons_middle q), (assoc_L (++)). auto.
  - rewrite compulsory_exit by lia.
    exists []. rewrite app_nil_r. split; [done|]. lia.
Qed.

(** Both loop bodies link [cur] after the chain built so far. *)
Lemma patch_saturating_links (misses : list nat) (i : nat) (chain : list nat)
    (st : patching) :
  length orig = 128%nat →
  chained chain st → (prev st < misses !!! i < length orig)%nat →
  ∃ extra,
    chained (chain ++ extra ++ [misses !!! i]) (patch_saturating maxgap misses st i).
Proof.
  intros Hlen L Hcur. unfold patch_saturating.
  destruct (compulsory_links (Z.to_nat BlockSize) (misses !!! i) chain st L Hcur)
    as (extra & L' & Hp & Hq); [rewrite BlockSize_nat; lia|].
  exists extra. rewrite (assoc_L (++)). apply links_link; [done | lia | lia].
Qed.

Lemma patch_plain_links (misses : list nat) (i : nat) (chain : list nat)
    (st : patching) :
  Z.of_nat (length orig) <= maxgap →
  chained chain st → (prev st < misses !!! i < length orig)%nat →
  chained (chain ++ [misses !!! i]) (patch_plain misses st i).
Proof.
  intros Hlen L Hcur. unfold patch_plain. apply links_link; [done | lia | lia].
Qed.

End Patching.

Lemma sorted_lookup_lt (l : list nat) (i j a b : nat) :
  StronglySorted lt l → l !! i = Some a → l !! j = Some b → (i < j)%nat →
  (a < b)%nat.
Proof.
  intros Hs. revert i j. induction Hs as [|x l Hs IH Hx]; intros i j Ha Hb Hij.
  - done.
  - destruct j as [|j]; [lia|]. simpl in Hb.
    destruct i as [|i]; simpl in Ha.
    + injection Ha as <-.
      apply (proj1 (Forall_forall _ _) Hx). by eapply list_elem_of_lookup_2.
    + apply (IH i j); [done | done | lia].
Qed.

Lemma sorted_below_length (l : list nat) (a n : nat) :
  StronglySorted lt l → Forall (λ p, a ≤ p < n)%nat l → (length l ≤ n - a)%nat.
Proof.
  intros Hs. revert a. induction Hs as [|x l Hs IH Hx]; intros a Hall; simpl; [lia|].
  inversion Hall as [|? ? Hxa Hrest]; subst.
  assert (Forall (λ p, S x ≤ p < n)%nat l) as Hl.
  { apply Forall_forall. intros p Hp.
    pose proof (proj1 (Forall_forall _ _) Hx p Hp).
    pose proof (proj1 (Forall_forall _ _) Hrest p Hp). simpl in *. lia. }
  specialize (IH _ Hl). lia.
Qed.

(** * The [for] loops over the exceptions *)

Section PatchLoop.
Variables (orig : list Z) (maxgap : Z) (exc0 : list Z).
Variables (misses : list nat) (exceptcounter : nat).
Variable step : patching → nat → patching.
Hypothesis misses_sorted : StronglySorted lt (take exceptcounter misses).
Hypothesis misses_bound : Forall (λ p, p < length orig)%nat (take exceptcounter misses).
Hypothesis counter_bound : (exceptcounter ≤ length misses)%nat.
Hypothesis step_links : ∀ chain st i,
  links orig maxgap exc0 chain st → (prev st < misses !!! i < length orig)%nat →
  ∃ extra, links orig maxgap exc0 (chain ++ extra ++ [misses !!! i]) (step st i).

Lemma misses_lookup (i : nat) :
  (i < exceptcounter)%nat → take exceptcounter misses !! i = Some (misses !!! i).
Proof.
  intros Hi. rewrite lookup_take. case_decide; [|lia].
  apply list_lookup_lookup_total_lt. lia.
Qed.

Lemma loop_links (n a : nat) (chain : list nat) (st : patching) :
  links orig maxgap exc0 chain st →
  (1 ≤ a)%nat → (a + n ≤ exceptcounter)%nat →
  prev st = misses !!! (a - 1)%nat →
  ∃ extra,
    links orig maxgap exc0 (chain ++ extra) (foldl step st (seq a n)) ∧
    prev (foldl step st (seq a n)) = misses !!! (a + n - 1)%nat ∧
    ∀ i, (a ≤ i < a + n)%nat → misses !!! i ∈ chain ++ extra.
Proof.
  revert a chain st. induction n as [|n IH]; intros a chain st L Ha Hn Hprev.
  - exists []. rewrite app_nil_r. simpl. split; [done|].
    split; [rewrite Hprev; f_equal; lia | lia].
  - simpl.
    assert (prev st < misses !!! a < length orig)%nat as Hcur.
    { split.
      - rewrite Hprev.
        apply (sorted_lookup_lt (take exceptcounter misses) (a - 1) a);
          [done | apply misses_lookup; lia | apply misses_lookup; lia | lia].
      - apply (proj1 (Forall_forall _ _) misses_bound).
        eapply list_elem_of_lookup_2. apply misses_lookup. lia. }
    destruct (step_links chain st a L Hcur) as (e1 & L1).
    assert (prev (step st a) = misses !!! a) as Hprev1.
    { pose proof (links_last _ _ _ _ _ L1) as Hlast.
      rewrite (assoc_L (++)), last_snoc in Hlast. by injection Hlast. }
    destruct (IH (S a) _ _ L1) as (e2 & L2 & Hp2 & Hin2); [lia | lia | |].
    { rewrite Hprev1. f_equal. lia. }
    exists (e1 ++ [misses !!! a] ++ e2).
    rewrite !(assoc_L (++)) in *. split; [done|].
    split; [rewrite Hp2; f_equal; lia|].
    intros i Hi. destruct (decide (i = a)) as [->|Hne].
    + rewrite !elem_of_app. left. right. by apply list_elem_of_singleton.
    + apply Hin2. lia.
Qed.

End PatchLoop.

(** * What the block encoder returns *)

Section Compress.
Context `{BitPacking}.

(** The encoder reads the first [BlockSize] values at [in] only. *)
Lemma compressblockPFOR_take (c : PFor) (inp : list Z) (b : Z) (exc0 : list Z) :
  compressblockPFOR c (take 128 inp) b exc0 = compressblockPFOR c inp b exc0.
Proof.
  unfold compressblockPFOR. rewrite BlockSize_nat.
  by rewrite take_idemp, scan_exceptions_take, packblock_take.
Qed.

Lemma compressblockPFOR_raw (c : PFor) (blk : list Z) (exc0 : list Z) :
  length blk = 128%nat →
  compressblockPFOR c blk 32 exc0 =
  {| firstexcept := 128; words := blk; excepts := exc0; scratch := c |}.
Proof.
  intros Hlen. unfold compressblockPFOR. cbn [Z.eqb Pos.eqb].
  by rewrite BlockSize_nat, take_ge by lia.
Qed.

Lemma compressblockPFOR_clean (c : PFor) (blk : list Z) (b : Z) (exc0 : list Z) :
  length (miss c) = 128%nat → 0 <= b < 32 →
  exception_positions blk (2 ^ b) = [] →
  compressblockPFOR c blk b exc0 =
  {| firstexcept := 128; words := packblock blk b; excepts := exc0;
     scratch := {| codedcopy := codedcopy c;
                   miss := (scan_exceptions blk (2 ^ b) (miss c)).1 |} |}.
Proof.
  intros Hmiss Hb Hnone. unfold compressblockPFOR.
  destruct (Z.eqb_spec b 32); [lia|].
  rewrite maxgap_eq by done.
  destruct (scan_exceptions_spec blk (2 ^ b) (miss c) Hmiss) as (_ & Hc & _).
  rewrite Hc, Hnone. cbn [length Nat.eqb]. by rewrite BlockSize_nat.
Qed.

(** With exceptions, the encoder packs a copy that holds a chain from the
    first exception to the last through every exception of the block. *)
Lemma compressblockPFOR_patched (c : PFor) (blk : list Z) (b : Z)
    (exc0 : list Z) (first : nat) :
  length (miss c) = 128%nat → length blk = 128%nat → 0 <= b < 32 →
  head (exception_positions blk (2 ^ b)) = Some first →
  ∃ chain st,
    links blk (2 ^ b) exc0 chain st ∧
    head chain = Some first ∧
    last (exception_positions blk (2 ^ b)) = Some (prev st) ∧
    (∀ p, p ∈ exception_positions blk (2 ^ b) → p ∈ chain) ∧
    compressblockPFOR c blk b exc0 =
    {| firstexcept := first; words := packblock (copy st) b;
       excepts := exceptions st;
       scratch := {| codedcopy := copy st;
                     miss := (scan_exceptions blk (2 ^ b) (miss c)).1 |} |}.
Proof.
  intros Hmiss Hlen Hb Hfirst.
  assert (1 <= 2 ^ b < 2 ^ 32) as Hgap.
  { split; [lia|]. apply Z.pow_lt_mono_r; lia. }
  unfold compressblockPFOR.
  destruct (Z.eqb_spec b 32) as [|_]; [lia|].
  rewrite maxgap_eq by done.
  destruct (scan_exceptions_spec blk (2 ^ b) (miss c) Hmiss) as (Hl & Hc & Ht).
  set (misses := (scan_exceptions blk (2 ^ b) (miss c)).1) in *.
  set (n := (scan_exceptions blk (2 ^ b) (miss c)).2) in *.
  set (P := exception_positions blk (2 ^ b)) in *.
  clearbody misses n.
  assert (n ≠ 0)%nat as Hn by (rewrite Hc; by destruct P).
  destruct (Nat.eqb_spec n 0) as [|_]; [done|].
  rewrite BlockSize_nat, take_ge by lia.
  assert (n ≤ 128)%nat as Hn128.
  { pose proof (length_take misses n) as Hmin. rewrite Ht in Hmin. lia. }
  assert (∀ i, (i < n)%nat → P !! i = Some (misses !!! i)) as HP.
  { intros i Hi. rewrite <- Ht, lookup_take. case_decide; [|lia].
    apply list_lookup_lookup_total_lt. lia. }
  assert (Forall (λ p, p < length blk)%nat P) as Hbound.
  { apply Forall_forall. intros p Hp%exception_positions_elem. lia. }
  assert (misses !!! 0%nat = first) as Hm0.
  { rewrite head_lookup, HP in Hfirst by lia. by injection Hfirst. }
  rewrite Hm0.
  assert (first < length blk)%nat as Hfb.
  { apply (proj1 (Forall_forall _ _) Hbound). rewrite head_lookup in Hfirst.
    by eapply list_elem_of_lookup_2. }
  pose proof (links_start blk (2 ^ b) exc0 first Hfb) as L0.
  set (st0 := {| copy := blk; prev := first;
                 exceptions := exc0 ++ [blk !!! first] |}) in *.
  assert (prev st0 = misses !!! (1 - 1)%nat) as Hp0
    by (unfold st0; cbn [prev Nat.sub]; by rewrite Hm0).
  assert (∃ extra,
    let st := if 2 ^ b <? BlockSize
              then foldl (patch_saturating (2 ^ b) misses) st0 (seq 1 (n - 1))
              else foldl (patch_plain misses) st0 (seq 1 (n - 1)) in
    links blk (2 ^ b) exc0 ([first] ++ extra) st ∧
    prev st = misses !!! (1 + (n - 1) - 1)%nat ∧
    ∀ i, (1 ≤ i < 1 + (n - 1))%nat → misses !!! i ∈ [first] ++ extra)
    as (extra & L & Hprev & Hin).
  { destruct (Z.ltb_spec (2 ^ b) BlockSize) as [Hsat|Hplain].
    - apply (loop_links blk (2 ^ b) exc0 misses n); try done; try lia.
      + rewrite Ht. apply exception_positions_sorted.
      + by rewrite Ht.
      + intros chain st i. by apply patch_saturating_links.
    - apply (loop_links blk (2 ^ b) exc0 misses n); try done; try lia.
      + rewrite Ht. apply exception_positions_sorted.
      + by rewrite Ht.
      + intros chain st i L Hcur. exists [].
        apply patch_plain_links; [done | | done | done].
        rewrite Hlen. change BlockSize with 128 in Hplain. lia. }
  cbv zeta in L, Hprev.
  eexists _, _. split; [exact L|].
  split; [done|]. split.
  - rewrite last_lookup, Hprev, <- Hc, HP by lia. f_equal. f_equal. lia.
  - split; [|done].
    intros p [i Hi]%list_elem_of_lookup_1.
    pose proof (lookup_lt_Some _ _ _ Hi) as Hlt. rewrite <- Hc in Hlt.
    rewrite HP in Hi by done. injection Hi as <-.
    destruct (decide (i = 0)%nat) as [->|Hi0].
    + rewrite Hm0. apply elem_of_app. left. by apply list_elem_of_singleton.
    + apply Hin. lia.
Qed.

End Compress.

(** * The block decoder undoes the block encoder *)

Lemma read_at (l : list Z) (off v : Z) :
  0 <= off → l !! Z.to_nat off = Some v → read l off = Ok v.
Proof.
  intros Hoff Hv. rewrite <- (Z2Nat.id off) by done. by apply read_lookup.
Qed.

Lemma bind_Ok {A B : Type} (a : A) (k : A → result B) : (Ok a ≫= k) = k a.
Proof. reflexivity. Qed.

(** Walking a chain puts the emitted values back. *)
Lemma chain_walk_restores (orig stream : list Z) (rest : list nat) :
  ∀ (p : nat) (out : list Z) (i : Z),
    length out = length orig →
    StronglySorted lt (p :: rest) →
    Forall (λ q, q < length orig)%nat (p :: rest) →
    (∀ j, j ∉ p :: rest → out !! j = orig !! j) →
    (∀ k x y, (p :: rest) !! k = Some x → (p :: rest) !! S k = Some y →
       out !! x = Some (Z.of_nat y - Z.of_nat x - 1)) →
    0 <= i →
    (∀ k x, (p :: rest) !! k = Some x →
       stream !! Z.to_nat (i + Z.of_nat k) = Some (orig !!! x)) →
    chain_walk (S (length rest)) stream i out (Z.of_nat p) = Ok orig.
Proof.
  induction rest as [|q rest IH];
    intros p out i Hlen Hsorted Hbound Hout Hgaps Hi Hstream.
  - inversion Hbound as [|? ? Hp _]; subst.
    destruct (lookup_lt_is_Some_2 out p ltac:(lia)) as [g Hg].
    cbn [chain_walk length].
    rewrite (read_lookup _ _ _ Hg), bind_Ok.
    rewrite (read_at stream i (orig !!! p)), bind_Ok; [|done|].
    2:{ specialize (Hstream 0%nat p eq_refl). by rewrite Z.add_0_r in Hstream. }
    f_equal. rewrite Nat2Z.id. apply list_eq. intros j.
    destruct (decide (j = p)) as [->|Hne].
    + rewrite list_lookup_insert_eq by lia.
      symmetry. apply list_lookup_lookup_total_lt. lia.
    + rewrite list_lookup_insert_ne by done.
      apply Hout. by intros ->%list_elem_of_singleton.
  - inversion Hbound as [|? ? Hp Hbound']; subst.
    inversion Hsorted as [|? ? Hsorted' Hlt]; subst.
    pose proof (Hgaps 0%nat p q eq_refl eq_refl) as Hg.
    cbn [chain_walk length].
    rewrite (read_lookup _ _ _ Hg), bind_Ok.
    rewrite (read_at stream i (orig !!! p)), bind_Ok; [|done|].
    2:{ specialize (Hstream 0%nat p eq_refl). by rewrite Z.add_0_r in Hstream. }
    rewrite Nat2Z.id.
    replace (Z.of_nat p + (Z.of_nat q - Z.of_nat p - 1) + 1) with (Z.of_nat q) by lia.
    apply IH; try done.
    + by rewrite length_insert.
    + intros j Hj. destruct (decide (j = p)) as [->|Hne].
      * rewrite list_lookup_insert_eq by lia.
        symmetry. apply list_lookup_lookup_total_lt. lia.
      * rewrite list_lookup_insert_ne by done.
        apply Hout. intros [->|Hin]%elem_of_cons; done.
    + intros k x y Hx Hy.
      assert (p < x)%nat as Hpx.
      { apply (proj1 (Forall_forall _ _) Hlt). by eapply list_elem_of_lookup_2. }
      rewrite list_lookup_insert_ne by lia.
      by apply (Hgaps (S k)).
    + lia.
    + intros k x Hx. specialize (Hstream (S k) x Hx).
      by replace (i + 1 + Z.of_nat k) with (i + Z.of_nat (S k)) by lia.
Qed.

Section BlockRoundTrip.
Context `{BitPacking}.

(** Decoding a block from the words and the exceptions its encoder wrote:
    the words may be followed by others ([rest]), the exceptions stand in
    [stream] from cursor [base] on, after those of earlier blocks
    ([exc0]). *)
Lemma uncompress_compress (c : PFor) (blk : list Z) (b : Z) (exc0 rest stream : list Z)
    (base : Z) :
  length (miss c) = 128%nat → length blk = 128%nat → Forall is_u32 blk →
  0 <= b <= 32 → 0 <= base →
  (∀ k v, excepts (compressblockPFOR c blk b exc0) !! k = Some v →
     stream !! Z.to_nat (base + Z.of_nat k) = Some v) →
  uncompressblockPFOR (words (compressblockPFOR c blk b exc0) ++ rest) b stream
    (base + Z.of_nat (length exc0))
    (base + Z.of_nat (length (excepts (compressblockPFOR c blk b exc0))))
    (Z.of_nat (firstexcept (compressblockPFOR c blk b exc0))) =
  Ok (blk, base + Z.of_nat (length (excepts (compressblockPFOR c blk b exc0)))).
Proof.
  intros Hmiss Hlen Hu Hb Hbase Hstream.
  unfold uncompressblockPFOR.
  destruct (decide (b = 32)) as [->|Hb32].
  { rewrite compressblockPFOR_raw in * by done. cbn [words excepts firstexcept].
    rewrite Z.ltb_irrefl, Z.sub_diag.
    change (Z.to_nat 0) with 0%nat. cbn [chain_walk].
    by rewrite bind_Ok, unpackblock_raw. }
  assert (∀ j v, blk !! j = Some v → 0 <= v) as Hnonneg.
  { intros j v Hv. by destruct (Forall_lookup_1 _ _ _ _ Hu Hv). }
  destruct (exception_positions blk (2 ^ b)) as [|first P'] eqn:HP.
  { rewrite compressblockPFOR_clean in * by (done || lia).
    cbn [words excepts firstexcept].
    rewrite Z.ltb_irrefl, Z.sub_diag.
    change (Z.to_nat 0) with 0%nat. cbn [chain_walk].
    rewrite bind_Ok. do 2 f_equal.
    apply list_eq. intros j.
    destruct (decide (j < 128)%nat) as [Hj|Hj].
    - destruct (lookup_lt_is_Some_2 blk j ltac:(lia)) as [v Hv].
      rewrite Hv. apply unpackblock_packblock; try done; try lia.
      split; [by eapply Hnonneg|].
      destruct (Z.lt_ge_cases v (2 ^ b)) as [|Hge]; [done|].
      assert (j ∈ exception_positions blk (2 ^ b)) as Hin.
      { apply exception_positions_elem. split; [done|].
        by rewrite (list_lookup_total_correct _ _ _ Hv). }
      rewrite HP in Hin. by apply elem_of_nil in Hin.
    - rewrite !lookup_ge_None_2; [done | lia |].
      rewrite unpackblock_length. lia. }
  destruct (compressblockPFOR_patched c blk b exc0 first Hmiss Hlen ltac:(lia))
    as (chain & st & L & Hhead & Hlast & Hall & Hr); [by rewrite HP|].
  rewrite Hr in *. clear Hr HP. cbn [words excepts firstexcept] in *.
  rewrite (links_exceptions _ _ _ _ _ L) in *.
  rewrite length_app, length_fmap in *.
  destruct chain as [|p chain']; [done|]. injection Hhead as ->.
  destruct (Z.ltb_spec (base + Z.of_nat (length exc0 + length (first :: chain')))
              (base + Z.of_nat (length exc0))); [lia|].
  replace (Z.to_nat (base + Z.of_nat (length exc0 + length (first :: chain'))
                     - (base + Z.of_nat (length exc0))))
    with (S (length chain')) by (simpl; lia).
  assert (1 <= 2 ^ b) as Hpow by lia.
  rewrite (chain_walk_restores blk stream chain' first); [reflexivity | ..].
  - by rewrite unpackblock_length.
  - apply L.
  - eapply Forall_impl; [apply (links_below _ _ _ _ _ L)|].
    intros q Hq. pose proof (links_bound _ _ _ _ _ L). simpl in *. lia.
  - intros j Hj.
    destruct (decide (j < 128)%nat) as [Hlt|Hge].
    + destruct (lookup_lt_is_Some_2 blk j ltac:(lia)) as [v Hv].
      rewrite Hv. apply unpackblock_packblock; try done; try lia.
      * rewrite (links_length _ _ _ _ _ L). lia.
      * rewrite (links_untouched _ _ _ _ _ L j) by (by left). done.
      * split; [by eapply Hnonneg|].
        destruct (Z.lt_ge_cases v (2 ^ b)) as [|Hge]; [done|].
        destruct Hj. apply Hall, exception_positions_elem. split; [done|].
        by rewrite (list_lookup_total_correct _ _ _ Hv).
    + rewrite !lookup_ge_None_2; [done | lia |].
      rewrite unpackblock_length. lia.
  - intros k x y Hx Hy.
    destruct (links_gaps _ _ _ _ _ L k x y Hx Hy) as (Hxy & Hgap & Hcode).
    pose proof (lookup_lt_Some _ _ _ Hcode) as Hxlen.
    rewrite (links_length _ _ _ _ _ L) in Hxlen.
    apply unpackblock_packblock; try done; try lia.
    rewrite (links_length _ _ _ _ _ L). lia.
  - lia.
  - intros k x Hx.
    replace (base + Z.of_nat (length exc0) + Z.of_nat k)
      with (base + Z.of_nat (length exc0 + k)) by lia.
    apply Hstream. rewrite lookup_app_r by lia.
    replace (length exc0 + k - length exc0)%nat with k by lia.
    by rewrite list_lookup_fmap, Hx.
Qed.

End BlockRoundTrip.

(** * The block round trip *)

(** C2: for every block of BlockSize = 128 values of 32 bits and every
    width b in [0,32], uncompressblockPFOR, given the packed words written
    by compressblockPFOR at width b, the exception values it emitted (the
    cursor bounded at exactly their number) and the first-exception
    position it returned, yields the original 128 values. The codec's
    [miss] buffer has the BlockSize entries its constructor gives it. *)
Theorem block_round_trip `{BitPacking}
    (c : PFor) (blk : list Z) (b : Z) :
  length (miss c) = Z.to_nat BlockSize →
  length blk = Z.to_nat BlockSize →
  Forall is_u32 blk →
  0 <= b <= 32 →
  uncompressblockPFOR
    (words (compressblockPFOR c blk b [])) b
    (excepts (compressblockPFOR c blk b []))
    0 (Z.of_nat (length (excepts (compressblockPFOR c blk b []))))
    (Z.of_nat (firstexcept (compressblockPFOR c blk b []))) =
  Ok (blk, Z.of_nat (length (excepts (compressblockPFOR c blk b [])))).
Proof.
  rewrite BlockSize_nat. intros Hmiss Hlen Hu Hb.
  pose proof (uncompress_compress c blk b [] []
                (excepts (compressblockPFOR c blk b [])) 0 Hmiss Hlen Hu Hb
                ltac:(lia)) as Hrt.
  rewrite app_nil_r in Hrt. apply Hrt.
  intros k v Hv. by rewrite Z.add_0_l, Nat2Z.id.
Qed.

Lemma block_round_trip_witness :
  uncompressblockPFOR
    (words (compressblockPFOR PFor_new sparse_block 2 [])) 2
    (excepts (compressblockPFOR PFor_new sparse_block 2 []))
    0 (Z.of_nat (length (excepts (compressblockPFOR PFor_new sparse_block 2 []))))
    (Z.of_nat (firstexcept (compressblockPFOR PFor_new sparse_block 2 []))) =
  Ok (sparse_block,
      Z.of_nat (length (excepts (compressblockPFOR PFor_new sparse_block 2 [])))).
Proof.
  apply (block_round_trip PFor_new sparse_block 2).
  - reflexivity.
  - reflexivity.
  - apply (bool_decide_unpack _). vm_compute. reflexivity.
  - lia.
Defined.

(** * The position the block encoder returns *)

Lemma filter_none {A : Type} (P : A → Prop) `{!∀ x, Decision (P x)} (l : list A) :
  Forall (λ x, ¬ P x) l → filter P l = [].
Proof.
  induction 1 as [|x l Hx _ IH]; [done|].
  by rewrite filter_cons_False.
Qed.

Lemma exception_positions_none (blk : list Z) (maxgap : Z) :
  (∀ k, (k < 128)%nat → blk !!! k < maxgap) →
  exception_positions blk maxgap = [].
Proof.
  intros Hnone. unfold exception_positions. rewrite BlockSize_nat.
  apply filter_none, Forall_forall. intros k Hk%elem_of_seq.
  specialize (Hnone k ltac:(lia)). lia.
Qed.

Lemma exception_positions_head (blk : list Z) (maxgap : Z) (k : nat) :
  (k < 128)%nat → maxgap <= blk !!! k →
  (∀ j, (j < k)%nat → blk !!! j < maxgap) →
  head (exception_positions blk maxgap) = Some k.
Proof.
  intros Hk Hex Hbefore. unfold exception_positions. rewrite BlockSize_nat.
  replace 128%nat with (k + S (127 - k))%nat by lia.
  rewrite seq_app, filter_app. cbn [seq].
  rewrite filter_none, Nat.add_0_l, filter_cons_True; [done | done |].
  apply Forall_forall. intros j Hj%elem_of_seq.
  specialize (Hbefore j ltac:(lia)). lia.
Qed.

(** C5: compressblockPFOR returns the position of the first exception of
    the block, the smallest k with in[k] >= 2^b, and BlockSize = 128 when
    the block has no such value, which is always so when b = 32. *)
Theorem first_exception_position `{BitPacking}
    (c : PFor) (blk : list Z) (b : Z) (exc0 : list Z) :
  length (miss c) = Z.to_nat BlockSize →
  length blk = Z.to_nat BlockSize →
  Forall is_u32 blk →
  0 <= b <= 32 →
  (∀ k, (k < 128)%nat → 2 ^ b <= blk !!! k →
        (∀ j, (j < k)%nat → blk !!! j < 2 ^ b) →
        firstexcept (compressblockPFOR c blk b exc0) = k) ∧
  ((∀ k, (k < 128)%nat → blk !!! k < 2 ^ b) →
   firstexcept (compressblockPFOR c blk b exc0) = Z.to_nat BlockSize) ∧
  (b = 32 → firstexcept (compressblockPFOR c blk b exc0) = Z.to_nat BlockSize).
Proof.
  rewrite BlockSize_nat. intros Hmiss Hlen Hu Hb.
  destruct (decide (b = 32)) as [->|Hb32].
  { rewrite compressblockPFOR_raw by done. cbn [firstexcept].
    split; [|done]. intros k Hk Hex _.
    assert (is_u32 (blk !!! k)) as [_ Hlt]; [|lia].
    eapply Forall_lookup_1; [exact Hu|].
    apply list_lookup_lookup_total_lt. lia. }
  split; [|split; [|done]].
  - intros k Hk Hex Hbefore.
    destruct (compressblockPFOR_patched c blk b exc0 k Hmiss Hlen ltac:(lia))
      as (chain & st & _ & _ & _ & _ & ->); [|done].
    by apply exception_positions_head.
  - intros Hnone.
    by rewrite compressblockPFOR_clean
      by (done || lia || by apply exception_positions_none).
Qed.

Lemma first_exception_position_witness :
  firstexcept (compressblockPFOR PFor_new single_outlier 4 []) = 3%nat ∧
  firstexcept (compressblockPFOR PFor_new (replicate 128 7) 4 []) = Z.to_nat BlockSize.
Proof.
  split.
  - assert (Forall is_u32 single_outlier) as Hu
      by (apply (bool_decide_unpack _); vm_compute; reflexivity).
    destruct (first_exception_position PFor_new single_outlier 4 []
                eq_refl eq_refl Hu ltac:(lia)) as (Hfirst & _ & _).
    apply Hfirst; [lia | vm_compute; discriminate |].
    intros j Hj.
    do 3 (destruct j as [|j]; [vm_compute; reflexivity|]). lia.
  - assert (Forall is_u32 (replicate 128 7)) as Hu
      by (apply (bool_decide_unpack _); vm_compute; reflexivity).
    destruct (first_exception_position PFor_new (replicate 128 7) 4 []
                eq_refl eq_refl Hu ltac:(lia)) as (_ & Hnone & _).
    apply Hnone.
    intros k Hk. rewrite lookup_total_replicate_2 by done. lia.
Defined.

(** * The copy handed to the packer *)

(** C3, as stated, fails: with one exception in the block nothing is
    patched, and the copy handed to [packblock] still holds the exception. *)
Lemma patched_copy_keeps_exception :
  exception_positions single_outlier (2 ^ 4) ≠ [] ∧
  words (compressblockPFOR PFor_new single_outlier 4 []) =
    packblock (codedcopy (scratch (compressblockPFOR PFor_new single_outlier 4 []))) 4 ∧
  ¬ Forall (λ v, v < 2 ^ 4)
      (codedcopy (scratch (compressblockPFOR PFor_new single_outlier 4 []))).
Proof.
  split; [vm_compute; discriminate|].
  split; [vm_compute; reflexivity|].
  intros Hall.
  pose proof (Forall_lookup_1 _ _ 3%nat 4294967295 Hall) as Hv.
  specialize (Hv ltac:(vm_compute; reflexivity)). simpl in Hv. lia.
Qed.

(** C3, amended: at a width b < 32 under which the block has an exception,
    every slot of the copy handed to the packer holds a value below 2^b but
    for the slot of the last exception of the block, which keeps its value
    of 2^b or more. *)
Theorem patched_copy_fits_but_last `{BitPacking}
    (c : PFor) (blk : list Z) (b : Z) (exc0 : list Z) (l : nat) :
  length (miss c) = Z.to_nat BlockSize →
  length blk = Z.to_nat BlockSize →
  Forall is_u32 blk →
  0 <= b < 32 →
  last (exception_positions blk (2 ^ b)) = Some l →
  words (compressblockPFOR c blk b exc0) =
    packblock (codedcopy (scratch (compressblockPFOR c blk b exc0))) b ∧
  (∀ j v, codedcopy (scratch (compressblockPFOR c blk b exc0)) !! j = Some v →
          j ≠ l → 0 <= v < 2 ^ b) ∧
  codedcopy (scratch (compressblockPFOR c blk b exc0)) !! l = blk !! l ∧
  2 ^ b <= blk !!! l.
Proof.
  rewrite BlockSize_nat. intros Hmiss Hlen Hu Hb Hl.
  destruct (exception_positions blk (2 ^ b)) as [|first P'] eqn:HP; [done|].
  destruct (compressblockPFOR_patched c blk b exc0 first Hmiss Hlen Hb)
    as (chain & st & L & _ & Hlast & Hall & ->); [by rewrite HP|].
  rewrite HP in Hlast, Hall.
  assert (prev st = l) as Hprev by congruence.
  cbn [words scratch codedcopy].
  split; [done|]. split; [|split].
  - intros j v Hv Hne.
    destruct (decide (j ∈ chain)) as [[k Hk]%list_elem_of_lookup_1|Hnot].
    + pose proof (lookup_lt_Some _ _ _ Hk) as Hlt.
      destruct (decide (S k < length chain)%nat) as [Hnext|Hend].
      * destruct (lookup_lt_is_Some_2 chain (S k) Hnext) as [q Hq].
        destruct (links_gaps _ _ _ _ _ L k j q Hk Hq) as (Hjq & Hgap & Hcode).
        rewrite Hcode in Hv. injection Hv as <-. lia.
      * pose proof (links_last _ _ _ _ _ L) as Hlast'.
        rewrite last_lookup in Hlast'.
        replace (Init.Nat.pred (length chain)) with k in Hlast' by lia.
        congruence.
    + rewrite (links_untouched _ _ _ _ _ L j) in Hv by (by left).
      split; [by destruct (Forall_lookup_1 _ _ _ _ Hu Hv)|].
      destruct (Z.lt_ge_cases v (2 ^ b)) as [|Hge]; [done|].
      destruct Hnot. apply Hall. rewrite <- HP.
      apply exception_positions_elem. split.
      * apply lookup_lt_Some in Hv. lia.
      * by rewrite (list_lookup_total_correct _ _ _ Hv).
  - apply (links_untouched _ _ _ _ _ L). by right.
  - assert (l ∈ exception_positions blk (2 ^ b)) as Hin.
    { rewrite HP. apply list_elem_of_lookup.
      exists (Init.Nat.pred (length (first :: P'))).
      by rewrite <- last_lookup. }
    by apply exception_positions_elem in Hin as [_ ?].
Qed.

Lemma patched_copy_fits_but_last_witness :
  words (compressblockPFOR PFor_new sparse_block 2 []) =
    packblock (codedcopy (scratch (compressblockPFOR PFor_new sparse_block 2 []))) 2 ∧
  (∀ j v, codedcopy (scratch (compressblockPFOR PFor_new sparse_block 2 [])) !! j = Some v →
          j ≠ 100%nat → 0 <= v < 2 ^ 2) ∧
  codedcopy (scratch (compressblockPFOR PFor_new sparse_block 2 [])) !! 100%nat =
    sparse_block !! 100%nat ∧
  2 ^ 2 <= sparse_block !!! 100%nat.
Proof.
  apply (patched_copy_fits_but_last PFor_new sparse_block 2 [] 100).
  - reflexivity.
  - reflexivity.
  - apply (bool_decide_unpack _). vm_compute. reflexivity.
  - lia.
  - vm_compute. reflexivity.
Defined.

(** * Compulsory exceptions *)

Lemma compulsory_spec_patch (maxgap : Z) (rounds cur : nat) (st : patching) :
  1 <= maxgap < 2 ^ 32 → Z.of_nat cur < 2 ^ 32 →
  (prev st < cur)%nat → (cur - prev st ≤ rounds)%nat →
  spec_patch maxgap cur st (link cur (compulsory rounds maxgap cur st)).
Proof.
  intros Hgap Hcur. revert st.
  induction rounds as [|rounds IH]; intros st Hprev Hr; [lia|].
  cbn [compulsory].
  destruct (Z.ltb_spec (maxgap + Z.of_nat (prev st)) (Z.of_nat cur)) as [Hc|Hc].
  - apply spec_compulsory; [lia|].
    rewrite (u32_small (maxgap - 1)) by lia.
    apply IH; simpl; lia.
  - unfold link. rewrite u32_small by lia.
    apply spec_real. lia.
Qed.

Section PlainLoop.
Variables (orig : list Z) (maxgap : Z) (exc0 : list Z).
Variables (misses : list nat) (exceptcounter : nat).
Hypothesis maxgap_range : 1 <= maxgap < 2 ^ 32.
Hypothesis maxgap_wide : Z.of_nat (length orig) <= maxgap.
Hypothesis misses_sorted : StronglySorted lt (take exceptcounter misses).
Hypothesis misses_bound : Forall (λ p, p < length orig)%nat (take exceptcounter misses).
Hypothesis counter_bound : (exceptcounter ≤ length misses)%nat.

(** Without compulsory exceptions the chain is the exceptions themselves. *)
Lemma plain_loop_links (n a : nat) (chain : list nat) (st : patching) :
  links orig maxgap exc0 chain st →
  (1 ≤ a)%nat → (a + n ≤ exceptcounter)%nat →
  prev st = misses !!! (a - 1)%nat →
  links orig maxgap exc0 (chain ++ take n (drop a misses))
    (foldl (patch_plain misses) st (seq a n)).
Proof.
  revert a chain st. induction n as [|n IH]; intros a chain st L Ha Hn Hprev.
  - by rewrite take_0, app_nil_r.
  - cbn [seq foldl].
    assert (take exceptcounter misses !! a = Some (misses !!! a)) as Hma
      by (apply misses_lookup; [done | lia]).
    assert (prev st < misses !!! a < length orig)%nat as Hcur.
    { split.
      - rewrite Hprev.
        apply (sorted_lookup_lt (take exceptcounter misses) (a - 1) a);
          [done | apply misses_lookup; [done | lia] | done | lia].
      - apply (proj1 (Forall_forall _ _) misses_bound).
        by eapply list_elem_of_lookup_2. }
    pose proof (patch_plain_links orig maxgap exc0 maxgap_range misses a chain st
                  maxgap_wide L Hcur) as L1.
    rewrite lookup_take in Hma. case_decide; [|lia].
    rewrite (drop_S _ _ _ Hma). cbn [take].
    rewrite (cons_middle (misses !!! a)), (assoc_L (++)).
    apply IH; [done | lia | lia |].
    unfold patch_plain. cbn [link prev]. f_equal. lia.
Qed.

End PlainLoop.

(** C4: in compressblockPFOR at a width b with maxgap = 2^b < BlockSize,
    each later real exception cur is patched as the specification says:
    while cur - prev > maxgap a compulsory exception is inserted (the value
    stored at prev + maxgap is emitted, the gap code maxgap - 1 is written
    into slot prev, prev advances to prev + maxgap), and once cur - prev <=
    maxgap the value at cur is emitted and the gap code cur - prev - 1 is
    written at prev. When maxgap >= BlockSize no compulsory exception is
    inserted: the values emitted are those at the exceptions of the
    block. *)
Theorem compulsory_exceptions `{BitPacking}
    (c : PFor) (blk : list Z) (b : Z) (exc0 : list Z)
    (misses : list nat) (i : nat) (st : patching) :
  length (miss c) = Z.to_nat BlockSize →
  length blk = Z.to_nat BlockSize →
  0 <= b < 32 →
  (prev st < misses !!! i < Z.to_nat BlockSize)%nat →
  (2 ^ b < BlockSize →
   spec_patch (2 ^ b) (misses !!! i) st (patch_saturating (2 ^ b) misses st i)) ∧
  (BlockSize <= 2 ^ b →
   excepts (compressblockPFOR c blk b exc0) =
   exc0 ++ ((blk !!!.) <$> exception_positions blk (2 ^ b))).
Proof.
  rewrite BlockSize_nat. intros Hmiss Hlen Hb Hcur.
  assert (1 <= 2 ^ b < 2 ^ 32) as Hgap.
  { split; [lia|]. apply Z.pow_lt_mono_r; lia. }
  split.
  - intros _. unfold patch_saturating.
    apply compulsory_spec_patch; [done | lia | lia | rewrite BlockSize_nat; lia].
  - intros Hwide.
    destruct (exception_positions blk (2 ^ b)) as [|first P'] eqn:HP.
    { rewrite compressblockPFOR_clean by done. cbn [excepts fmap list_fmap].
      by rewrite app_nil_r. }
    unfold compressblockPFOR.
    destruct (Z.eqb_spec b 32) as [|_]; [lia|].
    rewrite maxgap_eq by done.
    destruct (scan_exceptions_spec blk (2 ^ b) (miss c) Hmiss) as (Hl & Hc & Ht).
    set (found := (scan_exceptions blk (2 ^ b) (miss c)).1) in *.
    set (n := (scan_exceptions blk (2 ^ b) (miss c)).2) in *.
    clearbody found n. rewrite HP in Hc, Ht. cbn [length] in Hc.
    destruct (Nat.eqb_spec n 0) as [|_]; [lia|].
    destruct (Z.ltb_spec (2 ^ b) BlockSize) as [|_]; [lia|].
    rewrite BlockSize_nat, take_ge by lia. cbn [excepts].
    assert (found !! 0%nat = Some first) as H0.
    { pose proof (f_equal (.!! 0%nat) Ht) as Hh. cbn [lookup list_lookup] in Hh.
      rewrite lookup_take in Hh. by case_decide; [|lia]. }
    rewrite (list_lookup_total_correct _ _ _ H0).
    assert (first < length blk)%nat as Hfb.
    { assert (first ∈ exception_positions blk (2 ^ b)) as Hin
        by (rewrite HP; apply list_elem_of_here).
      apply exception_positions_elem in Hin. lia. }
    assert (n ≤ length found)%nat as Hn.
    { pose proof (length_take found n) as Hmin. rewrite Ht in Hmin.
      cbn [length] in Hmin. lia. }
    assert (Z.of_nat (length blk) <= 2 ^ b) as Hwide'
      by (rewrite Hlen; change BlockSize with 128 in Hwide; lia).
    assert (StronglySorted lt (take n found)) as Hsorted
      by (rewrite Ht, <- HP; apply exception_positions_sorted).
    assert (Forall (λ p, p < length blk)%nat (take n found)) as Hbound.
    { rewrite Ht, <- HP. apply Forall_forall.
      intros p Hp%exception_positions_elem. lia. }
    pose proof (plain_loop_links blk (2 ^ b) exc0 found n Hgap Hwide' Hsorted
                  Hbound Hn (n - 1)%nat 1%nat [first] _
                  (links_start blk (2 ^ b) exc0 first Hfb)) as Hloop.
    rewrite (links_exceptions _ _ _ _ _ (Hloop ltac:(lia) ltac:(lia)
               ltac:(cbn [prev Nat.sub]; symmetry; by apply list_lookup_total_correct))).
    do 2 f_equal.
    rewrite take_drop_commute.
    replace (1 + (n - 1))%nat with n by lia. by rewrite Ht.
Qed.

Lemma compulsory_exceptions_witness :
  spec_patch (2 ^ 2) 90
    {| copy := sparse_block; prev := 3; exceptions := [4294967295] |}
    (patch_saturating (2 ^ 2) [3; 90; 100]%nat
       {| copy := sparse_block; prev := 3; exceptions := [4294967295] |} 1) ∧
  excepts (compressblockPFOR PFor_new sparse_block 7 [5]) =
  [5] ++ ((sparse_block !!!.) <$> exception_positions sparse_block (2 ^ 7)).
Proof.
  split.
  - apply (compulsory_exceptions PFor_new sparse_block 2 [] [3; 90; 100]%nat 1
             {| copy := sparse_block; prev := 3; exceptions := [4294967295] |}).
    + reflexivity.
    + reflexivity.
    + lia.
    + vm_compute. split; lia.
    + reflexivity.
  - apply (compulsory_exceptions PFor_new sparse_block 7 [5] [3; 90; 100]%nat 1
             {| copy := sparse_block; prev := 3; exceptions := [4294967295] |}).
    + reflexivity.
    + reflexivity.
    + lia.
    + vm_compute. split; lia.
    + vm_compute. discriminate.
Defined.

(** * What one block adds to the output *)

Section BlockSummary.
Context `{BitPacking}.

(** The exception output grows by the values at strictly increasing
    positions of the block; the words written are [BlockSize * b / 32]; the
    [miss] buffer keeps its size. *)
Lemma compressblockPFOR_summary (c : PFor) (blk : list Z) (b : Z) (exc0 : list Z) :
  length (miss c) = 128%nat → length blk = 128%nat → 0 <= b <= 32 →
  length (miss (scratch (compressblockPFOR c blk b exc0))) = 128%nat ∧
  length (words (compressblockPFOR c blk b exc0)) = (4 * Z.to_nat b)%nat ∧
  (firstexcept (compressblockPFOR c blk b exc0) ≤ 128)%nat ∧
  ∃ chain,
    StronglySorted lt chain ∧ Forall (λ p, p < 128)%nat chain ∧
    excepts (compressblockPFOR c blk b exc0) = exc0 ++ ((blk !!!.) <$> chain).
Proof.
  intros Hmiss Hlen Hb.
  destruct (decide (b = 32)) as [->|Hb32].
  { rewrite compressblockPFOR_raw by done. cbn [scratch words firstexcept excepts].
    split; [done|]. split; [by rewrite Hlen|]. split; [done|].
    exists []. split; [constructor|]. split; [constructor|].
    by rewrite app_nil_r. }
  pose proof (scan_exceptions_spec blk (2 ^ b) (miss c) Hmiss) as (Hl & _ & _).
  destruct (exception_positions blk (2 ^ b)) as [|first P'] eqn:HP.
  { rewrite compressblockPFOR_clean by (done || lia).
    cbn [scratch words firstexcept excepts miss].
    split; [done|]. split; [apply packblock_length; lia|]. split; [done|].
    exists []. split; [constructor|]. split; [constructor|].
    by rewrite app_nil_r. }
  destruct (compressblockPFOR_patched c blk b exc0 first Hmiss Hlen ltac:(lia))
    as (chain & st & L & Hhead & _ & _ & ->); [by rewrite HP|].
  cbn [scratch words firstexcept excepts miss].
  assert (Forall (λ p, p < 128)%nat chain) as Hbound.
  { eapply Forall_impl; [apply (links_below _ _ _ _ _ L)|].
    intros q Hq. pose proof (links_bound _ _ _ _ _ L) as Hpb. simpl in Hq. lia. }
  split; [done|]. split.
  { apply packblock_length; [lia|]. rewrite (links_length _ _ _ _ _ L). lia. }
  split.
  { rewrite head_lookup in Hhead.
    pose proof (Forall_lookup_1 _ _ _ _ Hbound Hhead) as Hfb. simpl in Hfb. lia. }
  exists chain. split; [apply L|]. split; [done|]. apply L.
Qed.

Lemma compressblockPFOR_excepts_length (c : PFor) (blk : list Z) (b : Z) (exc0 : list Z) :
  length (miss c) = 128%nat → length blk = 128%nat → 0 <= b <= 32 →
  ∃ more,
    excepts (compressblockPFOR c blk b exc0) = exc0 ++ more ∧
    (length more ≤ 128)%nat.
Proof.
  intros Hmiss Hlen Hb.
  destruct (compressblockPFOR_summary c blk b exc0 Hmiss Hlen Hb)
    as (_ & _ & _ & chain & Hsorted & Hbound & ->).
  eexists. split; [done|]. rewrite length_fmap.
  pose proof (sorted_below_length chain 0 128 Hsorted) as Hle.
  rewrite Nat.sub_0_r in Hle. apply Hle.
  eapply Forall_impl; [exact Hbound|]. simpl. lia.
Qed.

End BlockSummary.

(** * Header words *)

Lemma lor_shiftl_add (a b w : Z) :
  0 <= a < 2 ^ w → 0 <= w → Z.lor a (Z.shiftl b w) = a + 2 ^ w * b.
Proof.
  intros Ha Hw.
  assert (Z.land a (Z.shiftl b w) = 0) as Hdisjoint.
  { apply Z.bits_inj'. intros n Hn. rewrite Z.land_spec, Z.bits_0.
    destruct (Z.lt_ge_cases n w).
    - rewrite Z.shiftl_spec_low by done. apply andb_false_r.
    - by rewrite (testbit_above a w n) by lia. }
  rewrite <- Z.lxor_lor, <- Z.add_nocarry_lxor by done.
  rewrite Z.shiftl_mul_pow2 by done. lia.
Qed.

Lemma block_header_fields (first idx : Z) :
  0 <= first < 2 ^ 8 → 0 <= idx < 2 ^ 24 →
  block_header first idx = first + 2 ^ 8 * idx ∧
  0 <= block_header first idx < 2 ^ 32 ∧
  header_firstexcept (block_header first idx) = first ∧
  header_exceptindex (block_header first idx) = idx.
Proof.
  intros Hf Hi.
  assert (block_header first idx = first + 2 ^ 8 * idx) as ->.
  { unfold block_header. rewrite firstexceptmask_eq.
    change bitsforfirstexcept with 8.
    rewrite Z.land_ones, Z.mod_small, lor_shiftl_add by lia.
    apply u32_small. lia. }
  split; [done|]. split; [lia|].
  unfold header_firstexcept, header_exceptindex.
  rewrite firstexceptmask_eq. change bitsforfirstexcept with 8.
  rewrite Z.land_ones, Z.shiftr_div_pow2 by lia.
  replace (first + 2 ^ 8 * idx) with (first + idx * 2 ^ 8) by lia.
  split.
  - rewrite Z.mod_add by lia. apply Z.mod_small. lia.
  - rewrite Z.div_add by lia. rewrite Z.div_small by lia. lia.
Qed.

(** * The blocks of a chunk *)

Section Chunk.
Context `{BitPacking}.

Lemma encode_blocks_app (n : nat) (c : PFor) (inp : list Z) (b : Z)
    (o1 o2 excs : list Z) :
  encode_blocks n c inp b (o1 ++ o2) excs =
  ((encode_blocks n c inp b o2 excs).1.1,
   o1 ++ (encode_blocks n c inp b o2 excs).1.2,
   (encode_blocks n c inp b o2 excs).2).
Proof.
  revert c inp o2 excs. induction n as [|n IH]; intros c inp o2 excs; [done|].
  cbn [encode_blocks]. rewrite <- (assoc_L (++)). apply IH.
Qed.

(** The first block, then the others. *)
Lemma encode_blocks_S (n : nat) (c : PFor) (inp : list Z) (b : Z) (excs : list Z) :
  encode_blocks (S n) c inp b [] excs =
  let r := compressblockPFOR c (take 128 inp) b excs in
  let R := encode_blocks n (scratch r) (drop 128 inp) b [] (excepts r) in
  (R.1.1,
   block_header (Z.of_nat (firstexcept r)) (Z.of_nat (length (excepts r)))
     :: words r ++ R.1.2,
   R.2).
Proof.
  cbn [encode_blocks]. rewrite BlockSize_nat, <- compressblockPFOR_take.
  cbv zeta.
  set (r := compressblockPFOR c (take 128 inp) b excs).
  rewrite app_nil_l.
  rewrite <- (app_nil_r (_ ++ words r)), encode_blocks_app.
  by rewrite <- (assoc_L (++)).
Qed.

(** The first [k] blocks, then the others. *)
Lemma encode_blocks_add (k m : nat) (c : PFor) (inp : list Z) (b : Z)
    (out excs : list Z) :
  encode_blocks (k + m) c inp b out excs =
  encode_blocks m (encode_blocks k c inp b out excs).1.1 (drop (128 * k) inp) b
    (encode_blocks k c inp b out excs).1.2 (encode_blocks k c inp b out excs).2.
Proof.
  revert c inp out excs. induction k as [|k IH]; intros c inp out excs.
  - by rewrite Nat.mul_0_r, drop_0.
  - cbn [Nat.add encode_blocks]. rewrite IH, BlockSize_nat, drop_drop.
    do 2 f_equal. lia.
Qed.

Lemma encode_blocks_facts (b : Z) (n : nat) :
  0 <= b <= 32 →
  ∀ (c : PFor) (inp excs : list Z),
    length (miss c) = 128%nat → (128 * n ≤ length inp)%nat →
    length (miss (encode_blocks n c inp b [] excs).1.1) = 128%nat ∧
    length (encode_blocks n c inp b [] excs).1.2 = (n * (1 + 4 * Z.to_nat b))%nat ∧
    ∃ more,
      (encode_blocks n c inp b [] excs).2 = excs ++ more ∧
      (length more ≤ 128 * n)%nat.
Proof.
  intros Hb. induction n as [|n IH]; intros c inp excs Hmiss Hlen.
  - cbn [encode_blocks fst snd length]. split; [done|]. split; [done|].
    exists []. by rewrite app_nil_r.
  - rewrite encode_blocks_S. cbv zeta. cbn [fst snd].
    assert (length (take 128 inp) = 128%nat) as Hblk by (rewrite length_take; lia).
    destruct (compressblockPFOR_summary c (take 128 inp) b excs Hmiss Hblk Hb)
      as (Hmiss' & Hwords & _ & _).
    destruct (compressblockPFOR_excepts_length c (take 128 inp) b excs Hmiss Hblk Hb)
      as (more1 & Hex & Hmore1).
    destruct (IH (scratch (compressblockPFOR c (take 128 inp) b excs))
                 (drop 128 inp) (excepts (compressblockPFOR c (take 128 inp) b excs))
                 Hmiss' ltac:(rewrite length_drop; lia))
      as (Hm & Hl & more2 & Hex2 & Hmore2).
    split; [done|]. split.
    { cbn [length]. rewrite length_app, Hwords, Hl. lia. }
    exists (more1 ++ more2). split.
    + by rewrite Hex2, Hex, (assoc_L (++)).
    + rewrite length_app. lia.
Qed.

End Chunk.

Lemma app_cons_middle {A : Type} (pre : list A) (h : A) (ws body post : list A) :
  pre ++ (h :: ws ++ body) ++ post = (pre ++ [h] ++ ws) ++ body ++ post.
Proof.
  rewrite <- (assoc_L (++) pre). f_equal. simpl. f_equal.
  by rewrite <- (assoc_L (++)).
Qed.

Section ChunkRoundTrip.
Context `{BitPacking}.

Lemma packed_words_step (b : Z) :
  0 <= b <= 32 → u32 (BlockSize * b) / 32 = Z.of_nat (4 * Z.to_nat b).
Proof.
  intros Hb. change BlockSize with 128. rewrite u32_small by lia.
  replace (128 * b) with (4 * b * 32) by lia. rewrite Z.div_mul by lia. lia.
Qed.

(** The block loop of the decoder reads back what the block loop of the
    encoder wrote: the blocks at cursor [length pre] of the stream, their
    exceptions from cursor [initexcept] on. *)
Lemma decode_encode_blocks (b : Z) (n : nat) :
  0 <= b <= 32 →
  ∀ (c : PFor) (inp excs pre post outd : list Z) (initexcept : Z),
    length (miss c) = 128%nat → (128 * n ≤ length inp)%nat →
    Forall is_u32 inp → 0 <= initexcept →
    Z.of_nat (length (encode_blocks n c inp b [] excs).2) < 2 ^ 24 →
    (∀ k v, (encode_blocks n c inp b [] excs).2 !! k = Some v →
       (pre ++ (encode_blocks n c inp b [] excs).1.2 ++ post)
         !! Z.to_nat (initexcept + Z.of_nat k) = Some v) →
    decode_blocks n (pre ++ (encode_blocks n c inp b [] excs).1.2 ++ post) b
      initexcept (Z.of_nat (length pre)) outd
      (initexcept + Z.of_nat (length excs)) (initexcept + Z.of_nat (length excs)) =
    Ok (outd ++ take (128 * n) inp,
        initexcept + Z.of_nat (length (encode_blocks n c inp b [] excs).2)).
Proof.
  intros Hb. induction n as [|n IH];
    intros c inp excs pre post outd initexcept Hmiss Hlen Hu Hinit Hsmall Hstream.
  - cbn [decode_blocks encode_blocks fst snd]. by rewrite Nat.mul_0_r, take_0, app_nil_r.
  - revert Hsmall Hstream. rewrite encode_blocks_S. cbv zeta. cbn [fst snd].
    assert (length (take 128 inp) = 128%nat) as Hblk by (rewrite length_take; lia).
    assert (Forall is_u32 (take 128 inp)) as Hublk by (by apply Forall_take).
    set (r := compressblockPFOR c (take 128 inp) b excs).
    destruct (compressblockPFOR_summary c (take 128 inp) b excs Hmiss Hblk Hb)
      as (Hmiss' & Hwords & Hfirst & _).
    fold r in Hmiss', Hwords, Hfirst.
    destruct (encode_blocks_facts b n Hb (scratch r) (drop 128 inp) (excepts r)
                Hmiss' ltac:(rewrite length_drop; lia))
      as (_ & _ & more & Hmore & _).
    set (R := encode_blocks n (scratch r) (drop 128 inp) b [] (excepts r)) in *.
    set (h := block_header (Z.of_nat (firstexcept r)) (Z.of_nat (length (excepts r)))).
    intros Hsmall Hstream.
    assert (Z.of_nat (length (excepts r)) < 2 ^ 24) as Hidx.
    { rewrite Hmore, length_app in Hsmall. lia. }
    destruct (block_header_fields (Z.of_nat (firstexcept r))
                (Z.of_nat (length (excepts r))) ltac:(lia) ltac:(lia))
      as (_ & _ & Hf & Hi).
    fold h in Hf, Hi.
    set (stream := pre ++ (h :: words r ++ R.1.2) ++ post) in *.
    cbn [decode_blocks].
    assert (stream !! length pre = Some h) as Hh.
    { unfold stream. rewrite lookup_app_r by lia. by rewrite Nat.sub_diag. }
    rewrite (read_lookup _ _ _ Hh). cbn [after]. rewrite bind_Ok, Hf, Hi.
    assert (drop (Z.to_nat (Z.of_nat (length pre) + 1)) stream
            = words r ++ (R.1.2 ++ post)) as ->.
    { unfold stream.
      replace (Z.to_nat (Z.of_nat (length pre) + 1)) with (length (pre ++ [h]))
        by (rewrite length_app; simpl; lia).
      rewrite app_cons_middle, (assoc_L (++) pre), <- (assoc_L (++) _ (words r)).
      apply drop_app_length. }
    pose proof (uncompress_compress c (take 128 inp) b excs (R.1.2 ++ post) stream
                  initexcept Hmiss Hblk Hublk Hb Hinit) as Hrt.
    fold r in Hrt. rewrite Hrt; clear Hrt.
    2:{ intros k v Hv. apply Hstream. rewrite Hmore.
        by apply lookup_app_l_Some. }
    cbn [after]. rewrite bind_Ok. cbn [fst snd].
    rewrite packed_words_step by done.
    replace (Z.of_nat (length pre) + 1 + Z.of_nat (4 * Z.to_nat b))
      with (Z.of_nat (length (pre ++ [h] ++ words r)))
      by (rewrite !length_app, Hwords; simpl; lia).
    assert (stream = (pre ++ [h] ++ words r) ++ R.1.2 ++ post) as Hs.
    { unfold stream. apply app_cons_middle. }
    rewrite Hs.
    pose proof (IH (scratch r) (drop 128 inp) (excepts r) (pre ++ [h] ++ words r)
                  post (outd ++ take 128 inp) initexcept Hmiss'
                  ltac:(rewrite length_drop; lia) ltac:(by apply Forall_drop)
                  Hinit Hsmall) as HIH.
    fold R in HIH. rewrite HIH.
    + do 2 f_equal. rewrite <- (assoc_L (++)). f_equal.
      rewrite take_take_drop. f_equal. lia.
    + rewrite <- Hs. exact Hstream.
Qed.

End ChunkRoundTrip.

(** * The width selected *)

Lemma cost_step_bestb (freqs : list Z) (samplesize b : Z) (st : costs) :
  bestb (cost_step freqs samplesize b st) = b ∨
  bestb (cost_step freqs samplesize b st) = bestb st.
Proof.
  unfold cost_step.
  match goal with |- context [if PrimFloat.leb ?x ?y then _ else _] =>
    destruct (PrimFloat.leb x y) end; cbn [bestb]; auto.
Qed.

Lemma cost_loop_bestb (freqs : list Z) (samplesize : Z) (n : nat) (st : costs) :
  (n ≤ 32)%nat → 0 <= bestb st <= 32 →
  0 <= bestb (cost_loop freqs samplesize n st) <= 32.
Proof.
  revert st. induction n as [|n IH]; intros st Hn Hst; [done|].
  cbn [cost_loop]. apply IH; [lia|].
  destruct (cost_step_bestb freqs samplesize (Z.of_nat n) st) as [-> | ->]; lia.
Qed.

Lemma determineBestBase_range (rand : Z) (inp : list Z) :
  0 <= determineBestBase rand inp <= 32.
Proof.
  unfold determineBestBase.
  destruct (Z.of_nat (length inp) =? 0); [lia|].
  apply cost_loop_bestb; [lia | cbn [bestb]; lia].
Qed.

(** * The chunk round trip *)

Lemma read_0 (x : Z) (l : list Z) : read (x :: l) 0 = Ok x.
Proof. by apply (read_lookup _ 0%nat). Qed.

Lemma read_1 (x y : Z) (l : list Z) : read (x :: y :: l) 1 = Ok y.
Proof. by apply (read_lookup _ 1%nat). Qed.

Section ChunkCodec.
Context `{BitPacking}.

Lemma encodeArray_chunk_Ok (c : PFor) (rand : Z) (inp : list Z) :
  Z.of_nat (length inp) mod BlockSize = 0 →
  __encodeArray c rand inp =
  Ok ((encode_blocks (Z.to_nat (Z.of_nat (length inp) / BlockSize)) c inp
         (determineBestBase rand inp) [] []).1.1,
      [u32 (Z.of_nat (length inp)); determineBestBase rand inp] ++
      (encode_blocks (Z.to_nat (Z.of_nat (length inp) / BlockSize)) c inp
         (determineBestBase rand inp) [] []).1.2 ++
      (encode_blocks (Z.to_nat (Z.of_nat (length inp) / BlockSize)) c inp
         (determineBestBase rand inp) [] []).2).
Proof.
  intros Hdiv. unfold __encodeArray, checkifdivisibleby.
  rewrite Hdiv. reflexivity.
Qed.

Lemma block_count (inp : list Z) :
  Z.of_nat (length inp) mod BlockSize = 0 →
  length inp = (128 * Z.to_nat (Z.of_nat (length inp) / BlockSize))%nat.
Proof.
  change BlockSize with 128. intros Hdiv.
  pose proof (Z.div_mod (Z.of_nat (length inp)) 128 ltac:(lia)) as Hdm.
  assert (0 <= Z.of_nat (length inp) / 128) by (apply Z.div_pos; lia).
  lia.
Qed.

(** One chunk: the decoder recovers the values, their number and the end
    of the chunk, whatever follows it. *)
Lemma chunk_round_trip (c : PFor) (rand : Z) (inp rest : list Z) :
  length (miss c) = 128%nat → Forall is_u32 inp →
  Z.of_nat (length inp) mod BlockSize = 0 →
  Z.of_nat (length inp) <= maxsize →
  ∃ c' out,
    __encodeArray c rand inp = Ok (c', out) ∧
    length (miss c') = 128%nat ∧
    (2 ≤ length out)%nat ∧
    __decodeArray (out ++ rest) =
    Ok (inp, Z.of_nat (length inp), Z.of_nat (length out)).
Proof.
  intros Hmiss Hu Hdiv Hmax. rewrite maxsize_eq in Hmax.
  rewrite encodeArray_chunk_Ok by done.
  pose proof (block_count inp Hdiv) as Hn.
  pose proof (determineBestBase_range rand inp) as Hb.
  set (b := determineBestBase rand inp) in *.
  set (n := Z.to_nat (Z.of_nat (length inp) / BlockSize)) in *.
  clearbody b n.
  destruct (encode_blocks_facts b n Hb c inp [] Hmiss ltac:(lia))
    as (Hmiss' & Hbody & more & Hexc & Hmore).
  pose proof (decode_encode_blocks b n Hb c inp []
                [Z.of_nat (length inp); b]
                ((encode_blocks n c inp b [] []).2 ++ rest) []
                (2 + Z.of_nat (n * (1 + 4 * Z.to_nat b))) Hmiss ltac:(lia) Hu
                ltac:(lia)) as Hdec.
  set (R := encode_blocks n c inp b [] []) in *.
  cbn [app] in Hexc. eexists _, _. split; [reflexivity|]. split; [done|].
  split; [cbn [app length]; lia|].
  rewrite u32_small by lia.
  unfold __decodeArray. rewrite <- !(assoc_L (++)).
  cbn [app]. rewrite read_0, bind_Ok.
  unfold checkifdivisibleby. rewrite Hdiv. cbn [Z.eqb]. rewrite bind_Ok.
  rewrite read_1, bind_Ok.
  assert (2 + Z.of_nat (length inp) * b / 32 + Z.of_nat (length inp) / BlockSize
          = 2 + Z.of_nat (n * (1 + 4 * Z.to_nat b))) as ->.
  { change BlockSize with 128. rewrite Hn at 1 2.
    replace (Z.of_nat (128 * n) * b) with (Z.of_nat n * 4 * b * 32) by lia.
    rewrite Z.div_mul by lia.
    replace (Z.of_nat (128 * n)) with (Z.of_nat n * 128) by lia.
    rewrite Z.div_mul by lia. lia. }
  assert (Z.to_nat (Z.of_nat (length inp) / BlockSize) = n) as ->.
  { change BlockSize with 128. rewrite Hn at 1.
    replace (Z.of_nat (128 * n)) with (Z.of_nat n * 128) by lia.
    rewrite Z.div_mul by lia. lia. }
  cbn [length Z.of_nat] in Hdec.
  change (Z.of_nat 2) with 2 in Hdec.
  rewrite Z.add_0_r in Hdec.
  change (Z.pos (Pos.of_succ_nat 1)) with 2 in Hdec.
  cbn [app] in Hdec.
  rewrite Hdec.
  - rewrite bind_Ok. cbn [fst snd app]. do 2 f_equal; [f_equal|].
    + rewrite take_ge by lia. done.
    + cbn [length]. rewrite length_app, Hbody. lia.
  - rewrite Hexc. lia.
  - intros k v Hv.
    replace (Z.to_nat (2 + Z.of_nat (n * (1 + 4 * Z.to_nat b)) + Z.of_nat k))
      with (2 + (length R.1.2 + k))%nat by lia.
    change (Z.of_nat (length inp) :: b :: R.1.2 ++ R.2 ++ rest)
      with ([Z.of_nat (length inp); b] ++ R.1.2 ++ R.2 ++ rest).
    rewrite lookup_app_r by (cbn [length]; lia).
    rewrite lookup_app_r by (cbn [length]; lia).
    replace (2 + (length R.1.2 + k) - length [Z.of_nat (length inp); b]
             - length R.1.2)%nat with k by (cbn [length]; lia).
    by apply lookup_app_l_Some.
Qed.

End ChunkCodec.

(** * The array drivers *)

(** The chunk the driver cuts at counter [i]. *)
Lemma chunk_cut (inp : list Z) (i : Z) :
  let len := Z.of_nat (length inp) in
  let l := if len <? i + maxsize then len - i else maxsize in
  0 <= i < len →
  0 < l <= maxsize ∧
  Z.of_nat (length (take (Z.to_nat l) (drop (Z.to_nat i) inp))) = l ∧
  l + Z.max 0 (len - (i + maxsize)) = len - i ∧
  take (Z.to_nat l) (drop (Z.to_nat i) inp) ++ drop (Z.to_nat (i + maxsize)) inp
  = drop (Z.to_nat i) inp.
Proof.
  intros len l Hi. pose proof maxsize_eq as Hmax. unfold l.
  destruct (Z.ltb_spec len (i + maxsize)) as [Hlast|Hfull].
  - split; [lia|]. split; [rewrite length_take, length_drop; lia|].
    split; [lia|].
    rewrite take_ge by (rewrite length_drop; lia).
    rewrite (drop_ge inp (Z.to_nat (i + maxsize))) by lia.
    apply app_nil_r.
  - split; [lia|]. split; [rewrite length_take, length_drop; lia|].
    split; [lia|].
    replace (Z.to_nat (i + maxsize)) with (Z.to_nat i + Z.to_nat maxsize)%nat by lia.
    rewrite <- drop_drop. apply take_drop.
Qed.

Lemma chunk_divisible (inp : list Z) (i : Z) :
  let len := Z.of_nat (length inp) in
  let l := if len <? i + maxsize then len - i else maxsize in
  len mod BlockSize = 0 → i mod BlockSize = 0 → l mod BlockSize = 0.
Proof.
  intros len l Hlen Hi. unfold l.
  destruct (Z.ltb_spec len (i + maxsize)); [|reflexivity].
  change BlockSize with 128 in *.
  apply Z.mod_divide in Hlen; [|lia]. apply Z.mod_divide in Hi; [|lia].
  apply Z.mod_divide; [lia|]. by apply Z.divide_sub_r.
Qed.

Section Driver.
Context `{BitPacking}.
Variables (rand : nat → Z) (inp : list Z).
Hypothesis inp_u32 : Forall is_u32 inp.
Hypothesis inp_blocks : Z.of_nat (length inp) mod BlockSize = 0.

(** The chunk loop of the encoder ends within its rounds, and the chunk
    loop of the decoder reads back what it wrote from counter [i] on. *)
Lemma decode_encode_chunks (rounds : nat) :
  ∀ (c : PFor) (k : nat) (i : Z) (out : list Z),
    length (miss c) = 128%nat → 0 <= i → i mod BlockSize = 0 →
    Z.max 0 (Z.of_nat (length inp) - i) <= Z.of_nat rounds →
    ∃ c' enc,
      encode_chunks rounds c rand k inp (Z.of_nat (length inp)) i out
        = Ok (c', out ++ enc) ∧
      length (miss c') = 128%nat ∧
      ∀ (drounds : nat) (pre post outd : list Z) (total : Z),
        (length enc ≤ drounds)%nat → 0 <= total →
        decode_chunks drounds (pre ++ enc ++ post)
          (total + Z.max 0 (Z.of_nat (length inp) - i))
          (Z.of_nat (length pre)) outd total =
        Ok (outd ++ drop (Z.to_nat i) inp,
            total + Z.max 0 (Z.of_nat (length inp) - i),
            Z.of_nat (length pre + length enc)).
Proof.
  induction rounds as [|rounds IH]; intros c k i out Hmiss Hi Hdiv Hrounds.
  - exists c, []. cbn [encode_chunks].
    destruct (Z.ltb_spec i (Z.of_nat (length inp))); [lia|].
    rewrite app_nil_r. split; [done|]. split; [done|].
    intros drounds pre post outd total _ Htotal.
    replace (Z.max 0 (Z.of_nat (length inp) - i)) with 0 by lia.
    rewrite Z.add_0_r, drop_ge, !app_nil_r, Nat.add_0_r by lia.
    destruct drounds; cbn [decode_chunks]; by rewrite Z.ltb_irrefl.
  - cbn [encode_chunks].
    destruct (Z.ltb_spec i (Z.of_nat (length inp))) as [Hlt|Hge].
    2:{ exists c, []. rewrite app_nil_r. split; [done|]. split; [done|].
        intros drounds pre post outd total _ Htotal.
        replace (Z.max 0 (Z.of_nat (length inp) - i)) with 0 by lia.
        rewrite Z.add_0_r, drop_ge, !app_nil_r, Nat.add_0_r by lia.
        destruct drounds; cbn [decode_chunks]; by rewrite Z.ltb_irrefl. }
    destruct (chunk_cut inp i ltac:(lia)) as (Hl & Hclen & Hrem & Hcat).
    pose proof (chunk_divisible inp i inp_blocks Hdiv) as Hcdiv.
    cbv zeta in Hcdiv.
    set (l := if Z.of_nat (length inp) <? i + maxsize
              then Z.of_nat (length inp) - i else maxsize) in *.
    set (chunk := take (Z.to_nat l) (drop (Z.to_nat i) inp)) in *.
    assert (Forall is_u32 chunk) as Hcu by (by apply Forall_take, Forall_drop).
    rewrite <- Hclen in Hcdiv.
    assert (∀ rest, ∃ c1 cenc,
              __encodeArray c (rand k) chunk = Ok (c1, cenc) ∧
              length (miss c1) = 128%nat ∧ (2 ≤ length cenc)%nat ∧
              __decodeArray (cenc ++ rest) =
              Ok (chunk, Z.of_nat (length chunk), Z.of_nat (length cenc)))
      as Hchunk.
    { intros rest.
      apply chunk_round_trip; [done | done | done | lia]. }
    destruct (Hchunk []) as (c1 & cenc & Henc & Hmiss1 & Hcl & _).
    rewrite Henc. cbn [after]. rewrite bind_Ok. cbn [fst snd].
    pose proof maxsize_eq as Hmax.
    destruct (IH c1 (S k) (i + maxsize) (out ++ cenc) Hmiss1 ltac:(lia))
      as (c' & enc' & Hrest & Hmiss' & Hdec).
    { change BlockSize with 128 in *. rewrite Hmax.
      rewrite Z.add_mod, Hdiv by lia. reflexivity. }
    { lia. }
    exists c', (cenc ++ enc'). rewrite (assoc_L (++)).
    split; [done|]. split; [done|].
    intros drounds pre post outd total Hdr Htotal.
    rewrite length_app in Hdr.
    destruct drounds as [|drounds]; [lia|].
    cbn [decode_chunks].
    destruct (Z.ltb_spec total (total + Z.max 0 (Z.of_nat (length inp) - i)));
      [|lia].
    rewrite Nat2Z.id, <- (assoc_L (++)), drop_app_length.
    destruct (Hchunk (enc' ++ post)) as (c1' & cenc' & Henc' & _ & _ & Hd).
    rewrite Henc in Henc'. injection Henc' as <- <-.
    rewrite Hd. cbn [after]. rewrite bind_Ok. cbn [fst snd].
    replace (Z.of_nat (length pre) + Z.of_nat (length cenc))
      with (Z.of_nat (length (pre ++ cenc))) by (rewrite length_app; lia).
    rewrite (assoc_L (++) pre cenc).
    replace (total + Z.max 0 (Z.of_nat (length inp) - i))
      with (total + Z.of_nat (length chunk)
            + Z.max 0 (Z.of_nat (length inp) - (i + maxsize))) by lia.
    rewrite Hdec by lia.
    do 2 f_equal; [f_equal|].
    + by rewrite <- (assoc_L (++)), Hcat.
    + rewrite !length_app. lia.
Qed.

End Driver.

(** * The array round trip *)

(** C1, as stated, fails: the first word of the output is the length
    narrowed to 32 bits, so for an array of 2^32 zeros (a multiple of
    BlockSize) it is 0, and decodeArray reports no value at all. *)
Lemma array_length_wraps :
  replicate (Z.to_nat (2 ^ 32)) 0 ≠ [] ∧
  Z.of_nat (length (replicate (Z.to_nat (2 ^ 32)) 0)) mod BlockSize = 0 ∧
  Forall is_u32 (replicate (Z.to_nat (2 ^ 32)) 0) ∧
  ∃ c' out,
    encodeArray PFor_new (λ _, 0) (replicate (Z.to_nat (2 ^ 32)) 0) = Ok (c', out) ∧
    decodeArray out = Ok ([], 0, 1) ∧
    decodeArray out ≠
      Ok (replicate (Z.to_nat (2 ^ 32)) 0,
          Z.of_nat (length (replicate (Z.to_nat (2 ^ 32)) 0)),
          Z.of_nat (length out)).
Proof.
  assert (Z.of_nat (length (replicate (Z.to_nat (2 ^ 32)) 0)) = 2 ^ 32) as Hlen
    by (rewrite length_replicate; apply Z2Nat.id; lia).
  assert (Forall is_u32 (replicate (Z.to_nat (2 ^ 32)) 0)) as Hu
    by (apply Forall_replicate; unfold is_u32; lia).
  assert (Z.of_nat (length (replicate (Z.to_nat (2 ^ 32)) 0)) mod BlockSize = 0)
    as Hdiv by (rewrite Hlen; reflexivity).
  split; [intros Hnil; rewrite Hnil in Hlen; cbn [length] in Hlen; lia|].
  split; [done|]. split; [done|].
  destruct (decode_encode_chunks (λ _, 0) _ Hu Hdiv
              (length (replicate (Z.to_nat (2 ^ 32)) 0)) PFor_new 0%nat 0
              [u32 (Z.of_nat (length (replicate (Z.to_nat (2 ^ 32)) 0)))]
              eq_refl ltac:(lia) eq_refl ltac:(lia))
    as (c' & enc & Henc & _ & _).
  exists c', ([u32 (Z.of_nat (length (replicate (Z.to_nat (2 ^ 32)) 0)))] ++ enc).
  split; [unfold encodeArray; exact Henc|].
  rewrite Hlen. change (u32 (2 ^ 32)) with 0. cbn [app].
  assert (decodeArray (0 :: enc) = Ok ([], 0, 1)) as Hd.
  { unfold decodeArray. by rewrite read_0, bind_Ok. }
  split; [exact Hd|]. rewrite Hd. intros Heq.
  pose proof (f_equal (λ r : result (list Z * Z * Z),
                         match r with Ok (_, n, _) => n | Err _ _ => 0 end) Heq)
    as Hz.
  cbv beta iota in Hz. lia.
Qed.

(** C1, amended: for every non-empty array of 32-bit values whose length
    is a multiple of BlockSize = 128 and below 2^32, decodeArray applied to
    the output of encodeArray yields the original array and exactly its
    number of values (and the cursor at the end of the output). *)
Theorem array_round_trip `{BitPacking}
    (c : PFor) (rand : nat → Z) (inp : list Z) :
  length (miss c) = Z.to_nat BlockSize →
  inp ≠ [] →
  Z.of_nat (length inp) mod BlockSize = 0 →
  Forall is_u32 inp →
  Z.of_nat (length inp) < 2 ^ 32 →
  ∃ c' out,
    encodeArray c rand inp = Ok (c', out) ∧
    decodeArray out = Ok (inp, Z.of_nat (length inp), Z.of_nat (length out)).
Proof.
  rewrite BlockSize_nat. intros Hmiss Hne Hdiv Hu Hlen.
  destruct (decode_encode_chunks rand inp Hu Hdiv (length inp) c 0%nat 0
              [u32 (Z.of_nat (length inp))] Hmiss ltac:(lia) eq_refl ltac:(lia))
    as (c' & enc & Henc & _ & Hdec).
  exists c', ([u32 (Z.of_nat (length inp))] ++ enc).
  split; [unfold encodeArray; exact Henc|].
  rewrite u32_small by lia. unfold decodeArray. cbn [app].
  rewrite read_0, bind_Ok.
  destruct (Z.eqb_spec (Z.of_nat (length inp)) 0) as [Hz|_].
  { destruct inp; [done | cbn [length] in Hz; lia]. }
  specialize (Hdec (length (Z.of_nat (length inp) :: enc))
                [Z.of_nat (length inp)] [] [] 0 ltac:(cbn [length]; lia) ltac:(lia)).
  rewrite app_nil_r, Z.add_0_l, Z.sub_0_r, Z.max_r in Hdec by lia.
  cbn [app length drop Z.to_nat] in Hdec. cbn [length].
  exact Hdec.
Qed.

Lemma array_round_trip_witness :
  ∃ c' out,
    encodeArray PFor_new (λ _, 0) (sparse_block ++ single_outlier) = Ok (c', out) ∧
    decodeArray out =
    Ok (sparse_block ++ single_outlier,
        Z.of_nat (length (sparse_block ++ single_outlier)), Z.of_nat (length out)).
Proof.
  apply (array_round_trip PFor_new (λ _, 0) (sparse_block ++ single_outlier)).
  - reflexivity.
  - vm_compute. discriminate.
  - reflexivity.
  - apply (bool_decide_unpack _). vm_compute. reflexivity.
  - vm_compute. reflexivity.
Defined.

(** C7: encoding an array of length 0 writes the single word 0; decoding
    that output yields no value, reports 0 values and returns the cursor
    one word past the start of the input, whatever follows the word. *)
Theorem empty_array_round_trip `{BitPacking}
    (c : PFor) (rand : nat → Z) (rest : list Z) :
  encodeArray c rand [] = Ok (c, [0]) ∧
  decodeArray ([0] ++ rest) = Ok ([], 0, 1).
Proof.
  split; [reflexivity|].
  unfold decodeArray. cbn [app]. by rewrite read_0, bind_Ok.
Qed.

(** * Lengths that are not a multiple of the block size *)

Section NotDivisible.
Context `{BitPacking}.

Lemma encodeArray_chunk_Err (c : PFor) (rand : Z) (inp : list Z) :
  Z.of_nat (length inp) mod BlockSize ≠ 0 →
  __encodeArray c rand inp = Err (logic_error (Z.of_nat (length inp)) BlockSize) [].
Proof.
  intros Hdiv. unfold __encodeArray, checkifdivisibleby.
  by destruct (Z.eqb_spec (Z.of_nat (length inp) mod BlockSize) 0).
Qed.

Lemma decodeArray_chunk_Err (nvalue : Z) (rest : list Z) :
  nvalue mod BlockSize ≠ 0 →
  __decodeArray (nvalue :: rest) = Err (logic_error nvalue BlockSize) [].
Proof.
  intros Hdiv. unfold __decodeArray, checkifdivisibleby.
  rewrite read_0, bind_Ok.
  by destruct (Z.eqb_spec (nvalue mod BlockSize) 0).
Qed.

(** The chunk loop reaches the last chunk and fails there. *)
Lemma encode_chunks_Err (rand : nat → Z) (inp : list Z) (rounds : nat) :
  Z.of_nat (length inp) mod BlockSize ≠ 0 →
  ∀ (c : PFor) (k : nat) (i : Z) (out : list Z),
    0 <= i < Z.of_nat (length inp) → i mod maxsize = 0 →
    Z.of_nat (length inp) - i <= Z.of_nat rounds →
    ∃ written,
      encode_chunks rounds c rand k inp (Z.of_nat (length inp)) i out =
      Err (logic_error (Z.of_nat (length inp) mod maxsize) BlockSize) (out ++ written).
Proof.
  intros Hndiv. pose proof maxsize_eq as Hmax.
  assert (∀ x, x mod maxsize = 0 → x mod BlockSize = 0) as Hmult.
  { intros x Hx. change BlockSize with 128. rewrite Hmax in Hx.
    apply Z.mod_divide in Hx; [|lia]. apply Z.mod_divide; [lia|].
    etrans; [|exact Hx]. exists (2 ^ 16). reflexivity. }
  induction rounds as [|rounds IH]; intros c k i out Hi Hstep Hrounds; [lia|].
  cbn [encode_chunks].
  destruct (Z.ltb_spec i (Z.of_nat (length inp))) as [_|]; [|lia].
  destruct (chunk_cut inp i Hi) as (Hl & Hclen & _ & _).
  assert (Z.of_nat (length inp) mod maxsize = (Z.of_nat (length inp) - i) mod maxsize)
    as Hsame.
  { apply Z.mod_divide in Hstep as [q Hq]; [|lia].
    rewrite Hq. replace (Z.of_nat (length inp) - q * maxsize)
      with (Z.of_nat (length inp) + (- q) * maxsize) by lia.
    by rewrite Z.mod_add by lia. }
  revert Hl Hclen.
  generalize (take (Z.to_nat (if Z.of_nat (length inp) <? i + maxsize
                              then Z.of_nat (length inp) - i else maxsize))
                   (drop (Z.to_nat i) inp)) as chunk.
  destruct (Z.ltb_spec (Z.of_nat (length inp)) (i + maxsize)) as [Hlast|Hfull];
    intros chunk Hl Hclen.
  - exists []. rewrite app_nil_r.
    rewrite encodeArray_chunk_Err.
    + cbn [after mbind result_bind].
      by rewrite app_nil_r, Hclen, Hsame, Z.mod_small by lia.
    + rewrite Hclen. intros Hz. apply Hndiv.
      rewrite <- (Z.sub_add i (Z.of_nat (length inp))).
      change BlockSize with 128 in *.
      rewrite Z.add_mod, Hz, (Hmult i Hstep) by lia. reflexivity.
  - rewrite encodeArray_chunk_Ok by (rewrite Hclen, Hmax; reflexivity).
    cbn [after]. rewrite bind_Ok. cbn [fst snd].
    assert (i + maxsize ≠ Z.of_nat (length inp)) as Hne.
    { intros Heq. apply Hndiv, Hmult. rewrite <- Heq.
      rewrite Z.add_mod, Hstep, Z.mod_same by lia.
      rewrite Hmax. reflexivity. }
    match goal with |- context [encode_chunks rounds ?c1 rand (S k) inp _ _ ?o] =>
      destruct (IH c1 (S k) (i + maxsize) o) as [written Hw] end.
    + lia.
    + rewrite Z.add_mod, Hstep, Z.mod_same by lia. rewrite Hmax. reflexivity.
    + lia.
    + eexists. rewrite Hw, <- (assoc_L (++)). reflexivity.
Qed.

End NotDivisible.

(** C8: __encodeArray with a length that is not a multiple of BlockSize
    = 128, and __decodeArray on a chunk whose declared length is not one,
    fail the check of checkifdivisibleby before anything is written; the
    chunk bound 2^(32 - 8 - 1) of the driver is a multiple of 128, so
    encodeArray with a total length that is not a multiple of 128 fails the
    same check on its last chunk, after the words of the chunks before
    it. *)
Theorem checkifdivisibleby_fails `{BitPacking}
    (c : PFor) (rand : nat → Z) (inp : list Z) (nvalue : Z) (rest : list Z) :
  Z.of_nat (length inp) mod BlockSize ≠ 0 →
  nvalue mod BlockSize ≠ 0 →
  __encodeArray c (rand 0%nat) inp =
    Err (logic_error (Z.of_nat (length inp)) BlockSize) [] ∧
  __decodeArray (nvalue :: rest) = Err (logic_error nvalue BlockSize) [] ∧
  maxsize = 2 ^ (32 - 8 - 1) ∧ maxsize mod BlockSize = 0 ∧
  ∃ written,
    encodeArray c rand inp =
    Err (logic_error (Z.of_nat (length inp) mod maxsize) BlockSize)
        ([u32 (Z.of_nat (length inp))] ++ written).
Proof.
  intros Hndiv Hnvalue. split; [by apply encodeArray_chunk_Err|].
  split; [by apply decodeArray_chunk_Err|].
  split; [reflexivity|]. split; [reflexivity|].
  unfold encodeArray.
  apply encode_chunks_Err; [done | | reflexivity | lia].
  destruct inp; [done|]. cbn [length]. lia.
Qed.

Lemma checkifdivisibleby_fails_witness :
  __encodeArray PFor_new 0 [1; 2; 3] = Err (logic_error 3 BlockSize) [] ∧
  __decodeArray [130; 4; 0] = Err (logic_error 130 BlockSize) [] ∧
  maxsize = 2 ^ (32 - 8 - 1) ∧ maxsize mod BlockSize = 0 ∧
  ∃ written,
    encodeArray PFor_new (λ _, 0) [1; 2; 3] =
    Err (logic_error (3 mod maxsize) BlockSize) ([u32 3] ++ written).
Proof.
  apply (checkifdivisibleby_fails PFor_new (λ _, 0) [1; 2; 3] 130 [4; 0]).
  - vm_compute. discriminate.
  - vm_compute. discriminate.
Defined.

(** * Header words of a chunk *)

Section Headers.
Context `{BitPacking}.

(** The position returned is the first exception of the block, if any. *)
Lemma firstexcept_is_head (c : PFor) (blk : list Z) (b : Z)
    (exc0 : list Z) :
  length (miss c) = 128%nat → length blk = 128%nat → Forall is_u32 blk →
  0 <= b <= 32 →
  firstexcept (compressblockPFOR c blk b exc0) =
  default 128%nat (head (exception_positions blk (2 ^ b))).
Proof.
  intros Hmiss Hlen Hu Hb.
  destruct (decide (b = 32)) as [->|Hb32].
  { rewrite compressblockPFOR_raw by done. cbn [firstexcept].
    rewrite exception_positions_none; [done|].
    intros k Hk.
    assert (is_u32 (blk !!! k)) as [_ Hlt]; [|lia].
    eapply Forall_lookup_1; [exact Hu|].
    apply list_lookup_lookup_total_lt. lia. }
  destruct (exception_positions blk (2 ^ b)) as [|first P'] eqn:HP.
  - by rewrite compressblockPFOR_clean by (done || lia).
  - destruct (compressblockPFOR_patched c blk b exc0 first Hmiss Hlen ltac:(lia))
      as (chain & st & _ & _ & _ & _ & ->); [by rewrite HP|]. done.
Qed.

(** The last of [S k] blocks, after the first [k]. *)
Lemma encode_blocks_last (k : nat) (c : PFor) (inp : list Z) (b : Z) :
  encode_blocks (S k) c inp b [] [] =
  (scratch (compressblockPFOR (encode_blocks k c inp b [] []).1.1
              (take 128 (drop (128 * k) inp)) b (encode_blocks k c inp b [] []).2),
   (encode_blocks k c inp b [] []).1.2 ++
   [block_header
      (Z.of_nat (firstexcept
                   (compressblockPFOR (encode_blocks k c inp b [] []).1.1
                      (take 128 (drop (128 * k) inp)) b
                      (encode_blocks k c inp b [] []).2)))
      (Z.of_nat (length (excepts
                   (compressblockPFOR (encode_blocks k c inp b [] []).1.1
                      (take 128 (drop (128 * k) inp)) b
                      (encode_blocks k c inp b [] []).2))))] ++
   words (compressblockPFOR (encode_blocks k c inp b [] []).1.1
            (take 128 (drop (128 * k) inp)) b (encode_blocks k c inp b [] []).2),
   excepts (compressblockPFOR (encode_blocks k c inp b [] []).1.1
              (take 128 (drop (128 * k) inp)) b (encode_blocks k c inp b [] []).2)).
Proof.
  rewrite <- Nat.add_1_r, encode_blocks_add.
  generalize (encode_blocks k c inp b [] []) as R. intros R.
  cbn [encode_blocks]. by rewrite compressblockPFOR_take.
Qed.

End Headers.

(** C6: in a chunk the driver hands to __encodeArray (a multiple of
    BlockSize = 128 values, at most 2^23), the header word of block k
    holds the first-exception position of the block (BlockSize when it has
    no exception) in its low ceil(log2(BlockSize + 1)) = 8 bits and the
    number of exceptions emitted through this block in the bits above, and
    the decoder recovers the two fields by masking with 2^8 - 1 and
    shifting right by 8. *)
Theorem block_header_layout `{BitPacking}
    (c : PFor) (rand : Z) (inp : list Z) (k : nat) :
  length (miss c) = Z.to_nat BlockSize →
  Forall is_u32 inp →
  Z.of_nat (length inp) mod BlockSize = 0 →
  Z.of_nat (length inp) <= maxsize →
  Z.of_nat k < Z.of_nat (length inp) / BlockSize →
  ∃ c' out header,
    __encodeArray c rand inp = Ok (c', out) ∧
    out !! (2 + k * (1 + 4 * Z.to_nat (determineBestBase rand inp)))%nat
      = Some header ∧
    blocksizeinbits = 8 ∧
    header =
      Z.of_nat (default (Z.to_nat BlockSize)
                  (head (exception_positions (drop (128 * k) inp)
                           (2 ^ determineBestBase rand inp)))) +
      2 ^ blocksizeinbits *
      Z.of_nat (length (encode_blocks (S k) c inp (determineBestBase rand inp) [] []).2) ∧
    0 <= header < 2 ^ 32 ∧
    header_firstexcept header = Z.land header (2 ^ 8 - 1) ∧
    header_exceptindex header = Z.shiftr header 8 ∧
    header_firstexcept header =
      Z.of_nat (default (Z.to_nat BlockSize)
                  (head (exception_positions (drop (128 * k) inp)
                           (2 ^ determineBestBase rand inp)))) ∧
    header_exceptindex header =
      Z.of_nat (length (encode_blocks (S k) c inp (determineBestBase rand inp) [] []).2).
Proof.
  rewrite BlockSize_nat. intros Hmiss Hu Hdiv Hmax Hk. rewrite maxsize_eq in Hmax.
  rewrite encodeArray_chunk_Ok by done.
  pose proof (block_count inp Hdiv) as Hn.
  pose proof (determineBestBase_range rand inp) as Hb.
  assert (Z.of_nat k < Z.of_nat (Z.to_nat (Z.of_nat (length inp) / BlockSize)))
    as Hkn by lia.
  clear Hk.
  remember (Z.to_nat (Z.of_nat (length inp) / BlockSize)) as n eqn:En.
  remember (determineBestBase rand inp) as b eqn:Eb. clear En Eb.
  destruct (encode_blocks_facts b k Hb c inp [] Hmiss ltac:(lia))
    as (Hmissk & Hbodyk & _).
  destruct (encode_blocks_facts b (S k) Hb c inp [] Hmiss ltac:(lia))
    as (_ & _ & more & Hexc & Hmore).
  assert (∃ tail,
    (encode_blocks n c inp b [] []).1.2 =
    (encode_blocks k c inp b [] []).1.2 ++
    [block_header
       (Z.of_nat (firstexcept (compressblockPFOR (encode_blocks k c inp b [] []).1.1
                                 (take 128 (drop (128 * k) inp)) b
                                 (encode_blocks k c inp b [] []).2)))
       (Z.of_nat (length (encode_blocks (S k) c inp b [] []).2))] ++ tail ∧
    (encode_blocks (S k) c inp b [] []).2 =
    excepts (compressblockPFOR (encode_blocks k c inp b [] []).1.1
               (take 128 (drop (128 * k) inp)) b (encode_blocks k c inp b [] []).2))
    as (tail & Hout & Hexk).
  { pose proof (encode_blocks_last k c inp b) as Hstep.
    replace n with (S k + (n - S k))%nat by lia.
    rewrite encode_blocks_add.
    rewrite <- (app_nil_r (encode_blocks (S k) c inp b [] []).1.2).
    rewrite encode_blocks_app. cbn [fst snd].
    rewrite Hstep. cbn [fst snd].
    eexists. split; [|reflexivity].
    rewrite <- !(assoc_L (++)). reflexivity. }
  set (Rk := encode_blocks k c inp b [] []) in *.
  set (blk := take 128 (drop (128 * k) inp)) in *.
  assert (length blk = 128%nat) as Hblk
    by (unfold blk; rewrite length_take, length_drop; lia).
  assert (Forall is_u32 blk) as Hublk by (by apply Forall_take, Forall_drop).
  pose proof (firstexcept_is_head Rk.1.1 blk b Rk.2 Hmissk Hblk
                Hublk Hb) as Hfirst.
  unfold blk in Hfirst at 2. rewrite exception_positions_take in Hfirst.
  destruct (compressblockPFOR_summary Rk.1.1 blk b Rk.2 Hmissk Hblk Hb)
    as (_ & _ & Hf128 & _).
  rewrite Hfirst in Hout, Hf128.
  destruct (block_header_fields
              (Z.of_nat (default 128%nat
                           (head (exception_positions (drop (128 * k) inp) (2 ^ b)))))
              (Z.of_nat (length (encode_blocks (S k) c inp b [] []).2)))
    as (Hsum & Hrange & Hlow & Hhigh).
  { lia. }
  { rewrite Hexc, length_app. cbn [length]. lia. }
  eexists _, _, _. split; [reflexivity|]. split.
  { rewrite Hout.
    change ([u32 (Z.of_nat (length inp)); b] ++ ?l) with ([u32 (Z.of_nat (length inp)); b] ++ l).
    rewrite lookup_app_r by (cbn [length]; lia).
    rewrite <- !(assoc_L (++)).
    rewrite lookup_app_r by (cbn [length]; lia).
    replace (2 + k * (1 + 4 * Z.to_nat b) - length [u32 (Z.of_nat (length inp)); b]
             - length Rk.1.2)%nat with 0%nat by (cbn [length]; lia).
    reflexivity. }
  split; [reflexivity|].
  split; [exact Hsum|]. split; [exact Hrange|].
  split; [reflexivity|]. split; [reflexivity|].
  split; [exact Hlow | exact Hhigh].
Qed.

Lemma block_header_layout_witness :
  ∃ c' out header,
    __encodeArray PFor_new 0 (single_outlier ++ sparse_block) = Ok (c', out) ∧
    out !! (2 + 1 * (1 + 4 * Z.to_nat (determineBestBase 0 (single_outlier ++ sparse_block))))%nat
      = Some header ∧
    blocksizeinbits = 8 ∧
    header =
      Z.of_nat (default (Z.to_nat BlockSize)
                  (head (exception_positions (drop (128 * 1) (single_outlier ++ sparse_block))
                           (2 ^ determineBestBase 0 (single_outlier ++ sparse_block))))) +
      2 ^ blocksizeinbits *
      Z.of_nat (length (encode_blocks 2 PFor_new (single_outlier ++ sparse_block)
                          (determineBestBase 0 (single_outlier ++ sparse_block)) [] []).2) ∧
    0 <= header < 2 ^ 32 ∧
    header_firstexcept header = Z.land header (2 ^ 8 - 1) ∧
    header_exceptindex header = Z.shiftr header 8 ∧
    header_firstexcept header =
      Z.of_nat (default (Z.to_nat BlockSize)
                  (head (exception_positions (drop (128 * 1) (single_outlier ++ sparse_block))
                           (2 ^ determineBestBase 0 (single_outlier ++ sparse_block))))) ∧
    header_exceptindex header =
      Z.of_nat (length (encode_blocks 2 PFor_new (single_outlier ++ sparse_block)
                          (determineBestBase 0 (single_outlier ++ sparse_block)) [] []).2).
Proof.
  apply (block_header_layout PFor_new 0 (single_outlier ++ sparse_block) 1).
  - reflexivity.
  - apply (bool_decide_unpack _). vm_compute. reflexivity.
  - reflexivity.
  - vm_compute. discriminate.
  - vm_compute. reflexivity.
Defined.

(** * Determinism of the width selection *)

(** C9: for an array of 1 to 65536 values the sample of determineBestBase
    starts at offset 0 and is the whole array, whatever rand() would
    return, so two calls on the same input return the same width; the
    start of the sample depends on rand() for longer arrays only (as for
    65538 values). *)
Theorem determineBestBase_deterministic (rand1 rand2 : Z) (inp : list Z) :
  1 <= Z.of_nat (length inp) <= 65536 →
  rstart_of rand1 (Z.of_nat (length inp)) = 0 ∧
  samplesize_of (Z.of_nat (length inp)) = Z.of_nat (length inp) ∧
  take (Z.to_nat (samplesize_of (Z.of_nat (length inp))))
       (drop (Z.to_nat (rstart_of rand1 (Z.of_nat (length inp)))) inp) = inp ∧
  determineBestBase rand1 inp = determineBestBase rand2 inp ∧
  rstart_of 0 65538 ≠ rstart_of 1 65538.
Proof.
  intros Hsize.
  assert (samplesize_of (Z.of_nat (length inp)) = Z.of_nat (length inp)) as Hsample.
  { unfold samplesize_of, defaultsamplesize.
    by destruct (Z.ltb_spec (64 * 1024) (Z.of_nat (length inp))); [lia|]. }
  assert (∀ rand, rstart_of rand (Z.of_nat (length inp)) = 0) as Hstart.
  { intros rand. unfold rstart_of. by rewrite Hsample, Z.ltb_irrefl. }
  split; [apply Hstart|]. split; [exact Hsample|]. split; [|split].
  - rewrite Hstart, Hsample, Nat2Z.id. cbn [Z.to_nat drop]. by rewrite take_ge.
  - unfold determineBestBase. by rewrite !Hstart.
  - vm_compute. discriminate.
Qed.

Lemma determineBestBase_deterministic_witness :
  rstart_of 12345 (Z.of_nat (length sparse_block)) = 0 ∧
  samplesize_of (Z.of_nat (length sparse_block)) = Z.of_nat (length sparse_block) ∧
  take (Z.to_nat (samplesize_of (Z.of_nat (length sparse_block))))
       (drop (Z.to_nat (rstart_of 12345 (Z.of_nat (length sparse_block)))) sparse_block)
    = sparse_block ∧
  determineBestBase 12345 sparse_block = determineBestBase 678 sparse_block ∧
  rstart_of 0 65538 ≠ rstart_of 1 65538.
Proof.
  apply (determineBestBase_deterministic 12345 678 sparse_block).
  vm_compute. split; discriminate.
Defined.

(** * The exception buffer *)

(** C10: the values compressblockPFOR appends to the exception output are
    the values at strictly increasing positions of the block, so a block
    emits at most BlockSize = 128 of them; through any number of blocks of
    a chunk __encodeArray has emitted at most 128 per block, hence at most
    len in all, the capacity reserved for the exception buffer. *)
Theorem exceptions_within_capacity `{BitPacking}
    (c : PFor) (rand : Z) (inp : list Z) (b : Z) (exc0 : list Z) (k : nat) :
  length (miss c) = Z.to_nat BlockSize →
  Z.of_nat (length inp) mod BlockSize = 0 →
  (Z.to_nat BlockSize ≤ length inp)%nat →
  0 <= b <= 32 →
  (k ≤ Z.to_nat (Z.of_nat (length inp) / BlockSize))%nat →
  (∃ chain,
     StronglySorted lt chain ∧
     Forall (λ p, p < Z.to_nat BlockSize)%nat chain ∧
     excepts (compressblockPFOR c inp b exc0) = exc0 ++ ((inp !!!.) <$> chain) ∧
     (length chain ≤ Z.to_nat BlockSize)%nat) ∧
  (length (encode_blocks k c inp (determineBestBase rand inp) [] []).2
   ≤ Z.to_nat BlockSize * k)%nat ∧
  (length (encode_blocks k c inp (determineBestBase rand inp) [] []).2
   ≤ length inp)%nat.
Proof.
  rewrite BlockSize_nat. intros Hmiss Hdiv Hone Hb Hk.
  pose proof (block_count inp Hdiv) as Hn.
  split.
  - rewrite <- compressblockPFOR_take.
    destruct (compressblockPFOR_summary c (take 128 inp) b exc0 Hmiss
                ltac:(rewrite length_take; lia) Hb)
      as (_ & _ & _ & chain & Hsorted & Hbound & Hex).
    exists chain. split; [done|]. split; [done|]. split.
    + rewrite Hex. f_equal. apply Forall_fmap_ext_1.
      eapply Forall_impl; [exact Hbound|]. intros p Hp. simpl in Hp.
      rewrite !list_lookup_total_alt, lookup_take. by case_decide; [|lia].
    + pose proof (sorted_below_length chain 0 128 Hsorted) as Hle.
      rewrite Nat.sub_0_r in Hle. apply Hle.
      eapply Forall_impl; [exact Hbound|]. simpl. lia.
  - destruct (encode_blocks_facts (determineBestBase rand inp) k
                (determineBestBase_range rand inp) c inp [] Hmiss ltac:(lia))
      as (_ & _ & more & -> & Hmore).
    cbn [app]. lia.
Qed.

Lemma exceptions_within_capacity_witness :
  (∃ chain,
     StronglySorted lt chain ∧
     Forall (λ p, p < Z.to_nat BlockSize)%nat chain ∧
     excepts (compressblockPFOR PFor_new (sparse_block ++ single_outlier) 2 [7]) =
       [7] ++ (((sparse_block ++ single_outlier) !!!.) <$> chain) ∧
     (length chain ≤ Z.to_nat BlockSize)%nat) ∧
  (length (encode_blocks 2 PFor_new (sparse_block ++ single_outlier)
             (determineBestBase 0 (sparse_block ++ single_outlier)) [] []).2
   ≤ Z.to_nat BlockSize * 2)%nat ∧
  (length (encode_blocks 2 PFor_new (sparse_block ++ single_outlier)
             (determineBestBase 0 (sparse_block ++ single_outlier)) [] []).2
   ≤ length (sparse_block ++ single_outlier))%nat.
Proof.
  apply (exceptions_within_capacity PFor_new 0 (sparse_block ++ single_outlier) 2 [7] 2).
  - reflexivity.
  - reflexivity.
  - vm_compute. lia.
  - lia.
  - vm_compute. lia.
Defined.

(** * Further properties *)

(** X1: the width determineBestBase selects is between 0 and 32, and it is
    0 for an empty array. *)
Theorem determineBestBase_width (rand : Z) (inp : list Z) :
  0 <= determineBestBase rand inp <= 32 ∧ determineBestBase rand [] = 0.
Proof. split; [apply determineBestBase_range | reflexivity]. Qed.



(** ** Packing a whole block *)

(** X3: packblock writes BlockSize * bit / 32 words for a block of 128
    values, and unpackblock reads the block back from these words, whatever
    follows them, when every value of the block fits in bit bits. *)
Theorem unpackblock_packblock_block `{BitPacking}
    (source rest : list Z) (bit : Z) :
  0 <= bit <= 32 →
  length source = Z.to_nat BlockSize →
  Forall (λ v, 0 <= v < 2 ^ bit) source →
  Z.of_nat (length (packblock source bit)) = BlockSize * bit / 32 ∧
  unpackblock (packblock source bit ++ rest) bit = source.
Proof.
  rewrite BlockSize_nat. intros Hb Hlen Hfit. split.
  - rewrite packblock_length by lia. change BlockSize with 128.
    replace (128 * bit) with (4 * bit * 32) by lia.
    rewrite Z.div_mul by lia. lia.
  - apply list_eq. intros j.
    destruct (source !! j) as [v|] eqn:Hv.
    + pose proof (lookup_lt_Some _ _ _ Hv) as Hj.
      apply unpackblock_packblock; [done | lia | lia | done |].
      by apply (proj1 (Forall_lookup _ _) Hfit j v).
    + apply lookup_ge_None. apply lookup_ge_None in Hv.
      rewrite unpackblock_length. lia.
Qed.

Lemma unpackblock_packblock_block_witness :
  Z.of_nat (length (packblock (replicate 128 5) 3)) = BlockSize * 3 / 32 ∧
  unpackblock (packblock (replicate 128 5) 3 ++ [9]) 3 = replicate 128 5.
Proof.
  apply (unpackblock_packblock_block (replicate 128 5) [9] 3).
  - lia.
  - reflexivity.
  - apply (bool_decide_unpack _). vm_compute. reflexivity.
Defined.

(** ** The chain of a block *)

(** X4: at a width below 32 the values compressblockPFOR emits for a block
    are those at the positions of a chain that increases strictly, holds
    every position whose value does not fit, starts at the first of them
    and ends at the last; two neighbours of the chain are at most 2^b
    apart, and the slot of the first of the two holds their distance minus
    one in the copy that is packed. *)
Theorem exception_chain_structure `{BitPacking}
    (c : PFor) (blk : list Z) (b : Z) (exc0 : list Z) :
  length (miss c) = Z.to_nat BlockSize →
  length blk = Z.to_nat BlockSize →
  0 <= b < 32 →
  ∃ chain,
    excepts (compressblockPFOR c blk b exc0) = exc0 ++ ((blk !!!.) <$> chain) ∧
    StronglySorted lt chain ∧
    Forall (λ p, p < Z.to_nat BlockSize)%nat chain ∧
    (∀ p, p ∈ exception_positions blk (2 ^ b) → p ∈ chain) ∧
    head chain = head (exception_positions blk (2 ^ b)) ∧
    last chain = last (exception_positions blk (2 ^ b)) ∧
    ∀ k p q, chain !! k = Some p → chain !! S k = Some q →
      0 < Z.of_nat q - Z.of_nat p <= 2 ^ b ∧
      codedcopy (scratch (compressblockPFOR c blk b exc0)) !! p =
        Some (Z.of_nat q - Z.of_nat p - 1).
Proof.
  rewrite BlockSize_nat. intros Hmiss Hlen Hb.
  destruct (head (exception_positions blk (2 ^ b))) as [first|] eqn:Hhead.
  - destruct (compressblockPFOR_patched c blk b exc0 first Hmiss Hlen Hb Hhead)
      as (chain & st & L & Hfirst & Hlast & Hin & ->).
    cbn [excepts scratch codedcopy].
    exists chain. split; [apply (links_exceptions _ _ _ _ _ L)|].
    split; [apply (links_sorted _ _ _ _ _ L)|]. split.
    { eapply Forall_impl; [apply (links_below _ _ _ _ _ L)|].
      intros p Hp. simpl in Hp.
      pose proof (links_bound _ _ _ _ _ L). lia. }
    split; [done|]. split; [done|]. split.
    { rewrite Hlast. apply (links_last _ _ _ _ _ L). }
    intros k p q Hp Hq.
    destruct (links_gaps _ _ _ _ _ L k p q Hp Hq) as (Hlt & Hgap & Hcode).
    split; [lia | done].
  - assert (exception_positions blk (2 ^ b) = []) as Hnone
      by (by destruct (exception_positions blk (2 ^ b))).
    rewrite compressblockPFOR_clean by done.
    cbn [excepts scratch codedcopy]. rewrite Hnone.
    exists []. split; [by rewrite app_nil_r|].
    split; [constructor|]. split; [constructor|].
    split; [done|]. split; [done|]. split; [done|].
    intros k p q Hp. by rewrite lookup_nil in Hp.
Qed.

Lemma exception_chain_structure_witness :
  ∃ chain,
    excepts (compressblockPFOR PFor_new sparse_block 2 [7]) =
      [7] ++ ((sparse_block !!!.) <$> chain) ∧
    StronglySorted lt chain ∧
    Forall (λ p, p < Z.to_nat BlockSize)%nat chain ∧
    (∀ p, p ∈ exception_positions sparse_block (2 ^ 2) → p ∈ chain) ∧
    head chain = head (exception_positions sparse_block (2 ^ 2)) ∧
    last chain = last (exception_positions sparse_block (2 ^ 2)) ∧
    ∀ k p q, chain !! k = Some p → chain !! S k = Some q →
      0 < Z.of_nat q - Z.of_nat p <= 2 ^ 2 ∧
      codedcopy (scratch (compressblockPFOR PFor_new sparse_block 2 [7])) !! p =
        Some (Z.of_nat q - Z.of_nat p - 1).
Proof.
  apply (exception_chain_structure PFor_new sparse_block 2 [7]).
  - reflexivity.
  - reflexivity.
  - lia.
Defined.

(** ** The reusable buffers *)

Section Buffers.
Context `{BitPacking}.

(** What [compressblockPFOR] writes is a function of the positions of the
    exceptions; the buffer [miss] is overwritten before it is read. *)
Lemma compressblockPFOR_positions (c : PFor) (inp : list Z) (b : Z) (exc0 : list Z) :
  length (miss c) = 128%nat → 0 <= b < 32 →
  compressblockPFOR c inp b exc0 =
  match exception_positions inp (2 ^ b) with
  | [] =>
      {| firstexcept := 128; words := packblock inp b; excepts := exc0;
         scratch := {| codedcopy := codedcopy c;
                       miss := (scan_exceptions inp (2 ^ b) (miss c)).1 |} |}
  | first :: more =>
      {| firstexcept := first;
         words := packblock (copy (patch_positions inp (2 ^ b) exc0 first more)) b;
         excepts := exceptions (patch_positions inp (2 ^ b) exc0 first more);
         scratch := {| codedcopy := copy (patch_positions inp (2 ^ b) exc0 first more);
                       miss := (scan_exceptions inp (2 ^ b) (miss c)).1 |} |}
  end.
Proof.
  intros Hmiss Hb. unfold compressblockPFOR, patch_positions.
  destruct (Z.eqb_spec b 32) as [|_]; [lia|].
  rewrite maxgap_eq by done.
  destruct (scan_exceptions_spec inp (2 ^ b) (miss c) Hmiss) as (Hl & Hc & Ht).
  set (misses := (scan_exceptions inp (2 ^ b) (miss c)).1) in *.
  set (n := (scan_exceptions inp (2 ^ b) (miss c)).2) in *.
  clearbody misses n.
  destruct (exception_positions inp (2 ^ b)) as [|first more] eqn:HP.
  - cbn [length] in Hc. subst n. cbn [Nat.eqb]. by rewrite BlockSize_nat.
  - cbn [length] in Hc. subst n. cbn [Nat.eqb]. rewrite BlockSize_nat.
    destruct misses as [|m0 ms]; [discriminate Ht|].
    cbn [take] in Ht. injection Ht as -> Hms.
    change ((first :: ms) !!! 0%nat) with first.
    replace (S (length more) - 1)%nat with (length more) by lia.
    assert (1 + length more ≤ length (first :: ms))%nat as Hle.
    { pose proof (f_equal length Hms) as Hk. rewrite length_take in Hk.
      cbn [length]. lia. }
    pose proof (foldl_indices
                  (λ st cur, link cur (compulsory 128 (2 ^ b) cur st))
                  (first :: ms)) as Esat.
    pose proof (foldl_indices (λ st cur, link cur st) (first :: ms)) as Eplain.
    unfold patch_saturating, patch_plain.
    rewrite Esat, Eplain by exact Hle.
    cbn [drop]. rewrite drop_0, Hms. reflexivity.
Qed.

Lemma compressblockPFOR_buffers (c : PFor) (inp : list Z) (b : Z) (exc0 : list Z) :
  length (miss c) = 128%nat →
  length (miss (scratch (compressblockPFOR c inp b exc0))) = 128%nat.
Proof.
  intros Hmiss. unfold compressblockPFOR.
  destruct (b =? 32); [done|].
  destruct (scan_exceptions_spec inp (u32 (Z.shiftl 1 b)) (miss c) Hmiss)
    as (Hl & _ & _).
  by destruct (_ =? _)%nat.
Qed.

Lemma compressblockPFOR_same (c1 c2 : PFor) (inp : list Z) (b : Z) (exc0 : list Z) :
  length (miss c1) = 128%nat → length (miss c2) = 128%nat → 0 <= b <= 32 →
  firstexcept (compressblockPFOR c1 inp b exc0) =
    firstexcept (compressblockPFOR c2 inp b exc0) ∧
  words (compressblockPFOR c1 inp b exc0) = words (compressblockPFOR c2 inp b exc0) ∧
  excepts (compressblockPFOR c1 inp b exc0) = excepts (compressblockPFOR c2 inp b exc0).
Proof.
  intros H1 H2 Hb. destruct (decide (b = 32)) as [->|Hne].
  - unfold compressblockPFOR. by cbn [Z.eqb Pos.eqb].
  - rewrite !compressblockPFOR_positions by (done || lia).
    destruct (exception_positions inp (2 ^ b)); cbn [firstexcept words excepts];
      by split.
Qed.

End Buffers.

Section BuffersArray.
Context `{BitPacking}.

Lemma encode_blocks_same (b : Z) (n : nat) :
  0 <= b <= 32 →
  ∀ (c1 c2 : PFor) (inp out excs : list Z),
    length (miss c1) = 128%nat → length (miss c2) = 128%nat →
    (encode_blocks n c1 inp b out excs).1.2 = (encode_blocks n c2 inp b out excs).1.2 ∧
    (encode_blocks n c1 inp b out excs).2 = (encode_blocks n c2 inp b out excs).2 ∧
    length (miss (encode_blocks n c1 inp b out excs).1.1) = 128%nat ∧
    length (miss (encode_blocks n c2 inp b out excs).1.1) = 128%nat.
Proof.
  intros Hb. induction n as [|n IH]; intros c1 c2 inp out excs H1 H2.
  - by cbn [encode_blocks fst snd].
  - cbn [encode_blocks].
    destruct (compressblockPFOR_same c1 c2 inp b excs H1 H2 Hb) as (-> & -> & ->).
    apply IH; by apply compressblockPFOR_buffers.
Qed.

Lemma encodeArray_chunk_same (c1 c2 : PFor) (rand : Z) (inp : list Z) :
  length (miss c1) = 128%nat → length (miss c2) = 128%nat →
  same_written (__encodeArray c1 rand inp) (__encodeArray c2 rand inp).
Proof.
  intros H1 H2. unfold __encodeArray.
  destruct (checkifdivisibleby (Z.of_nat (length inp)) BlockSize) as [[]|e w];
    [|by cbn].
  rewrite !bind_Ok. cbn [same_written].
  destruct (encode_blocks_same (determineBestBase rand inp)
              (Z.to_nat (Z.of_nat (length inp) / BlockSize))
              (determineBestBase_range rand inp) c1 c2 inp [] [] H1 H2)
    as (-> & -> & Hm1 & Hm2).
  done.
Qed.

Lemma encode_chunks_same (rand : nat → Z) (inp : list Z) (len : Z) (rounds : nat) :
  ∀ (c1 c2 : PFor) (k : nat) (i : Z) (out : list Z),
    length (miss c1) = 128%nat → length (miss c2) = 128%nat →
    same_written (encode_chunks rounds c1 rand k inp len i out)
                 (encode_chunks rounds c2 rand k inp len i out).
Proof.
  induction rounds as [|rounds IH]; intros c1 c2 k i out H1 H2.
  - cbn [encode_chunks]. by destruct (i <? len).
  - cbn [encode_chunks]. destruct (i <? len); [|done].
    generalize (take (Z.to_nat (if len <? i + maxsize then len - i else maxsize))
                     (drop (Z.to_nat i) inp)) as chunk.
    intros chunk.
    pose proof (encodeArray_chunk_same c1 c2 (rand k) chunk H1 H2) as Hsame.
    destruct (__encodeArray c1 (rand k) chunk) as [[c1' o1]|e1 w1],
             (__encodeArray c2 (rand k) chunk) as [[c2' o2]|e2 w2];
      cbn [same_written] in Hsame; try done.
    + destruct Hsame as (-> & Hm1 & Hm2). cbn [after]. rewrite !bind_Ok.
      cbn [fst snd]. by apply IH.
    + destruct Hsame as (-> & ->). by cbn.
Qed.

End BuffersArray.

(** X5: what compressblockPFOR returns and writes for a block does not
    depend on what the reusable buffers of the codec hold when it is
    called, and it leaves the buffer of the positions at its size. *)
Theorem compressblockPFOR_ignores_buffers `{BitPacking}
    (c1 c2 : PFor) (inp : list Z) (b : Z) (exc0 : list Z) :
  length (miss c1) = Z.to_nat BlockSize →
  length (miss c2) = Z.to_nat BlockSize →
  0 <= b <= 32 →
  firstexcept (compressblockPFOR c1 inp b exc0) =
    firstexcept (compressblockPFOR c2 inp b exc0) ∧
  words (compressblockPFOR c1 inp b exc0) = words (compressblockPFOR c2 inp b exc0) ∧
  excepts (compressblockPFOR c1 inp b exc0) = excepts (compressblockPFOR c2 inp b exc0) ∧
  length (miss (scratch (compressblockPFOR c1 inp b exc0))) = Z.to_nat BlockSize.
Proof.
  rewrite BlockSize_nat. intros H1 H2 Hb.
  destruct (compressblockPFOR_same c1 c2 inp b exc0 H1 H2 Hb) as (Hf & Hw & He).
  split; [exact Hf|]. split; [exact Hw|]. split; [exact He|].
  apply compressblockPFOR_buffers. exact H1.
Qed.

Lemma compressblockPFOR_ignores_buffers_witness :
  firstexcept (compressblockPFOR PFor_new sparse_block 2 [7]) =
    firstexcept (compressblockPFOR
                   {| codedcopy := [1; 2]; miss := replicate 128 99%nat |}
                   sparse_block 2 [7]) ∧
  words (compressblockPFOR PFor_new sparse_block 2 [7]) =
    words (compressblockPFOR
             {| codedcopy := [1; 2]; miss := replicate 128 99%nat |}
             sparse_block 2 [7]) ∧
  excepts (compressblockPFOR PFor_new sparse_block 2 [7]) =
    excepts (compressblockPFOR
               {| codedcopy := [1; 2]; miss := replicate 128 99%nat |}
               sparse_block 2 [7]) ∧
  length (miss (scratch (compressblockPFOR PFor_new sparse_block 2 [7]))) =
    Z.to_nat BlockSize.
Proof.
  apply (compressblockPFOR_ignores_buffers PFor_new
           {| codedcopy := [1; 2]; miss := replicate 128 99%nat |}
           sparse_block 2 [7]).
  - reflexivity.
  - reflexivity.
  - lia.
Defined.

(** X6: two codecs whose buffers differ encode an array alike: encodeArray
    fails in the same way with the same words written, or writes the same
    words, and then both codecs can be used again. *)
Theorem encodeArray_ignores_buffers `{BitPacking}
    (c1 c2 : PFor) (rand : nat → Z) (inp : list Z) :
  length (miss c1) = Z.to_nat BlockSize →
  length (miss c2) = Z.to_nat BlockSize →
  match encodeArray c1 rand inp, encodeArray c2 rand inp with
  | Ok (c1', o1), Ok (c2', o2) =>
      o1 = o2 ∧
      length (miss c1') = Z.to_nat BlockSize ∧
      length (miss c2') = Z.to_nat BlockSize
  | Err e1 w1, Err e2 w2 => e1 = e2 ∧ w1 = w2
  | _, _ => False
  end.
Proof.
  intros H1 H2. change (Z.to_nat BlockSize) with 128%nat in *.
  unfold encodeArray.
  pose proof (encode_chunks_same rand inp (Z.of_nat (length inp)) (length inp)
                c1 c2 0%nat 0 [u32 (Z.of_nat (length inp))] H1 H2) as Hsame.
  unfold same_written in Hsame. exact Hsame.
Qed.

Lemma encodeArray_ignores_buffers_witness :
  match encodeArray PFor_new (λ _, 0) (sparse_block ++ single_outlier),
        encodeArray {| codedcopy := [1; 2]; miss := replicate 128 99%nat |}
                    (λ _, 0) (sparse_block ++ single_outlier) with
  | Ok (c1', o1), Ok (c2', o2) =>
      o1 = o2 ∧
      length (miss c1') = Z.to_nat BlockSize ∧
      length (miss c2') = Z.to_nat BlockSize
  | Err e1 w1, Err e2 w2 => e1 = e2 ∧ w1 = w2
  | _, _ => False
  end.
Proof.
  apply (encodeArray_ignores_buffers PFor_new
           {| codedcopy := [1; 2]; miss := replicate 128 99%nat |}
           (λ _, 0) (sparse_block ++ single_outlier)).
  - reflexivity.
  - reflexivity.
Defined.

(** ** The outputs of a chunk grow block by block *)

(** X7: through the blocks of a chunk the words and the exceptions written
    so far only grow: what __encodeArray has written after k blocks is a
    prefix of what it has written after m >= k blocks, and the exceptions
    added in between are at most 128 per block. *)
Theorem encode_blocks_append_only `{BitPacking}
    (c : PFor) (inp : list Z) (b : Z) (k m : nat) :
  length (miss c) = Z.to_nat BlockSize →
  0 <= b <= 32 →
  (k ≤ m)%nat →
  (Z.to_nat BlockSize * m ≤ length inp)%nat →
  (encode_blocks k c inp b [] []).1.2 `prefix_of` (encode_blocks m c inp b [] []).1.2 ∧
  ∃ more,
    (encode_blocks m c inp b [] []).2 = (encode_blocks k c inp b [] []).2 ++ more ∧
    (length more ≤ Z.to_nat BlockSize * (m - k))%nat.
Proof.
  rewrite BlockSize_nat. intros Hmiss Hb Hkm Hlen.
  pose proof (encode_blocks_add k (m - k) c inp b [] []) as Hadd.
  replace (k + (m - k))%nat with m in Hadd by lia.
  rewrite Hadd. clear Hadd.
  destruct (encode_blocks_facts b k Hb c inp [] Hmiss ltac:(lia)) as (Hmk & _ & _).
  generalize dependent (encode_blocks k c inp b [] []).
  intros [[ck outk] exck] Hmk. cbn [fst snd] in *.
  pose proof (encode_blocks_app (m - k) ck (drop (128 * k) inp) b outk [] exck) as E.
  rewrite app_nil_r in E. rewrite E. cbn [fst snd].
  split; [by eexists|].
  destruct (encode_blocks_facts b (m - k) Hb ck (drop (128 * k) inp) exck Hmk)
    as (_ & _ & more & Hex & Hmore).
  { rewrite length_drop. lia. }
  by exists more.
Qed.

Lemma encode_blocks_append_only_witness :
  (encode_blocks 1 PFor_new (sparse_block ++ single_outlier) 2 [] []).1.2
    `prefix_of`
  (encode_blocks 2 PFor_new (sparse_block ++ single_outlier) 2 [] []).1.2 ∧
  ∃ more,
    (encode_blocks 2 PFor_new (sparse_block ++ single_outlier) 2 [] []).2 =
    (encode_blocks 1 PFor_new (sparse_block ++ single_outlier) 2 [] []).2 ++ more ∧
    (length more ≤ Z.to_nat BlockSize * (2 - 1))%nat.
Proof.
  apply (encode_blocks_append_only PFor_new (sparse_block ++ single_outlier) 2 1 2).
  - reflexivity.
  - lia.
  - lia.
  - vm_compute. lia.
Defined.

(** ** Encoded arrays end where the encoder stopped *)

(** X8: for an array of 32-bit values whose length is a multiple of 128
    and below 2^32, decodeArray reads the output of encodeArray back
    whatever words follow it, and returns the cursor at the end of that
    output: encoded arrays written one after the other are decoded one
    after the other. *)
Theorem decodeArray_stops_at_end `{BitPacking}
    (c : PFor) (rand : nat → Z) (inp rest : list Z) :
  length (miss c) = Z.to_nat BlockSize →
  Z.of_nat (length inp) mod BlockSize = 0 →
  Forall is_u32 inp →
  Z.of_nat (length inp) < 2 ^ 32 →
  ∃ c' out,
    encodeArray c rand inp = Ok (c', out) ∧
    decodeArray (out ++ rest) =
      Ok (inp, Z.of_nat (length inp), Z.of_nat (length out)) ∧
    decodeArray (drop (length out) (out ++ rest)) = decodeArray rest.
Proof.
  rewrite BlockSize_nat. intros Hmiss Hdiv Hu Hlen.
  destruct (decode_encode_chunks rand inp Hu Hdiv (length inp) c 0%nat 0
              [u32 (Z.of_nat (length inp))] Hmiss ltac:(lia) eq_refl ltac:(lia))
    as (c' & enc & Henc & _ & Hdec).
  exists c', ([u32 (Z.of_nat (length inp))] ++ enc).
  split; [unfold encodeArray; exact Henc|].
  split; [|by rewrite drop_app_length].
  rewrite u32_small by lia. unfold decodeArray. cbn [app].
  rewrite read_0, bind_Ok.
  destruct (Z.eqb_spec (Z.of_nat (length inp)) 0) as [Hz|Hnz].
  { destruct inp; [|cbn [length] in Hz; lia].
    clear Hdec.
    cbn [encode_chunks length Z.of_nat Z.ltb Z.compare] in Henc.
    assert (enc = []) as ->.
    { pose proof (f_equal (λ r : result (PFor * list Z),
                             match r with Ok (_, o) => length o | Err _ _ => 0%nat end)
                          Henc) as Hl.
      cbv beta iota in Hl. rewrite length_app in Hl. cbn [length] in Hl.
      destruct enc; [done | cbn [length] in Hl; lia]. }
    reflexivity. }
  specialize (Hdec (length (Z.of_nat (length inp) :: enc ++ rest))
                [Z.of_nat (length inp)] rest [] 0
                ltac:(cbn [length]; rewrite length_app; lia) ltac:(lia)).
  rewrite Z.add_0_l, Z.sub_0_r, Z.max_r in Hdec by lia.
  cbn [app length drop Z.to_nat] in Hdec. cbn [length].
  exact Hdec.
Qed.

Lemma decodeArray_stops_at_end_witness :
  ∃ c' out,
    encodeArray PFor_new (λ _, 0) (sparse_block ++ single_outlier) = Ok (c', out) ∧
    decodeArray (out ++ [128; 0; 5]) =
      Ok (sparse_block ++ single_outlier,
          Z.of_nat (length (sparse_block ++ single_outlier)),
          Z.of_nat (length out)) ∧
    decodeArray (drop (length out) (out ++ [128; 0; 5])) = decodeArray [128; 0; 5].
Proof.
  apply (decodeArray_stops_at_end PFor_new (λ _, 0)
           (sparse_block ++ single_outlier) [128; 0; 5]).
  - reflexivity.
  - reflexivity.
  - apply (bool_decide_unpack _). vm_compute. reflexivity.
  - vm_compute. reflexivity.
Defined.

(** ** The lengths encodeArray accepts *)

Section Accepted.
Context `{BitPacking}.

Lemma encode_chunks_Ok (rand : nat → Z) (inp : list Z) (rounds : nat) :
  Z.of_nat (length inp) mod BlockSize = 0 →
  ∀ (c : PFor) (k : nat) (i : Z) (out : list Z),
    0 <= i → i mod BlockSize = 0 →
    Z.max 0 (Z.of_nat (length inp) - i) <= Z.of_nat rounds →
    ∃ c' out',
      encode_chunks rounds c rand k inp (Z.of_nat (length inp)) i out = Ok (c', out').
Proof.
  intros Hdiv. pose proof maxsize_eq as Hmax.
  induction rounds as [|rounds IH]; intros c k i out Hi Hstep Hrounds.
  - cbn [encode_chunks].
    destruct (Z.ltb_spec i (Z.of_nat (length inp))); [lia|]. by eexists _, _.
  - cbn [encode_chunks].
    destruct (Z.ltb_spec i (Z.of_nat (length inp))) as [Hlt|]; [|by eexists _, _].
    destruct (chunk_cut inp i ltac:(lia)) as (Hl & Hclen & _ & _).
    pose proof (chunk_divisible inp i Hdiv Hstep) as Hcdiv.
    cbv zeta in Hcdiv. rewrite <- Hclen in Hcdiv. clear Hl Hclen.
    revert Hcdiv.
    generalize (take (Z.to_nat (if Z.of_nat (length inp) <? i + maxsize
                                then Z.of_nat (length inp) - i else maxsize))
                     (drop (Z.to_nat i) inp)) as chunk.
    intros chunk Hcdiv.
    rewrite encodeArray_chunk_Ok by exact Hcdiv.
    cbn [after]. rewrite bind_Ok. cbn [fst snd].
    apply IH; [lia | | lia].
    change BlockSize with 128 in *. rewrite Hmax.
    rewrite Z.add_mod, Hstep by lia. reflexivity.
Qed.

End Accepted.

(** X9: encodeArray succeeds exactly on the arrays whose length is a
    multiple of BlockSize = 128, the empty array among them. *)
Theorem encodeArray_accepts `{BitPacking}
    (c : PFor) (rand : nat → Z) (inp : list Z) :
  (∃ c' out, encodeArray c rand inp = Ok (c', out)) ↔
  Z.of_nat (length inp) mod BlockSize = 0.
Proof.
  split.
  - intros (c' & out & Henc).
    destruct (decide (Z.of_nat (length inp) mod BlockSize = 0)) as [|Hndiv]; [done|].
    assert (0 < Z.of_nat (length inp)) as Hpos.
    { destruct inp; [by contradict Hndiv | cbn [length]; lia]. }
    destruct (encode_chunks_Err rand inp (length inp) Hndiv c 0%nat 0
                [u32 (Z.of_nat (length inp))] ltac:(lia) eq_refl ltac:(lia))
      as [written Herr].
    unfold encodeArray in Henc. rewrite Herr in Henc. discriminate Henc.
  - intros Hdiv. unfold encodeArray.
    apply encode_chunks_Ok; [done | lia | reflexivity | lia].
Qed.

(** ** What the decoder writes on any stream *)

Lemma bind_Ok_inv {A B : Type} (m : result A) (k : A → result B) (b : B) :
  (m ≫= k) = Ok b → ∃ a, m = Ok a ∧ k a = Ok b.
Proof. destruct m as [a|e w]; [by exists a | done]. Qed.



Section DecoderCounts.
Context `{BitPacking}.






End DecoderCounts.



(** ** The sample of the width selection *)

(** X11: on an array of more than 65536 values, with rand() an int that
    is not negative, determineBestBase starts its sample at rand() modulo
    the size less 65536 and reads only the 65536 consecutive values from
    there, which lie inside the array: it selects the width it selects for
    these values alone. *)
Theorem determineBestBase_sample (rand : Z) (inp : list Z) :
  defaultsamplesize < Z.of_nat (length inp) →
  0 <= rand < 2 ^ 31 →
  rstart_of rand (Z.of_nat (length inp)) =
    rand mod (Z.of_nat (length inp) - defaultsamplesize) ∧
  0 <= rstart_of rand (Z.of_nat (length inp))
    < Z.of_nat (length inp) - defaultsamplesize ∧
  determineBestBase rand inp =
  determineBestBase 0
    (take (Z.to_nat defaultsamplesize)
          (drop (Z.to_nat (rstart_of rand (Z.of_nat (length inp)))) inp)).
Proof.
  intros Hbig Hrand.
  assert (0 < defaultsamplesize) as Hd by reflexivity.
  assert (samplesize_of (Z.of_nat (length inp)) = defaultsamplesize) as Hss.
  { unfold samplesize_of.
    destruct (Z.ltb_spec defaultsamplesize (Z.of_nat (length inp))); [done | lia]. }
  pose proof (Z.mod_pos_bound rand (Z.of_nat (length inp) - defaultsamplesize)
                ltac:(lia)) as Hr.
  pose proof (Z.mod_le rand (Z.of_nat (length inp) - defaultsamplesize)
                ltac:(lia) ltac:(lia)) as Hle.
  assert (rstart_of rand (Z.of_nat (length inp)) =
          rand mod (Z.of_nat (length inp) - defaultsamplesize)) as Hstart.
  { unfold rstart_of. rewrite Hss.
    destruct (Z.ltb_spec defaultsamplesize (Z.of_nat (length inp))); [|lia].
    apply u32_small. lia. }
  split; [exact Hstart|]. split; [rewrite Hstart; exact Hr|].
  assert (length (take (Z.to_nat defaultsamplesize)
                    (drop (Z.to_nat (rstart_of rand (Z.of_nat (length inp)))) inp))
          = Z.to_nat defaultsamplesize) as Hlen.
  { rewrite length_take, length_drop. lia. }
  unfold determineBestBase.
  destruct (Z.eqb_spec (Z.of_nat (length inp)) 0) as [|_]; [lia|].
  rewrite Hss. revert Hlen.
  generalize (take (Z.to_nat defaultsamplesize)
                (drop (Z.to_nat (rstart_of rand (Z.of_nat (length inp)))) inp))
    as sample.
  intros sample Hlen. rewrite Hlen, Z2Nat.id by lia.
  destruct (Z.eqb_spec defaultsamplesize 0) as [|_]; [lia|].
  assert (samplesize_of defaultsamplesize = defaultsamplesize) as ->.
  { unfold samplesize_of. by rewrite Z.ltb_irrefl. }
  assert (rstart_of 0 defaultsamplesize = 0) as ->.
  { unfold rstart_of, samplesize_of. by rewrite !Z.ltb_irrefl. }
  change (Z.to_nat 0) with 0%nat. rewrite drop_0, take_ge by lia.
  reflexivity.
Qed.

Lemma determineBestBase_sample_witness :
  rstart_of 1 (Z.of_nat (length (replicate (Z.to_nat 65536) 0 ++ [4294967295; 7]))) =
    1 mod (Z.of_nat (length (replicate (Z.to_nat 65536) 0 ++ [4294967295; 7]))
           - defaultsamplesize) ∧
  0 <= rstart_of 1 (Z.of_nat (length (replicate (Z.to_nat 65536) 0 ++ [4294967295; 7])))
    < Z.of_nat (length (replicate (Z.to_nat 65536) 0 ++ [4294967295; 7]))
      - defaultsamplesize ∧
  determineBestBase 1 (replicate (Z.to_nat 65536) 0 ++ [4294967295; 7]) =
  determineBestBase 0
    (take (Z.to_nat defaultsamplesize)
          (drop (Z.to_nat (rstart_of 1 (Z.of_nat
                   (length (replicate (Z.to_nat 65536) 0 ++ [4294967295; 7])))))
                (replicate (Z.to_nat 65536) 0 ++ [4294967295; 7]))).
Proof.
  apply (determineBestBase_sample 1 (replicate (Z.to_nat 65536) 0 ++ [4294967295; 7])).
  - vm_compute. reflexivity.
  - lia.
Defined.

(** ** The width selected for small values *)

Lemma checked_from_spec (check : Z → bool) (n : nat) :
  ∀ z, checked_from check n z = true →
  ∀ k, z <= k < z + Z.of_nat n → check k = true.
Proof.
  induction n as [|n IH]; intros z Hc k Hk; [lia|].
  cbn [checked_from] in Hc. apply andb_prop in Hc as [Hz Hrest].
  destruct (decide (k = z)) as [->|Hne]; [done|].
  apply (IH (z + 1) Hrest). lia.
Qed.

Lemma zero_rate (samplesize : Z) :
  1 <= samplesize <= defaultsamplesize →
  PrimFloat.div (PrimFloat.mul (to_double 0) 1%float) (to_double samplesize)
  = to_double 0.
Proof.
  intros Hs. apply FloatAxioms.Leibniz.eqb_spec.
  assert (checked_from zero_rate_check (Z.to_nat defaultsamplesize) 1 = true) as Hall
    by (vm_compute; reflexivity).
  pose proof (checked_from_spec zero_rate_check (Z.to_nat defaultsamplesize) 1
                Hall samplesize) as Hc.
  rewrite Z2Nat.id in Hc by (unfold defaultsamplesize; lia).
  apply Hc. lia.
Qed.

Lemma width_cost (b : Z) :
  0 <= b < 32 →
  PrimFloat.add (to_double b) (PrimFloat.mul (to_double 0) (to_double 32))
    = to_double b ∧
  PrimFloat.leb (to_double b) (to_double (b + 1)) = true.
Proof.
  intros Hb.
  assert (checked_from width_cost_check 32 0 = true) as Hall
    by (vm_compute; reflexivity).
  pose proof (checked_from_spec _ _ _ Hall b ltac:(lia)) as Hc.
  apply andb_prop in Hc as [Hadd Hle].
  split; [by apply FloatAxioms.Leibniz.eqb_spec | done].
Qed.

Lemma asmbits_bound (v B : Z) :
  0 <= B → 0 <= v < 2 ^ B → 0 <= asmbits v <= B.
Proof.
  intros HB Hv. unfold asmbits.
  destruct (Z.eqb_spec v 0) as [|Hnz]; [lia|].
  pose proof (Z.log2_nonneg v).
  pose proof (proj1 (Z.log2_lt_pow2 v B ltac:(lia)) ltac:(lia)). lia.
Qed.

Lemma count_bits_above (B : Z) (sample : list Z) :
  0 <= B → Forall (λ v, 0 <= v < 2 ^ B) sample →
  ∀ freqs,
    (∀ j, B < Z.of_nat j → (j < 33)%nat → freqs !!! j = 0) →
    ∀ j, B < Z.of_nat j → (j < 33)%nat → foldl count_bits freqs sample !!! j = 0.
Proof.
  intros HB Hfit. induction Hfit as [|v sample Hv _ IH]; intros freqs Hz; [done|].
  cbn [foldl]. apply IH. intros j Hj Hj33. unfold count_bits.
  pose proof (asmbits_bound v B HB Hv).
  rewrite list_lookup_total_insert_ne by lia. by apply Hz.
Qed.

Lemma cost_step_unbeaten (freqs : list Z) (samplesize b : Z) :
  0 <= b < 32 → 1 <= samplesize <= defaultsamplesize →
  freqs !!! Z.to_nat (b + 1) = 0 →
  cost_step freqs samplesize b (unbeaten (b + 1)) = unbeaten b.
Proof.
  intros Hb Hs Hf. unfold cost_step, unbeaten.
  cbn [numberofexceptions bestcost bestb]. rewrite Hf.
  change (u32 (0 + 0)) with 0. change (0 <? 0) with false. cbv iota.
  rewrite (zero_rate samplesize Hs).
  destruct (width_cost b Hb) as [-> ->]. reflexivity.
Qed.

Lemma cost_loop_unbeaten (freqs : list Z) (samplesize : Z) (B d : nat) :
  (B + d ≤ 32)%nat → 1 <= samplesize <= defaultsamplesize →
  (∀ j, (B < j ≤ B + d)%nat → freqs !!! j = 0) →
  cost_loop freqs samplesize (B + d) (unbeaten (Z.of_nat (B + d))) =
  cost_loop freqs samplesize B (unbeaten (Z.of_nat B)).
Proof.
  intros Hd Hs. induction d as [|d IH]; intros Hz.
  - by rewrite Nat.add_0_r.
  - rewrite Nat.add_succ_r. cbn [cost_loop].
    rewrite Nat2Z.inj_succ, <- Z.add_1_r, cost_step_unbeaten; [| lia | done |].
    + apply IH; [lia|]. intros j Hj. apply Hz. lia.
    + replace (Z.to_nat (Z.of_nat (B + d) + 1)) with (S (B + d)) by lia.
      apply Hz. lia.
Qed.

Lemma cost_loop_below (freqs : list Z) (samplesize M : Z) (n : nat) :
  ∀ st, bestb st <= M → Z.of_nat n <= M →
        bestb (cost_loop freqs samplesize n st) <= M.
Proof.
  induction n as [|n IH]; intros st Hst Hn; [done|].
  cbn [cost_loop]. apply IH; [|lia].
  destruct (cost_step_bestb freqs samplesize (Z.of_nat n) st) as [-> | ->]; lia.
Qed.

Lemma determineBestBase_below (rand : Z) (inp : list Z) (B : Z) :
  0 <= B <= 32 → Forall (λ v, 0 <= v < 2 ^ B) inp →
  determineBestBase rand inp <= B.
Proof.
  intros HB Hfit. unfold determineBestBase.
  destruct (Z.eqb_spec (Z.of_nat (length inp)) 0) as [|Hnz]; [lia|].
  assert (1 <= samplesize_of (Z.of_nat (length inp)) <= defaultsamplesize) as Hs.
  { unfold samplesize_of.
    destruct (Z.ltb_spec defaultsamplesize (Z.of_nat (length inp)));
      [by unfold defaultsamplesize | lia]. }
  revert Hs. generalize (samplesize_of (Z.of_nat (length inp))) as samplesize.
  intros samplesize Hs.
  assert (Forall (λ v, 0 <= v < 2 ^ B)
            (take (Z.to_nat samplesize)
               (drop (Z.to_nat (rstart_of rand (Z.of_nat (length inp)))) inp)))
    as Hsample by (by apply Forall_take, Forall_drop).
  revert Hsample.
  generalize (take (Z.to_nat samplesize)
                (drop (Z.to_nat (rstart_of rand (Z.of_nat (length inp)))) inp))
    as sample.
  intros sample Hsample.
  pose proof (count_bits_above B sample ltac:(lia) Hsample (replicate 33 0)) as Hz.
  revert Hz. generalize (foldl count_bits (replicate 33 0) sample) as freqs.
  intros freqs Hz.
  assert (∀ j, B < Z.of_nat j → (j < 33)%nat → freqs !!! j = 0) as Hfreqs.
  { apply Hz. intros j _ Hj. by apply lookup_total_replicate_2. }
  clear Hz.
  pose proof (cost_loop_unbeaten freqs samplesize (Z.to_nat B) (32 - Z.to_nat B)
                ltac:(lia) Hs) as Hloop.
  replace (Z.to_nat B + (32 - Z.to_nat B))%nat with 32%nat in Hloop by lia.
  change (Z.of_nat 32) with 32 in Hloop.
  change {| numberofexceptions := 0; bestcost := to_double 32; bestb := 32 |}
    with (unbeaten 32).
  rewrite Hloop.
  - apply cost_loop_below; [|lia]. unfold unbeaten. cbn [bestb]. lia.
  - intros j Hj. apply Hfreqs; lia.
Qed.

(** X12: when every value of the array is below 2^B, with B at most 32,
    determineBestBase selects a width of at most B bits, whatever sample
    it draws; so it selects the width 0 for an array of zeros. *)
Theorem determineBestBase_fits (rand : Z) (inp : list Z) (B : Z) :
  0 <= B <= 32 →
  Forall (λ v, 0 <= v < 2 ^ B) inp →
  0 <= determineBestBase rand inp <= B.
Proof.
  intros HB Hfit. split; [apply determineBestBase_range|].
  by apply determineBestBase_below.
Qed.

Lemma determineBestBase_fits_witness :
  0 <= determineBestBase 0 [5; 0; 7; 1] <= 3.
Proof.
  apply (determineBestBase_fits 0 [5; 0; 7; 1] 3).
  - lia.
  - apply (bool_decide_unpack _). vm_compute. reflexivity.
Defined.

(** ** How many exceptions a chunk has *)

Lemma filter_positions_length (g : Z) (l : list Z) :
  ∀ pre,
    length (filter (λ k, g <= (pre ++ l) !!! k) (seq (length pre) (length l))) =
    length (filter (λ v, g <= v) l).
Proof.
  induction l as [|x l IH]; intros pre; [done|].
  cbn [length seq]. rewrite !filter_cons.
  rewrite (list_lookup_total_middle pre l x (length pre) eq_refl).
  specialize (IH (pre ++ [x])).
  rewrite <- (assoc_L (++)), length_app, Nat.add_1_r in IH. cbn [app length] in IH.
  case_decide; cbn [length]; by rewrite IH.
Qed.

Lemma exception_positions_length (blk : list Z) (g : Z) :
  length blk = 128%nat →
  length (exception_positions blk g) = length (filter (λ v, g <= v) blk).
Proof.
  intros Hlen. pose proof (filter_positions_length g blk []) as E.
  cbn [app length] in E. rewrite Hlen in E.
  unfold exception_positions. rewrite BlockSize_nat. exact E.
Qed.

Section ExceptionCount.
Context `{BitPacking}.

Lemma compressblockPFOR_count (c : PFor) (blk : list Z) (b : Z) (exc0 : list Z) :
  length (miss c) = 128%nat → length blk = 128%nat → 0 <= b <= 32 →
  Forall is_u32 blk →
  ∃ more,
    excepts (compressblockPFOR c blk b exc0) = exc0 ++ more ∧
    (length (filter (λ v, (2 ^ b <= v)%Z) blk) ≤ length more)%nat ∧
    (Forall (λ v, v < 2 ^ b) blk → more = []).
Proof.
  intros Hmiss Hlen Hb Hu.
  destruct (decide (b = 32)) as [->|Hne].
  { exists []. rewrite compressblockPFOR_raw by done. cbn [excepts].
    split; [by rewrite app_nil_r|]. split; [|done].
    rewrite filter_none; [done|].
    eapply Forall_impl; [exact Hu|]. intros v [_ Hv]. simpl. lia. }
  rewrite <- exception_positions_length by done.
  destruct (head (exception_positions blk (2 ^ b))) as [first|] eqn:Hhead.
  - destruct (compressblockPFOR_patched c blk b exc0 first Hmiss Hlen
                ltac:(lia) Hhead) as (chain & st & L & _ & _ & Hin & ->).
    cbn [excepts]. exists ((blk !!!.) <$> chain).
    split; [apply (links_exceptions _ _ _ _ _ L)|]. split.
    + rewrite length_fmap. apply submseteq_length, NoDup_submseteq; [|done].
      unfold exception_positions. apply NoDup_filter, NoDup_seq.
    + intros Hfit. exfalso.
      rewrite exception_positions_none in Hhead; [done|].
      intros k Hk. destruct (lookup_lt_is_Some_2 blk k ltac:(lia)) as [v Hv].
      rewrite (list_lookup_total_correct _ _ _ Hv).
      exact (Forall_lookup_1 _ _ _ _ Hfit Hv).
  - assert (exception_positions blk (2 ^ b) = []) as Hnone
      by (by destruct (exception_positions blk (2 ^ b))).
    rewrite compressblockPFOR_clean by (done || lia).
    cbn [excepts]. rewrite Hnone. exists [].
    split; [by rewrite app_nil_r|]. by split.
Qed.

Lemma encode_blocks_count (b : Z) (n : nat) :
  0 <= b <= 32 →
  ∀ (c : PFor) (inp excs : list Z),
    length (miss c) = 128%nat → (128 * n ≤ length inp)%nat → Forall is_u32 inp →
    ∃ more,
      (encode_blocks n c inp b [] excs).2 = excs ++ more ∧
      (length (filter (λ v, (2 ^ b <= v)%Z) (take (128 * n) inp)) ≤ length more)%nat ∧
      (Forall (λ v, v < 2 ^ b) (take (128 * n) inp) → more = []).
Proof.
  intros Hb. induction n as [|n IH]; intros c inp excs Hmiss Hlen Hu.
  - exists []. cbn [encode_blocks snd]. rewrite app_nil_r, Nat.mul_0_r.
    by cbn [take].
  - rewrite encode_blocks_S. cbv zeta. cbn [snd].
    assert (length (take 128 inp) = 128%nat) as Hblk by (rewrite length_take; lia).
    destruct (compressblockPFOR_count c (take 128 inp) b excs Hmiss Hblk Hb
                ltac:(by apply Forall_take)) as (e1 & He1 & Hc1 & Hz1).
    destruct (compressblockPFOR_summary c (take 128 inp) b excs Hmiss Hblk Hb)
      as (Hmiss' & _).
    destruct (IH (scratch (compressblockPFOR c (take 128 inp) b excs))
                (drop 128 inp) (excepts (compressblockPFOR c (take 128 inp) b excs))
                Hmiss' ltac:(rewrite length_drop; lia) ltac:(by apply Forall_drop))
      as (more & -> & Hcm & Hzm).
    exists (e1 ++ more). rewrite He1, <- (assoc_L (++)).
    replace (128 * S n)%nat with (128 + 128 * n)%nat by lia.
    rewrite <- take_take_drop.
    split; [done|]. split.
    + rewrite filter_app, !length_app. lia.
    + intros [Hf1 Hfm]%Forall_app. by rewrite Hz1, Hzm.
Qed.

End ExceptionCount.

(** X13: in the words __encodeArray writes for a chunk of 32-bit values,
    the exceptions after the blocks are at least as many as the values
    that do not fit in the selected width b, and there is none when every
    value fits. *)
Theorem encodeArray_chunk_exceptions `{BitPacking}
    (c : PFor) (rand : Z) (inp : list Z) :
  length (miss c) = Z.to_nat BlockSize →
  Z.of_nat (length inp) mod BlockSize = 0 →
  Forall is_u32 inp →
  ∃ c' blocks excs,
    __encodeArray c rand inp =
      Ok (c', [u32 (Z.of_nat (length inp)); determineBestBase rand inp]
              ++ blocks ++ excs) ∧
    Z.of_nat (length blocks) =
      Z.of_nat (length inp) / BlockSize
      * (1 + BlockSize * determineBestBase rand inp / 32) ∧
    (length (filter (λ v, (2 ^ determineBestBase rand inp <= v)%Z) inp)
     ≤ length excs)%nat ∧
    (Forall (λ v, v < 2 ^ determineBestBase rand inp) inp → excs = []).
Proof.
  rewrite BlockSize_nat. intros Hmiss Hdiv Hu.
  rewrite encodeArray_chunk_Ok by done.
  pose proof (block_count inp Hdiv) as Hn.
  pose proof (determineBestBase_range rand inp) as Hb.
  destruct (encode_blocks_facts (determineBestBase rand inp)
              (Z.to_nat (Z.of_nat (length inp) / BlockSize)) Hb c inp []
              Hmiss ltac:(lia))
    as (_ & Hbody & _).
  destruct (encode_blocks_count (determineBestBase rand inp)
              (Z.to_nat (Z.of_nat (length inp) / BlockSize)) Hb c inp []
              Hmiss ltac:(lia) Hu)
    as (more & Hexc & Hcount & Hnone).
  rewrite <- Hn, firstn_all in Hcount, Hnone.
  eexists _, _, _. split; [reflexivity|]. split.
  - rewrite Hbody. change BlockSize with 128.
    replace (128 * determineBestBase rand inp)
      with (4 * determineBestBase rand inp * 32) by lia.
    rewrite Z.div_mul by lia.
    assert (0 <= Z.of_nat (length inp) / 128) by (apply Z.div_pos; lia).
    change BlockSize with 128 in Hn. lia.
  - rewrite Hexc. cbn [app]. split; [done|].
    intros Hfit. by apply Hnone.
Qed.

Lemma encodeArray_chunk_exceptions_witness :
  ∃ c' blocks excs,
    __encodeArray PFor_new 0 (sparse_block ++ single_outlier) =
      Ok (c', [u32 (Z.of_nat (length (sparse_block ++ single_outlier)));
               determineBestBase 0 (sparse_block ++ single_outlier)]
              ++ blocks ++ excs) ∧
    Z.of_nat (length blocks) =
      Z.of_nat (length (sparse_block ++ single_outlier)) / BlockSize
      * (1 + BlockSize * determineBestBase 0 (sparse_block ++ single_outlier) / 32) ∧
    (length (filter (λ v, (2 ^ determineBestBase 0 (sparse_block ++ single_outlier)
                           <= v)%Z) (sparse_block ++ single_outlier))
     ≤ length excs)%nat ∧
    (Forall (λ v, v < 2 ^ determineBestBase 0 (sparse_block ++ single_outlier))
       (sparse_block ++ single_outlier) → excs = []).
Proof.
  apply (encodeArray_chunk_exceptions PFor_new 0 (sparse_block ++ single_outlier)).
  - reflexivity.
  - reflexivity.
  - apply (bool_decide_unpack _). vm_compute. reflexivity.
Defined.

(** ** Arrays of zeros *)

Section Zeros.
Context `{BitPacking}.

Lemma encode_blocks_zeros (n : nat) :
  ∀ (c : PFor) (inp : list Z),
    length (miss c) = 128%nat → (128 * n ≤ length inp)%nat →
    Forall (λ v, v < 2 ^ 0) (take (128 * n) inp) →
    (encode_blocks n c inp 0 [] []).1.2 = replicate n 128 ∧
    (encode_blocks n c inp 0 [] []).2 = [].
Proof.
  induction n as [|n IH]; intros c inp Hmiss Hlen Hfit; [done|].
  rewrite encode_blocks_S. cbv zeta. cbn [fst snd].
  assert (length (take 128 inp) = 128%nat) as Hblk by (rewrite length_take; lia).
  replace (128 * S n)%nat with (128 + 128 * n)%nat in Hfit by lia.
  rewrite <- take_take_drop in Hfit. apply Forall_app in Hfit as [Hf1 Hfn].
  rewrite compressblockPFOR_clean; [| done | lia |].
  2:{ apply exception_positions_none. intros k Hk.
      destruct (lookup_lt_is_Some_2 (take 128 inp) k ltac:(lia)) as [v Hv].
      rewrite (list_lookup_total_correct _ _ _ Hv).
      exact (Forall_lookup_1 _ _ _ _ Hf1 Hv). }
  cbn [firstexcept words excepts scratch].
  assert (packblock (take 128 inp) 0 = []) as ->.
  { apply length_zero_iff_nil. by rewrite packblock_length by lia. }
  destruct (IH {| codedcopy := codedcopy c;
                  miss := (scan_exceptions (take 128 inp) (2 ^ 0) (miss c)).1 |}
              (drop 128 inp)) as [-> ->].
  - cbn [miss].
    by destruct (scan_exceptions_spec (take 128 inp) (2 ^ 0) (miss c) Hmiss).
  - rewrite length_drop. lia.
  - done.
  - done.
Qed.

End Zeros.

(** X14: a chunk of n blocks of zeros is encoded in n + 2 words: its
    length, the width 0, and for each block the header word 128 of a block
    with no exception and no packed word. *)
Theorem encodeArray_chunk_zeros `{BitPacking}
    (c : PFor) (rand : Z) (n : nat) :
  length (miss c) = Z.to_nat BlockSize →
  ∃ c',
    __encodeArray c rand (replicate (Z.to_nat BlockSize * n) 0) =
    Ok (c', [u32 (BlockSize * Z.of_nat n); 0] ++ replicate n 128).
Proof.
  rewrite BlockSize_nat. intros Hmiss.
  assert (Z.of_nat (length (replicate (128 * n) 0)) = BlockSize * Z.of_nat n) as Hlen.
  { rewrite length_replicate. change BlockSize with 128. lia. }
  assert (determineBestBase rand (replicate (128 * n) 0) = 0) as Hwidth.
  { pose proof (determineBestBase_range rand (replicate (128 * n) 0)).
    pose proof (determineBestBase_below rand (replicate (128 * n) 0) 0 ltac:(lia)
                  ltac:(apply Forall_replicate; lia)).
    lia. }
  rewrite encodeArray_chunk_Ok.
  2:{ rewrite Hlen, Z.mul_comm. apply Z.mod_mul. by change BlockSize with 128. }
  rewrite Hwidth, Hlen.
  replace (Z.to_nat (BlockSize * Z.of_nat n / BlockSize)) with n.
  2:{ rewrite Z.mul_comm, Z.div_mul by (by change BlockSize with 128). lia. }
  destruct (encode_blocks_zeros n c (replicate (128 * n) 0) Hmiss) as [-> ->].
  - rewrite length_replicate. lia.
  - apply Forall_take, Forall_replicate. lia.
  - eexists. by rewrite app_nil_r.
Qed.

Lemma encodeArray_chunk_zeros_witness :
  ∃ c',
    __encodeArray PFor_new 7 (replicate (Z.to_nat BlockSize * 3) 0) =
    Ok (c', [u32 (BlockSize * Z.of_nat 3); 0] ++ replicate 3 128).
Proof.
  apply (encodeArray_chunk_zeros PFor_new 7 3).
  reflexivity.
Defined.

(** ** The width selection counts bit lengths *)

Lemma count_bits_comm (freqs : list Z) (v w : Z) :
  count_bits (count_bits freqs v) w = count_bits (count_bits freqs w) v.
Proof.
  unfold count_bits.
  generalize (Z.to_nat (asmbits v)) as i, (Z.to_nat (asmbits w)) as j.
  intros i j. destruct (decide (i = j)) as [->|Hne]; [done|].
  rewrite !list_lookup_total_insert_ne by done.
  by apply list_insert_insert_ne.
Qed.

Lemma foldl_count_bits_Permutation (l1 l2 : list Z) :
  l1 ≡ₚ l2 → ∀ freqs, foldl count_bits freqs l1 = foldl count_bits freqs l2.
Proof.
  induction 1 as [|x l1 l2 _ IH|x y l|l1 l2 l3 _ IH1 _ IH2]; intros freqs.
  - done.
  - cbn [foldl]. apply IH.
  - cbn [foldl]. by rewrite count_bits_comm.
  - by rewrite IH1, IH2.
Qed.

(** X15: on arrays of at most 65536 values determineBestBase depends on
    the values only, not on their order: it selects the same width for two
    arrays that hold the same values. *)
Theorem determineBestBase_permutation (rand1 rand2 : Z) (inp1 inp2 : list Z) :
  inp1 ≡ₚ inp2 →
  Z.of_nat (length inp1) <= defaultsamplesize →
  determineBestBase rand1 inp1 = determineBestBase rand2 inp2.
Proof.
  intros Hperm Hsmall.
  pose proof (Permutation_length Hperm) as Hlen.
  assert (∀ rand inp, Z.of_nat (length inp) <= defaultsamplesize →
            determineBestBase rand inp =
            if Z.of_nat (length inp) =? 0 then 0
            else bestb (cost_loop (foldl count_bits (replicate 33 0) inp)
                          (Z.of_nat (length inp)) 32
                          {| numberofexceptions := 0; bestcost := to_double 32;
                             bestb := 32 |})) as Hwhole.
  { intros rand inp Hle. unfold determineBestBase.
    destruct (Z.of_nat (length inp) =? 0); [done|].
    assert (samplesize_of (Z.of_nat (length inp)) = Z.of_nat (length inp)) as Hss.
    { unfold samplesize_of.
      destruct (Z.ltb_spec defaultsamplesize (Z.of_nat (length inp))); [lia | done]. }
    unfold rstart_of. rewrite Hss, Z.ltb_irrefl, Nat2Z.id.
    change (Z.to_nat 0) with 0%nat. by rewrite drop_0, firstn_all. }
  rewrite !Hwhole by lia.
  by rewrite (foldl_count_bits_Permutation inp1 inp2 Hperm), Hlen.
Qed.

Lemma determineBestBase_permutation_witness :
  determineBestBase 3 [5; 0; 1000; 1] = determineBestBase 8 [1000; 1; 0; 5].
Proof.
  apply (determineBestBase_permutation 3 8 [5; 0; 1000; 1] [1000; 1; 0; 5]).
  - apply (bool_decide_unpack _). vm_compute. reflexivity.
  - vm_compute. discriminate.
Defined.

(** ** A chunk on its own *)

(** X16: for a chunk of at most 2^23 32-bit values whose length is a
    multiple of 128, __decodeArray applied to the words __encodeArray
    wrote, whatever follows them, yields the values of the chunk and their
    number and returns the cursor at the end of these words. *)
Theorem decodeArray_chunk_inverse `{BitPacking}
    (c : PFor) (rand : Z) (inp rest : list Z) :
  length (miss c) = Z.to_nat BlockSize →
  Forall is_u32 inp →
  Z.of_nat (length inp) mod BlockSize = 0 →
  Z.of_nat (length inp) <= maxsize →
  ∃ c' out,
    __encodeArray c rand inp = Ok (c', out) ∧
    __decodeArray (out ++ rest) =
      Ok (inp, Z.of_nat (length inp), Z.of_nat (length out)).
Proof.
  rewrite BlockSize_nat. intros Hmiss Hu Hdiv Hmax.
  destruct (chunk_round_trip c rand inp rest Hmiss Hu Hdiv Hmax)
    as (c' & out & Henc & _ & _ & Hdec).
  by exists c', out.
Qed.

Lemma decodeArray_chunk_inverse_witness :
  ∃ c' out,
    __encodeArray PFor_new 0 (single_outlier ++ sparse_block) = Ok (c', out) ∧
    __decodeArray (out ++ [1; 2; 3]) =
      Ok (single_outlier ++ sparse_block,
          Z.of_nat (length (single_outlier ++ sparse_block)),
          Z.of_nat (length out)).
Proof.
  apply (decodeArray_chunk_inverse PFor_new 0 (single_outlier ++ sparse_block) [1; 2; 3]).
  - reflexivity.
  - apply (bool_decide_unpack _). vm_compute. reflexivity.
  - reflexivity.
  - vm_compute. discriminate.
Defined.

(** ** The size of the output *)

Section OutputSize.
Context `{BitPacking}.

Lemma encodeArray_chunk_size (c : PFor) (rand : Z) (chunk : list Z) :
  length (miss c) = 128%nat →
  Z.of_nat (length chunk) mod BlockSize = 0 →
  ∃ c' enc,
    __encodeArray c rand chunk = Ok (c', enc) ∧
    length (miss c') = 128%nat ∧
    Z.of_nat (length enc) <= 2 + 257 * (Z.of_nat (length chunk) / 128).
Proof.
  intros Hmiss Hdiv. rewrite encodeArray_chunk_Ok by done.
  pose proof (block_count chunk Hdiv) as Hn.
  pose proof (determineBestBase_range rand chunk) as Hb.
  destruct (encode_blocks_facts (determineBestBase rand chunk)
              (Z.to_nat (Z.of_nat (length chunk) / BlockSize)) Hb c chunk []
              Hmiss ltac:(lia))
    as (Hmiss' & Hbody & more & Hexc & Hmore).
  eexists _, _. split; [reflexivity|]. split; [exact Hmiss'|].
  rewrite !length_app, Hbody, Hexc. cbn [length app].
  change BlockSize with 128 in *.
  assert (0 <= Z.of_nat (length chunk) / 128) by (apply Z.div_pos; lia).
  nia.
Qed.

Lemma encode_chunks_size (rand : nat → Z) (inp : list Z) (rounds : nat) :
  Z.of_nat (length inp) mod BlockSize = 0 →
  ∀ (c : PFor) (k : nat) (i : Z) (out : list Z),
    length (miss c) = 128%nat → 0 <= i → i mod BlockSize = 0 →
    Z.max 0 (Z.of_nat (length inp) - i) <= Z.of_nat rounds →
    ∃ c' enc,
      encode_chunks rounds c rand k inp (Z.of_nat (length inp)) i out
        = Ok (c', out ++ enc) ∧
      Z.of_nat (length enc) <= 259 * (Z.max 0 (Z.of_nat (length inp) - i) / 128).
Proof.
  intros Hdiv. pose proof maxsize_eq as Hmax.
  assert (∀ c i out, Z.of_nat (length inp) <= i →
            ∃ (c' : PFor) (enc : list Z),
              Ok (c, out) = Ok (c', out ++ enc) ∧
              Z.of_nat (length enc)
                <= 259 * (Z.max 0 (Z.of_nat (length inp) - i) / 128)) as Hend.
  { intros c i out Hge. exists c, []. rewrite app_nil_r. split; [done|].
    replace (Z.max 0 (Z.of_nat (length inp) - i)) with 0 by lia. reflexivity. }
  induction rounds as [|rounds IH]; intros c k i out Hmiss Hi Hstep Hrounds.
  - cbn [encode_chunks].
    destruct (Z.ltb_spec i (Z.of_nat (length inp))); [lia|]. by apply Hend.
  - cbn [encode_chunks].
    destruct (Z.ltb_spec i (Z.of_nat (length inp))) as [Hlt|]; [|by apply Hend].
    destruct (chunk_cut inp i ltac:(lia)) as (Hl & Hclen & Hrem & _).
    pose proof (chunk_divisible inp i Hdiv Hstep) as Hcdiv.
    cbv zeta in Hcdiv.
    revert Hl Hclen Hrem Hcdiv.
    generalize (take (Z.to_nat (if Z.of_nat (length inp) <? i + maxsize
                                then Z.of_nat (length inp) - i else maxsize))
                     (drop (Z.to_nat i) inp)) as chunk.
    generalize (if Z.of_nat (length inp) <? i + maxsize
                then Z.of_nat (length inp) - i else maxsize) as l.
    intros l chunk Hl Hclen Hrem Hcdiv.
    rewrite <- Hclen in Hcdiv.
    destruct (encodeArray_chunk_size c (rand k) chunk Hmiss Hcdiv)
      as (c1 & cenc & -> & Hmiss1 & Hsize).
    cbn [after]. rewrite bind_Ok. cbn [fst snd].
    destruct (IH c1 (S k) (i + maxsize) (out ++ cenc) Hmiss1 ltac:(lia))
      as (c' & enc' & -> & Hsize').
    { change BlockSize with 128 in *. rewrite Hmax.
      rewrite Z.add_mod, Hstep by lia. reflexivity. }
    { lia. }
    exists c', (cenc ++ enc'). rewrite (assoc_L (++)). split; [done|].
    rewrite length_app, Hclen in *.
    change BlockSize with 128 in *.
    apply Z.mod_divide in Hcdiv as [q Hq]; [|lia].
    replace (Z.max 0 (Z.of_nat (length inp) - i))
      with (q * 128 + Z.max 0 (Z.of_nat (length inp) - (i + maxsize))) by lia.
    rewrite Z.div_add_l by lia.
    rewrite Hq, Z.div_mul in Hsize by lia.
    lia.
Qed.

End OutputSize.

(** X17: for an array whose length len is a multiple of 128, encodeArray
    writes at most 1 + 259 * (len / 128) words: the length word, and for
    each chunk two words and at most 257 words per block. *)
Theorem encodeArray_size `{BitPacking}
    (c : PFor) (rand : nat → Z) (inp : list Z) :
  length (miss c) = Z.to_nat BlockSize →
  Z.of_nat (length inp) mod BlockSize = 0 →
  ∃ c' out,
    encodeArray c rand inp = Ok (c', out) ∧
    Z.of_nat (length out) <= 1 + 259 * (Z.of_nat (length inp) / BlockSize).
Proof.
  rewrite BlockSize_nat. intros Hmiss Hdiv.
  destruct (encode_chunks_size rand inp (length inp) Hdiv c 0%nat 0
              [u32 (Z.of_nat (length inp))] Hmiss ltac:(lia) eq_refl ltac:(lia))
    as (c' & enc & Henc & Hsize).
  exists c', ([u32 (Z.of_nat (length inp))] ++ enc).
  split; [unfold encodeArray; exact Henc|].
  rewrite length_app. cbn [length]. change BlockSize with 128.
  rewrite Z.sub_0_r, Z.max_r in Hsize by lia. lia.
Qed.

Lemma encodeArray_size_witness :
  ∃ c' out,
    encodeArray PFor_new (λ _, 0) (sparse_block ++ single_outlier) = Ok (c', out) ∧
    Z.of_nat (length out)
      <= 1 + 259 * (Z.of_nat (length (sparse_block ++ single_outlier)) / BlockSize).
Proof.
  apply (encodeArray_size PFor_new (λ _, 0) (sparse_block ++ single_outlier)).
  - reflexivity.
  - reflexivity.
Defined.

(** ** The first words of an encoded array *)

Section FirstWords.
Context `{BitPacking}.

Lemma encode_chunks_extends (rand : nat → Z) (inp : list Z) (len : Z) (rounds : nat) :
  ∀ (c : PFor) (k : nat) (i : Z) (out : list Z) (c' : PFor) (out' : list Z),
    encode_chunks rounds c rand k inp len i out = Ok (c', out') →
    ∃ enc, out' = out ++ enc.
Proof.
  induction rounds as [|rounds IH]; intros c k i out c' out' He;
    cbn [encode_chunks] in He.
  - destruct (i <? len); [done|]. injection He as <- <-.
    exists []. by rewrite app_nil_r.
  - destruct (i <? len).
    2:{ injection He as <- <-. exists []. by rewrite app_nil_r. }
    apply bind_Ok_inv in He as ([c1 o] & _ & He). cbn [fst snd] in He.
    apply IH in He as [enc ->]. exists (o ++ enc). by rewrite (assoc_L (++)).
Qed.

Lemma encode_chunks_first (rand : nat → Z) (inp : list Z) (rounds : nat)
    (c : PFor) (out : list Z) :
  Z.of_nat (length inp) mod BlockSize = 0 →
  0 < Z.of_nat (length inp) <= Z.of_nat rounds →
  ∃ c' rest,
    encode_chunks rounds c rand 0 inp (Z.of_nat (length inp)) 0 out =
    Ok (c', out ++
            [Z.min (Z.of_nat (length inp)) maxsize;
             determineBestBase (rand 0%nat)
               (take (Z.to_nat (Z.min (Z.of_nat (length inp)) maxsize)) inp)]
            ++ rest).
Proof.
  intros Hdiv Hlen. pose proof maxsize_eq as Hmax.
  destruct rounds as [|rounds]; [lia|]. cbn [encode_chunks].
  destruct (Z.ltb_spec 0 (Z.of_nat (length inp))) as [_|]; [|lia].
  destruct (chunk_cut inp 0 ltac:(lia)) as (Hl & Hclen & _ & _).
  pose proof (chunk_divisible inp 0 Hdiv eq_refl) as Hcdiv. cbv zeta in Hcdiv.
  assert ((if Z.of_nat (length inp) <? 0 + maxsize
           then Z.of_nat (length inp) - 0 else maxsize)
          = Z.min (Z.of_nat (length inp)) maxsize) as El.
  { destruct (Z.ltb_spec (Z.of_nat (length inp)) (0 + maxsize)); lia. }
  rewrite El in *. clear El.
  change (Z.to_nat 0) with 0%nat in *. rewrite drop_0 in *.
  revert Hclen.
  generalize (take (Z.to_nat (Z.min (Z.of_nat (length inp)) maxsize)) inp) as chunk.
  intros chunk Hclen.
  rewrite encodeArray_chunk_Ok by (by rewrite Hclen).
  cbn [after]. rewrite bind_Ok. cbn [fst snd].
  rewrite Hclen, u32_small by lia.
  match goal with |- context [encode_chunks rounds ?c1 rand 1 inp _ _ ?o] =>
    destruct (encode_chunks_Ok rand inp rounds Hdiv c1 1%nat (0 + maxsize) o)
      as (c' & out' & He) end.
  { lia. }
  { rewrite Hmax. reflexivity. }
  { lia. }
  rewrite He. apply encode_chunks_extends in He as [enc ->].
  eexists c', _. f_equal. f_equal.
  rewrite <- !(assoc_L (++)). cbn [app]. reflexivity.
Qed.

End FirstWords.

(** X18: for a non-empty array whose length len is a multiple of 128, the
    output of encodeArray starts with len, narrowed to 32 bits, then the
    length of the first chunk, which is len or 2^23 if len is more, then
    the width selected for that chunk with the first outcome of rand(). *)
Theorem encodeArray_first_words `{BitPacking}
    (c : PFor) (rand : nat → Z) (inp : list Z) :
  inp ≠ [] →
  Z.of_nat (length inp) mod BlockSize = 0 →
  ∃ c' rest,
    encodeArray c rand inp =
    Ok (c', [u32 (Z.of_nat (length inp));
             Z.min (Z.of_nat (length inp)) (2 ^ 23);
             determineBestBase (rand 0%nat)
               (take (Z.to_nat (Z.min (Z.of_nat (length inp)) maxsize)) inp)]
            ++ rest).
Proof.
  intros Hne Hdiv. rewrite <- maxsize_eq.
  assert (0 < Z.of_nat (length inp)) as Hpos.
  { destruct inp; [done | cbn [length]; lia]. }
  destruct (encode_chunks_first rand inp (length inp) c
              [u32 (Z.of_nat (length inp))] Hdiv ltac:(lia)) as (c' & rest & He).
  exists c', rest. unfold encodeArray. exact He.
Qed.

Lemma encodeArray_first_words_witness :
  ∃ c' rest,
    encodeArray PFor_new (λ _, 0) (sparse_block ++ single_outlier) =
    Ok (c', [u32 (Z.of_nat (length (sparse_block ++ single_outlier)));
             Z.min (Z.of_nat (length (sparse_block ++ single_outlier))) (2 ^ 23);
             determineBestBase 0
               (take (Z.to_nat (Z.min (Z.of_nat (length (sparse_block ++ single_outlier)))
                                      maxsize))
                     (sparse_block ++ single_outlier))]
            ++ rest).
Proof.
  apply (encodeArray_first_words PFor_new (λ _, 0) (sparse_block ++ single_outlier)).
  - vm_compute. discriminate.
  - reflexivity.
Defined.

(** ** A chunk the decoder rejects *)

(** X19: when the first word of the stream declares values and the chunk
    that follows declares a length that is not a multiple of BlockSize =
    128, decodeArray fails with the logic_error of that length, having
    written no value. *)
Theorem decodeArray_rejects `{BitPacking}
    (nvalue chunklen : Z) (rest : list Z) :
  0 < nvalue →
  chunklen mod BlockSize ≠ 0 →
  decodeArray (nvalue :: chunklen :: rest) = Err (logic_error chunklen BlockSize) [].
Proof.
  intros Hn Hdiv. unfold decodeArray. rewrite read_0, bind_Ok.
  destruct (Z.eqb_spec nvalue 0) as [|_]; [lia|].
  cbn [length decode_chunks].
  destruct (Z.ltb_spec 0 nvalue) as [_|]; [|lia].
  change (Z.to_nat 1) with 1%nat. cbn [drop].
  by rewrite decodeArray_chunk_Err.
Qed.

Lemma decodeArray_rejects_witness :
  decodeArray [256; 130; 4; 0] = Err (logic_error 130 BlockSize) [].
Proof.
  apply (decodeArray_rejects 256 130 [4; 0]).
  - lia.
  - vm_compute. discriminate.
Defined.
